(** * ColorClash: the simulation engine of [GameEngine]

    A shallow embedding of the engine class of the ColorClash client
    (the [GameEngine] class and the types of [types.ts]) and the
    properties of its specification.

    JavaScript numbers are IEEE 754 binary64 values.  The engine is
    written once, over an interface [Number] of the arithmetic it uses,
    and the interface is implemented twice: by Rocq's primitive floats,
    which are binary64 with round-to-nearest-even like JavaScript's, and
    by the real numbers, the arithmetic the geometric statements of the
    specification are about.  A statement proved for every [Number]
    holds for both.  Where a statement of the specification holds in
    real arithmetic and not in binary64, the theorem says what holds
    in every [Number] and what holds of the real numbers, and an
    example in binary64 shows the difference.

    The definitions come first: the numbers, the data model, the
    methods of the engine, then the vocabulary of the statements and
    the engines of the examples.  The lemmas and theorems follow. *)

From Stdlib Require Import ZArith List Bool String Ascii Lia ListSet.
From Stdlib Require Import Floats Reals Lra Psatz.
Import ListNotations.

Set Implicit Arguments.

(* ================================================================= *)
(** * Numbers *)

(** The operations of a JavaScript [number] the engine uses.  [nltb],
    [nleb] and [neqb] are [<], [<=] and [===]; [>] and [>=] are the
    same comparisons with the operands exchanged.  [nmax] and [nmin]
    are [Math.max] and [Math.min] on two arguments. *)
Class Number : Type := {
  num : Type;
  of_Z : Z -> num;
  nadd : num -> num -> num;
  nsub : num -> num -> num;
  nmul : num -> num -> num;
  ndiv : num -> num -> num;
  nopp : num -> num;
  nsqrt : num -> num;
  nltb : num -> num -> bool;
  nleb : num -> num -> bool;
  neqb : num -> num -> bool;
  nmax : num -> num -> num;
  nmin : num -> num -> num
}.

Declare Scope num_scope.
Delimit Scope num_scope with num.
Bind Scope num_scope with num.

Notation "a + b" := (nadd a b) : num_scope.
Notation "a - b" := (nsub a b) : num_scope.
Notation "a * b" := (nmul a b) : num_scope.
Notation "a / b" := (ndiv a b) : num_scope.
Notation "- a" := (nopp a) : num_scope.
Notation "a <? b" := (nltb a b) : num_scope.
Notation "a <=? b" := (nleb a b) : num_scope.
Notation "a >? b" := (nltb b a) (at level 70, only parsing) : num_scope.
Notation "a >=? b" := (nleb b a) (at level 70, only parsing) : num_scope.
Notation "a =? b" := (neqb a b) : num_scope.

(** A decimal literal [m / d] with [d] a power of ten, such as [0.15]
    = [decimal 15 100].  Both [m] and [d] are small integers, exact in
    binary64, so the one correctly rounded division yields the double
    nearest to the decimal, which is the value JavaScript reads the
    literal as. *)
Definition decimal `{Number} (m d : Z) : num := (of_Z m / of_Z d)%num.

(** ** Binary64 *)

Module Float64.

Definition float_of_Z (z : Z) : float :=
  match z with
  | Z0 => PrimFloat.zero
  | Zpos _ => PrimFloat.of_uint63 (Uint63.of_Z z)
  | Zneg p => PrimFloat.opp (PrimFloat.of_uint63 (Uint63.of_Z (Zpos p)))
  end.

Definition is_neg_zero (a : float) : bool :=
  match PrimFloat.classify a with
  | NZero => true
  | _ => false
  end.

(** [Math.max]: NaN if either argument is NaN, and [+0] is larger than
    [-0]. *)
Definition float_max (a b : float) : float :=
  if PrimFloat.is_nan a || PrimFloat.is_nan b then PrimFloat.nan
  else if PrimFloat.ltb a b then b
  else if PrimFloat.ltb b a then a
  else if is_neg_zero a then b else a.

(** [Math.min]: NaN if either argument is NaN, and [-0] is smaller than
    [+0]. *)
Definition float_min (a b : float) : float :=
  if PrimFloat.is_nan a || PrimFloat.is_nan b then PrimFloat.nan
  else if PrimFloat.ltb a b then a
  else if PrimFloat.ltb b a then b
  else if is_neg_zero a then a else b.

#[export] Instance number : Number := {|
  num := float;
  of_Z := float_of_Z;
  nadd := PrimFloat.add;
  nsub := PrimFloat.sub;
  nmul := PrimFloat.mul;
  ndiv := PrimFloat.div;
  nopp := PrimFloat.opp;
  nsqrt := PrimFloat.sqrt;
  nltb := PrimFloat.ltb;
  nleb := PrimFloat.leb;
  neqb := PrimFloat.eqb;
  nmax := float_max;
  nmin := float_min
|}.

End Float64.

(** ** Real numbers *)

Module Real.

Definition Rltb (a b : R) : bool := if Rlt_dec a b then true else false.
Definition Rleb (a b : R) : bool := if Rle_dec a b then true else false.
Definition Reqb (a b : R) : bool := if Req_dec_T a b then true else false.

#[export] Instance number : Number := {|
  num := R;
  of_Z := IZR;
  nadd := Rplus;
  nsub := Rminus;
  nmul := Rmult;
  ndiv := Rdiv;
  nopp := Ropp;
  nsqrt := R_sqrt.sqrt;
  nltb := Rltb;
  nleb := Rleb;
  neqb := Reqb;
  nmax := Rmax;
  nmin := Rmin
|}.

End Real.

(* ================================================================= *)
(** * Data model ([types.ts]) *)

Inductive GameColor : Set := blue | red | green.
Inductive ArenaShape : Set := square | circle | hexagon | triangle.
Inductive ArenaSize : Set := small | medium | large.
Inductive ParticleType : Set := collision | split.

Definition GameColor_eqb (a b : GameColor) : bool :=
  match a, b with
  | blue, blue | red, red | green, green => true
  | _, _ => false
  end.

(** The text of a colour, as a template literal prints it. *)
Definition GameColor_name (c : GameColor) : string :=
  match c with
  | blue => "blue"
  | red => "red"
  | green => "green"
  end.

Section DataModel.
Context {NUM : Number}.

(** [Circle]: an agent. [size] is its diameter. *)
Record Circle : Type := mkCircle {
  id : string;
  x : num;
  y : num;
  vx : num;
  vy : num;
  color : GameColor;
  size : num
}.

(** [Particle]: a transient visual effect. *)
Record Particle : Type := mkParticle {
  p_id : string;
  p_x : num;
  p_y : num;
  p_vx : num;
  p_vy : num;
  p_color : GameColor;
  p_size : num;
  life : num;
  maxLife : num;
  type : ParticleType
}.

Record ArenaConfig : Type := mkArenaConfig {
  shape : ArenaShape;
  a_size : ArenaSize;
  width : num;
  height : num
}.

(** The fields of a [GameEngine] object, followed by the part of its
    surroundings that its methods act on: the canvas extent, the number
    of [Math.random()] calls made so far, the frames requested from
    [requestAnimationFrame] and not yet run, and the calls made to the
    [onGameEnd] callback, oldest first.  The drawing context is left
    out: [render] writes to it and reads no result back. *)
Record GameEngine : Type := mkGameEngine {
  circles : list Circle;
  particles : list Particle;
  animationId : option nat;
  isRunning : bool;
  currentArena : ArenaConfig;
  PLAYFIELD_WIDTH : num;
  PLAYFIELD_HEIGHT : num;
  canvas_width : num;
  canvas_height : num;
  random_calls : nat;
  frame_handles : nat;
  frame_requests : list nat;
  onGameEnd_calls : list GameColor
}.

Definition set_circles (cs : list Circle) (e : GameEngine) : GameEngine :=
  mkGameEngine cs (particles e) (animationId e) (isRunning e)
    (currentArena e) (PLAYFIELD_WIDTH e) (PLAYFIELD_HEIGHT e)
    (canvas_width e) (canvas_height e) (random_calls e) (frame_handles e)
    (frame_requests e) (onGameEnd_calls e).

Definition set_particles (ps : list Particle) (e : GameEngine) : GameEngine :=
  mkGameEngine (circles e) ps (animationId e) (isRunning e)
    (currentArena e) (PLAYFIELD_WIDTH e) (PLAYFIELD_HEIGHT e)
    (canvas_width e) (canvas_height e) (random_calls e) (frame_handles e)
    (frame_requests e) (onGameEnd_calls e).

Definition set_isRunning (b : bool) (e : GameEngine) : GameEngine :=
  mkGameEngine (circles e) (particles e) (animationId e) b
    (currentArena e) (PLAYFIELD_WIDTH e) (PLAYFIELD_HEIGHT e)
    (canvas_width e) (canvas_height e) (random_calls e) (frame_handles e)
    (frame_requests e) (onGameEnd_calls e).

Definition set_random_calls (n : nat) (e : GameEngine) : GameEngine :=
  mkGameEngine (circles e) (particles e) (animationId e) (isRunning e)
    (currentArena e) (PLAYFIELD_WIDTH e) (PLAYFIELD_HEIGHT e)
    (canvas_width e) (canvas_height e) n (frame_handles e)
    (frame_requests e) (onGameEnd_calls e).

Definition set_animationId (h : option nat) (e : GameEngine) : GameEngine :=
  mkGameEngine (circles e) (particles e) h (isRunning e)
    (currentArena e) (PLAYFIELD_WIDTH e) (PLAYFIELD_HEIGHT e)
    (canvas_width e) (canvas_height e) (random_calls e) (frame_handles e)
    (frame_requests e) (onGameEnd_calls e).

Definition set_frames (handles : nat) (requests : list nat) (e : GameEngine)
  : GameEngine :=
  mkGameEngine (circles e) (particles e) (animationId e) (isRunning e)
    (currentArena e) (PLAYFIELD_WIDTH e) (PLAYFIELD_HEIGHT e)
    (canvas_width e) (canvas_height e) (random_calls e) handles
    requests (onGameEnd_calls e).

Definition set_onGameEnd_calls (l : list GameColor) (e : GameEngine)
  : GameEngine :=
  mkGameEngine (circles e) (particles e) (animationId e) (isRunning e)
    (currentArena e) (PLAYFIELD_WIDTH e) (PLAYFIELD_HEIGHT e)
    (canvas_width e) (canvas_height e) (random_calls e) (frame_handles e)
    (frame_requests e) l.

(** [this.currentArena = a], followed by the two assignments that copy
    its extent to [PLAYFIELD_WIDTH] and [PLAYFIELD_HEIGHT]. *)
Definition set_arena (a : ArenaConfig) (e : GameEngine) : GameEngine :=
  mkGameEngine (circles e) (particles e) (animationId e) (isRunning e)
    a (width a) (height a)
    (canvas_width e) (canvas_height e) (random_calls e) (frame_handles e)
    (frame_requests e) (onGameEnd_calls e).

(** [circle.vx = ...; circle.vy = ...] and [circle.x = ...; circle.y = ...]
    on a circle object. *)
Definition set_velocity (vx' vy' : num) (c : Circle) : Circle :=
  mkCircle (id c) (x c) (y c) vx' vy' (color c) (size c).

Definition set_position (x' y' : num) (c : Circle) : Circle :=
  mkCircle (id c) x' y' (vx c) (vy c) (color c) (size c).

End DataModel.

Arguments Circle {NUM}.
Arguments Particle {NUM}.
Arguments ArenaConfig {NUM}.
Arguments GameEngine {NUM}.

(** What the engine calls of the JavaScript runtime.  [Math_random n]
    is the value of the call of [Math.random()] that [n] calls precede,
    and [Date_now n] the reading of the clock at that point.
    [Number_toString] is the conversion a template literal applies to a
    number. *)
Class Runtime {NUM : Number} : Type := {
  Math_random : nat -> num;
  Date_now : nat -> num;
  Math_cos : num -> num;
  Math_sin : num -> num;
  Math_PI : num;
  Number_toString : num -> string
}.

(* ================================================================= *)
(** * The engine ([GameEngine]) *)

(** [l[i] = a] for an index of the list; no effect elsewhere (the
    engine writes through references to elements it has read). *)
Fixpoint list_set {A : Type} (i : nat) (a : A) (l : list A) : list A :=
  match l, i with
  | [], _ => []
  | _ :: l', O => a :: l'
  | b :: l', S i' => b :: list_set i' a l'
  end.

(** ** The colour relation *)

Inductive Relationship : Set := attraction | repulsion | neutral.

Definition getColorRelationship (currentColor otherColor : GameColor)
  : Relationship :=
  match currentColor with
  | blue =>
      (* Blue chases Red, flees from Green *)
      match otherColor with
      | red => attraction
      | green => repulsion
      | blue => neutral
      end
  | green =>
      (* Green chases Blue, flees from Red *)
      match otherColor with
      | blue => attraction
      | red => repulsion
      | green => neutral
      end
  | red =>
      (* Red chases Green, flees from Blue *)
      match otherColor with
      | green => attraction
      | blue => repulsion
      | red => neutral
      end
  end.

Section Engine.
Context {NUM : Number}.

Local Open Scope num_scope.

(** ** Game constants *)

Definition CIRCLE_SIZE : num := of_Z 25.
Definition INITIAL_CIRCLES_PER_COLOR : nat := 100.
Definition SPEED : num := decimal 25 10.
Definition SPREAD_RADIUS : num := of_Z 80.
Definition MAGNETIC_RANGE : num := of_Z 75.
Definition ATTRACTION_FORCE : num := decimal 15 100.
Definition REPULSION_FORCE : num := decimal 2 10.

(** ** The arena *)

(** [Math.min(this.canvas.width, this.canvas.height) - 20]. *)
Definition baseSizeOf (e : GameEngine) : num :=
  nmin (canvas_width e) (canvas_height e) - of_Z 20.

Definition createArenaConfig (shape : ArenaShape) (size : ArenaSize)
    (baseSize : num) : ArenaConfig :=
  let sizeMultiplier :=
    match size with
    | small => decimal 7 10
    | medium => decimal 85 100
    | large => of_Z 1
    end in
  let adjustedSize := baseSize * sizeMultiplier in
  match shape with
  | square | circle => mkArenaConfig shape size adjustedSize adjustedSize
  | hexagon | triangle =>
      mkArenaConfig shape size adjustedSize (adjustedSize * decimal 866 1000)
  end.

Definition updateDimensions (e : GameEngine) : GameEngine :=
  set_arena (createArenaConfig (shape (currentArena e))
               (a_size (currentArena e)) (baseSizeOf e)) e.

Definition setArena (shape : ArenaShape) (size : ArenaSize) (e : GameEngine)
  : GameEngine :=
  set_arena (createArenaConfig shape size (baseSizeOf e)) e.

(** [new GameEngine(canvas, ctx, onGameEnd)] for a canvas of the given
    extent: the field initialisers, the default arena, then
    [updateDimensions]. *)
Definition newGameEngine (canvasWidth canvasHeight : num) : GameEngine :=
  updateDimensions
    (mkGameEngine [] [] None false
       (mkArenaConfig square medium (of_Z 500) (of_Z 500))
       (of_Z 500) (of_Z 500) canvasWidth canvasHeight 0 0 [] []).

(** ** Force field *)

(** The body of the [forEach] of [applyMagneticForces]: what
    [otherCircle] adds to the force accumulated on [currentCircle]. *)
Definition magneticForce (currentCircle : Circle) (total : num * num)
    (otherCircle : Circle) : num * num :=
  let '(totalForceX, totalForceY) := total in
  if String.eqb (id currentCircle) (id otherCircle)
     || GameColor_eqb (color currentCircle) (color otherCircle)
  then total
  else
    let dx := x otherCircle - x currentCircle in
    let dy := y otherCircle - y currentCircle in
    let distance := nsqrt (dx * dx + dy * dy) in
    if (distance >? MAGNETIC_RANGE) || (distance =? of_Z 0) then total
    else
      let normalX := dx / distance in
      let normalY := dy / distance in
      match getColorRelationship (color currentCircle) (color otherCircle) with
      | attraction =>
          let force :=
            ATTRACTION_FORCE * (of_Z 1 - distance / MAGNETIC_RANGE) in
          (totalForceX + normalX * force, totalForceY + normalY * force)
      | repulsion =>
          let force :=
            REPULSION_FORCE * (of_Z 1 - distance / MAGNETIC_RANGE) in
          (totalForceX - normalX * force, totalForceY - normalY * force)
      | neutral => total
      end.

(** The speed limit applied at the end of [applyMagneticForces]. *)
Definition limitSpeed (c : Circle) : Circle :=
  let currentSpeed := nsqrt (vx c * vx c + vy c * vy c) in
  let maxSpeed := SPEED * decimal 18 10 in
  if currentSpeed >? maxSpeed then
    let speedRatio := maxSpeed / currentSpeed in
    set_velocity (vx c * speedRatio) (vy c * speedRatio) c
  else c.

(** [applyMagneticForces(currentCircle)], reading [this.circles]. *)
Definition applyMagneticForces (circles : list Circle)
    (currentCircle : Circle) : Circle :=
  let '(totalForceX, totalForceY) :=
    fold_left (magneticForce currentCircle) circles (of_Z 0, of_Z 0) in
  limitSpeed
    (set_velocity (vx currentCircle + totalForceX)
                  (vy currentCircle + totalForceY) currentCircle).

(** ** Arena boundaries *)

Definition handleSquareBoundaries (e : GameEngine) (c : Circle) : Circle :=
  let centerX := canvas_width e / of_Z 2 in
  let centerY := canvas_height e / of_Z 2 in
  let halfWidth := PLAYFIELD_WIDTH e / of_Z 2 in
  let halfHeight := PLAYFIELD_HEIGHT e / of_Z 2 in
  let left := centerX - halfWidth + size c / of_Z 2 in
  let right := centerX + halfWidth - size c / of_Z 2 in
  let top := centerY - halfHeight + size c / of_Z 2 in
  let bottom := centerY + halfHeight - size c / of_Z 2 in
  let c :=
    if (x c <=? left) || (x c >=? right) then
      mkCircle (id c) (nmax left (nmin right (x c))) (y c)
               (- vx c) (vy c) (color c) (size c)
    else c in
  if (y c <=? top) || (y c >=? bottom) then
    mkCircle (id c) (x c) (nmax top (nmin bottom (y c)))
             (vx c) (- vy c) (color c) (size c)
  else c.

Definition handleCircleBoundaries (e : GameEngine) (c : Circle)
    (centerX centerY : num) : Circle :=
  let dx := x c - centerX in
  let dy := y c - centerY in
  let distance := nsqrt (dx * dx + dy * dy) in
  let radius := PLAYFIELD_WIDTH e / of_Z 2 - size c / of_Z 2 in
  if distance >? radius then
    let normalX := dx / distance in
    let normalY := dy / distance in
    let dot := vx c * normalX + vy c * normalY in
    let vx' := vx c - of_Z 2 * dot * normalX in
    let vy' := vy c - of_Z 2 * dot * normalY in
    mkCircle (id c) (centerX + normalX * radius) (centerY + normalY * radius)
             vx' vy' (color c) (size c)
  else c.

(** For simplicity, the hexagon and the triangle use the circle's
    collision. *)
Definition handleHexagonBoundaries (e : GameEngine) (c : Circle)
    (centerX centerY : num) : Circle :=
  handleCircleBoundaries e c centerX centerY.

Definition handleTriangleBoundaries (e : GameEngine) (c : Circle)
    (centerX centerY : num) : Circle :=
  handleCircleBoundaries e c centerX centerY.

Definition handleArenaBoundaries (e : GameEngine) (c : Circle) : Circle :=
  let centerX := canvas_width e / of_Z 2 in
  let centerY := canvas_height e / of_Z 2 in
  match shape (currentArena e) with
  | square => handleSquareBoundaries e c
  | circle => handleCircleBoundaries e c centerX centerY
  | hexagon => handleHexagonBoundaries e c centerX centerY
  | triangle => handleTriangleBoundaries e c centerX centerY
  end.

(** ** Moving the circles *)

(** The body of the [forEach] of [updateCircles], on the circle at
    index [i] of [this.circles]: the circle object is updated in place,
    so the circles after it in the array read its new state. *)
Definition updateCircle (e : GameEngine) (i : nat) : GameEngine :=
  match nth_error (circles e) i with
  | None => e
  | Some c =>
      (* Apply magnetic forces *)
      let c := applyMagneticForces (circles e) c in
      (* Update position *)
      let c := set_position (x c + vx c) (y c + vy c) c in
      (* Handle boundaries based on arena shape *)
      let c := handleArenaBoundaries e c in
      set_circles (list_set i c (circles e)) e
  end.

Definition updateCircles (e : GameEngine) : GameEngine :=
  fold_left updateCircle (seq 0 (List.length (circles e))) e.

(** ** Collisions between circles *)

Definition isColliding (circle1 circle2 : Circle) : bool :=
  let dx := x circle1 - x circle2 in
  let dy := y circle1 - y circle2 in
  let distance := nsqrt (dx * dx + dy * dy) in
  let minDistance := (size circle1 + size circle2) / of_Z 2 in
  distance <? minDistance.

(** [applyBounce(circle1, circle2)]: the two circle objects after the
    call. *)
Definition applyBounce (circle1 circle2 : Circle) : Circle * Circle :=
  (* the collision normal (direction from circle1 to circle2) *)
  let dx := x circle2 - x circle1 in
  let dy := y circle2 - y circle1 in
  let distance := nsqrt (dx * dx + dy * dy) in
  (* Avoid division by zero *)
  if distance =? of_Z 0 then (circle1, circle2)
  else
    let normalX := dx / distance in
    let normalY := dy / distance in
    (* Store original speeds to maintain momentum *)
    let speed1 := nsqrt (vx circle1 * vx circle1 + vy circle1 * vy circle1) in
    let speed2 := nsqrt (vx circle2 * vx circle2 + vy circle2 * vy circle2) in
    let dot1 := vx circle1 * normalX + vy circle1 * normalY in
    let dot2 := vx circle2 * normalX + vy circle2 * normalY in
    (* Reflect velocities *)
    let vx1 := vx circle1 - of_Z 2 * dot1 * normalX in
    let vy1 := vy circle1 - of_Z 2 * dot1 * normalY in
    let vx2 := vx circle2 - of_Z 2 * dot2 * normalX in
    let vy2 := vy circle2 - of_Z 2 * dot2 * normalY in
    (* Restore original speeds to maintain momentum *)
    let newSpeed1 := nsqrt (vx1 * vx1 + vy1 * vy1) in
    let newSpeed2 := nsqrt (vx2 * vx2 + vy2 * vy2) in
    let '(vx1, vy1) :=
      if newSpeed1 >? of_Z 0
      then ((vx1 / newSpeed1) * speed1, (vy1 / newSpeed1) * speed1)
      else (vx1, vy1) in
    let '(vx2, vy2) :=
      if newSpeed2 >? of_Z 0
      then ((vx2 / newSpeed2) * speed2, (vy2 / newSpeed2) * speed2)
      else (vx2, vy2) in
    (* Separate overlapping circles *)
    let overlap := (size circle1 + size circle2) / of_Z 2 - distance in
    let '(x1, y1, x2, y2) :=
      if overlap >? of_Z 0 then
        let separationX := normalX * overlap * decimal 5 10 in
        let separationY := normalY * overlap * decimal 5 10 in
        (x circle1 - separationX, y circle1 - separationY,
         x circle2 + separationX, y circle2 + separationY)
      else (x circle1, y circle1, x circle2, y circle2) in
    (mkCircle (id circle1) x1 y1 vx1 vy1 (color circle1) (size circle1),
     mkCircle (id circle2) x2 y2 vx2 vy2 (color circle2) (size circle2)).

(** The result of [resolveBattle]: [{ winner, loser }], each a circle
    or [null]. *)
Record Battle : Type := mkBattle {
  winner : option Circle;
  loser : option Circle
}.

(** Rock-paper-scissors logic: Blue beats Red, Green beats Blue, Red
    beats Green. *)
Definition resolveBattle (circle1 circle2 : Circle) : Battle :=
  let same := GameColor_eqb in
  if (same (color circle1) blue && same (color circle2) red)
     || (same (color circle1) green && same (color circle2) blue)
     || (same (color circle1) red && same (color circle2) green)
  then mkBattle (Some circle1) (Some circle2)
  else if (same (color circle2) blue && same (color circle1) red)
     || (same (color circle2) green && same (color circle1) blue)
     || (same (color circle2) red && same (color circle1) green)
  then mkBattle (Some circle2) (Some circle1)
  else mkBattle None None.

(** ** Counting and the win condition *)

(** [getColorCounts()] as the entries of the object it returns, in the
    order of its keys: [{ blue: 0, red: 0, green: 0 }] with one
    increment per circle. *)
Definition increment (c : GameColor) (counts : list (GameColor * nat))
  : list (GameColor * nat) :=
  map (fun kv => if GameColor_eqb (fst kv) c then (fst kv, S (snd kv)) else kv)
      counts.

Definition getColorCounts (e : GameEngine) : list (GameColor * nat) :=
  fold_left (fun counts c => increment (color c) counts) (circles e)
            [(blue, O); (red, O); (green, O)].

(** ** Methods that change the engine *)

(** A method that reads and updates the engine and returns an [A]. *)
Definition Method (A : Type) : Type := GameEngine -> A * GameEngine.

Definition ret {A : Type} (a : A) : Method A := fun e => (a, e).

Definition bind {A B : Type} (m : Method A) (k : A -> Method B) : Method B :=
  fun e => let (a, e') := m e in k a e'.

Local Notation "v <- m ;; k" := (bind m (fun v => k))
  (at level 61, m at next level, right associativity).
Local Notation "m ;; k" := (bind m (fun _ => k))
  (at level 61, right associativity).

Definition read {A : Type} (f : GameEngine -> A) : Method A :=
  fun e => (f e, e).

Definition update (f : GameEngine -> GameEngine) : Method unit :=
  fun e => (tt, f e).

(** [for (...) { body }] over the values [l] of the loop variable. *)
Fixpoint forEach {A : Type} (l : list A) (body : A -> Method unit)
  : Method unit :=
  match l with
  | [] => ret tt
  | a :: l' => body a ;; forEach l' body
  end.

(** A loop whose body updates local variables of type [B]. *)
Fixpoint forEachWith {A B : Type} (l : list A) (body : A -> B -> Method B)
    (b : B) : Method B :=
  match l with
  | [] => ret b
  | a :: l' => b' <- body a b ;; forEachWith l' body b'
  end.

Context {RT : Runtime}.

(** [Math.random()] and [Date.now()]. *)
Definition random : Method num :=
  fun e => (Math_random (random_calls e),
            set_random_calls (S (random_calls e)) e).

Definition now : Method num := fun e => (Date_now (random_calls e), e).

Definition str (n : num) : string := Number_toString n.

(** ** Particles *)

Definition updateParticle (p : Particle) : Particle :=
  let x' := p_x p + p_vx p in
  let y' := p_y p + p_vy p in
  (* Assume 60fps, decrease life each frame *)
  let life' := life p - of_Z 1 / of_Z 60 in
  (* slight downward gravity, then air resistance *)
  let vy' := p_vy p + decimal 1 10 in
  let vx' := p_vx p * decimal 98 100 in
  let vy' := vy' * decimal 98 100 in
  mkParticle (p_id p) x' y' vx' vy' (p_color p) (p_size p) life' (maxLife p)
             (type p).

Definition updateParticles (e : GameEngine) : GameEngine :=
  let ps := map updateParticle (particles e) in
  (* Remove dead particles *)
  set_particles (filter (fun p => life p >? of_Z 0) ps) e.

Definition push_particle (p : Particle) : Method unit :=
  update (fun e => set_particles (particles e ++ [p]) e).

Definition createCollisionParticles (circle1 circle2 : Circle) : Method unit :=
  let centerX := (x circle1 + x circle2) / of_Z 2 in
  let centerY := (y circle1 + y circle2) / of_Z 2 in
  let particleCount := 6%nat in
  forEach (seq 0 particleCount) (fun i =>
    let angle :=
      (of_Z (Z.of_nat i) / of_Z (Z.of_nat particleCount)) * Math_PI * of_Z 2 in
    r <- random ;; let speed := of_Z 3 + r * of_Z 4 in
    r <- random ;; let size := of_Z 3 + r * of_Z 4 in
    r <- random ;; let life := decimal 5 10 + r * decimal 5 10 in
    (* Alternate between the two colliding colors *)
    let color := if Nat.even i then color circle1 else color circle2 in
    t <- now ;;
    rx <- random ;;
    ry <- random ;;
    push_particle
      (mkParticle
         ("collision-" ++ str t ++ "-" ++ str (of_Z (Z.of_nat i)))%string
         (centerX + (rx - decimal 5 10) * of_Z 20)
         (centerY + (ry - decimal 5 10) * of_Z 20)
         (Math_cos angle * speed)
         (Math_sin angle * speed)
         color size life life collision)).

Definition createSplitParticles (c : Circle) : Method unit :=
  let particleCount := 8%nat in
  let circle_size := size c in
  forEach (seq 0 particleCount) (fun i =>
    let angle :=
      (of_Z (Z.of_nat i) / of_Z (Z.of_nat particleCount)) * Math_PI * of_Z 2 in
    r <- random ;; let speed := of_Z 2 + r * of_Z 3 in
    r <- random ;; let size := of_Z 2 + r * of_Z 3 in
    r <- random ;; let life := decimal 8 10 + r * decimal 7 10 in
    t <- now ;;
    rx <- random ;;
    ry <- random ;;
    push_particle
      (mkParticle
         ("split-" ++ str t ++ "-" ++ str (of_Z (Z.of_nat i)))%string
         (x c + (rx - decimal 5 10) * circle_size)
         (y c + (ry - decimal 5 10) * circle_size)
         (Math_cos angle * speed)
         (Math_sin angle * speed)
         (color c) size life life split)).

(** ** Battles *)

(** A new circle near the original with slight velocity variation. *)
Definition createSplitCircle (originalCircle : Circle) : Method Circle :=
  r <- random ;; let angle := r * Math_PI * of_Z 2 in
  let offset := of_Z 10 in
  t <- now ;;
  rid <- random ;;
  rvx <- random ;;
  rvy <- random ;;
  ret (mkCircle
         (GameColor_name (color originalCircle) ++ "-split-" ++ str t ++ "-"
            ++ str rid)%string
         (x originalCircle + Math_cos angle * offset)
         (y originalCircle + Math_sin angle * offset)
         (vx originalCircle + (rvx - decimal 5 10) * of_Z 1)
         (vy originalCircle + (rvy - decimal 5 10) * of_Z 1)
         (color originalCircle)
         CIRCLE_SIZE).

(** The local variables of [checkCollisions]: the ids in [toRemove]
    (a [Set<string>]) and the circles of [toAdd]. *)
Definition Marks : Type := (set string * list Circle)%type.

Definition has (toRemove : set string) (i : string) : bool :=
  set_mem string_dec i toRemove.

Definition add (toRemove : set string) (i : string) : set string :=
  set_add string_dec i toRemove.

(** The body of the inner loop of [checkCollisions] for the circles at
    indices [i] and [j] of [this.circles]. *)
Definition checkPair (i j : nat) (marks : Marks) : Method Marks :=
  let '(toRemove, toAdd) := marks in
  cs <- read circles ;;
  match nth_error cs i, nth_error cs j with
  | Some circle1, Some circle2 =>
      if has toRemove (id circle1) || has toRemove (id circle2)
      then ret marks (* continue *)
      else if isColliding circle1 circle2 then
        (* Only process collisions between different colors *)
        if negb (GameColor_eqb (color circle1) (color circle2)) then
          (* Apply bounce physics to both circles *)
          let '(circle1, circle2) := applyBounce circle1 circle2 in
          update (set_circles (list_set j circle2 (list_set i circle1 cs))) ;;
          createCollisionParticles circle1 circle2 ;;
          let battle := resolveBattle circle1 circle2 in
          match winner battle, loser battle with
          | Some w, Some l =>
              createSplitParticles w ;;
              (* Mark loser for removal *)
              let toRemove := add toRemove (id l) in
              (* Create new circle from winner (split) *)
              newCircle <- createSplitCircle w ;;
              ret (toRemove, toAdd ++ [newCircle])
          | _, _ => ret (toRemove, toAdd)
          end
        else
          (* Same-colored circles pass through each other *)
          ret marks
      else ret marks
  | _, _ => ret marks
  end.

(** The two nested loops of [checkCollisions] over the [n] circles. *)
Definition scanPairs (n : nat) : Method Marks :=
  forEachWith (seq 0 n) (fun i marks =>
    forEachWith (seq (S i) (n - S i)) (fun j marks => checkPair i j marks)
                marks)
    ([], []).

Definition checkCollisions : Method unit :=
  n <- read (fun e => List.length (circles e)) ;;
  marks <- scanPairs n ;;
  let '(toRemove, toAdd) := marks in
  (* Remove defeated circles, then add new circles *)
  update (fun e =>
    set_circles
      (filter (fun c => negb (has toRemove (id c))) (circles e) ++ toAdd) e).

(** ** The win condition and the frame loop *)

(** [this.onGameEnd(winner)]: the host is notified. *)
Definition onGameEnd (w : GameColor) : Method unit :=
  update (fun e => set_onGameEnd_calls (onGameEnd_calls e ++ [w]) e).

Definition checkWinCondition : Method unit :=
  counts <- read getColorCounts ;;
  let activeColors := filter (fun kv => (0 <? snd kv)%nat) counts in
  if (List.length activeColors =? 1)%nat then
    match activeColors with
    | (w, _) :: _ =>
        update (set_isRunning false) ;;
        onGameEnd w
    | [] => ret tt
    end
  else ret tt.

(** [requestAnimationFrame(() => this.gameLoop())]: the browser hands
    out the next handle and keeps the request until it runs it. *)
Definition requestAnimationFrame : Method nat :=
  fun e =>
    let h := S (frame_handles e) in
    (h, set_frames h (frame_requests e ++ [h]) e).

(** One call of [gameLoop].  [render] comes between [checkCollisions]
    and [checkWinCondition]; it draws the state and changes none of
    it. *)
Definition gameLoop : Method unit :=
  running <- read isRunning ;;
  if negb running then ret tt
  else
    update updateCircles ;;
    update updateParticles ;;
    checkCollisions ;;
    checkWinCondition ;;
    h <- requestAnimationFrame ;;
    update (set_animationId (Some h)).

(** The browser runs the oldest frame request: a call of [gameLoop]. *)
Definition runFrame (e : GameEngine) : GameEngine :=
  match frame_requests e with
  | [] => e
  | _ :: rest => snd (gameLoop (set_frames (frame_handles e) rest e))
  end.

End Engine.

(** The bodies of the methods are unfolded by name where a proof needs
    them, not by [simpl]. *)
Arguments magneticForce : simpl never.
Arguments limitSpeed : simpl never.
Arguments applyMagneticForces : simpl never.
Arguments handleSquareBoundaries : simpl never.
Arguments handleCircleBoundaries : simpl never.
Arguments handleArenaBoundaries : simpl never.
Arguments updateCircle : simpl never.
Arguments updateCircles : simpl never.
Arguments updateParticles : simpl never.
Arguments isColliding : simpl never.
Arguments applyBounce : simpl never.
Arguments resolveBattle : simpl never.
Arguments getColorCounts : simpl never.
Arguments createCollisionParticles : simpl never.
Arguments createSplitParticles : simpl never.
Arguments createSplitCircle : simpl never.
Arguments has : simpl never.
Arguments add : simpl never.
Arguments checkPair : simpl never.
Arguments scanPairs : simpl never.
Arguments checkCollisions : simpl never.
Arguments checkWinCondition : simpl never.
Arguments gameLoop : simpl never.

(* ================================================================= *)
(** * Starting and stopping the engine ([GameEngine]) *)

Section Lifecycle.
Context {NUM : Number}.
Local Open Scope num_scope.

Local Notation "v <- m ;; k" := (bind m (fun v => k))
  (at level 61, m at next level, right associativity).
Local Notation "m ;; k" := (bind m (fun _ => k))
  (at level 61, right associativity).

(** [Vector2D] of [types.ts]. *)
Record Vector2D : Type := mkVector2D {
  v_x : num;
  v_y : num
}.

(** [l[Math.floor(v)]]: the element at the index [i] with
    [i <= v < i + 1]; [undefined] ([None]) when [v] is NaN, negative or
    not below the length of [l]. *)
Definition atFloor {A : Type} (l : list A) (v : num) : option A :=
  match
    find (fun i => (of_Z (Z.of_nat i) <=? v) && (v <? of_Z (Z.of_nat (S i))))
         (seq 0 (List.length l))
  with
  | Some i => nth_error l i
  | None => None
  end.

Context {RT : Runtime}.

(** [getRandomArena()].  [None] stands for an arena with [undefined]
    fields, which the engine would make if [Math.random()] gave a value
    outside its range [0, 1); that case is not modelled further. *)
Definition getRandomArena : Method (option ArenaConfig) :=
  let shapes := [square; circle; hexagon; triangle] in
  let sizes := [small; medium; large] in
  r <- random ;;
  let randomShape := atFloor shapes (r * of_Z (Z.of_nat (List.length shapes))) in
  r <- random ;;
  let randomSize := atFloor sizes (r * of_Z (Z.of_nat (List.length sizes))) in
  baseSize <- read baseSizeOf ;;
  ret (match randomShape, randomSize with
       | Some randomShape, Some randomSize =>
           Some (createArenaConfig randomShape randomSize baseSize)
       | _, _ => None
       end).

Definition createCircleGroup (color : GameColor) (center : Vector2D)
  : Method unit :=
  forEach (seq 0 INITIAL_CIRCLES_PER_COLOR) (fun i =>
    (* Generate random position within spread radius *)
    r <- random ;; let angle := r * Math_PI * of_Z 2 in
    r <- random ;; let distance := r * SPREAD_RADIUS in
    let x := v_x center + Math_cos angle * distance in
    let y := v_y center + Math_sin angle * distance in
    (* Generate random velocity *)
    r <- random ;; let velocityAngle := r * Math_PI * of_Z 2 in
    let vx := Math_cos velocityAngle * SPEED in
    let vy := Math_sin velocityAngle * SPEED in
    (* Clamp position to arena boundaries *)
    centerX <- read (fun e => canvas_width e / of_Z 2) ;;
    centerY <- read (fun e => canvas_height e / of_Z 2) ;;
    halfWidth <- read (fun e => PLAYFIELD_WIDTH e / of_Z 2) ;;
    halfHeight <- read (fun e => PLAYFIELD_HEIGHT e / of_Z 2) ;;
    let clampedX :=
      nmax (centerX - halfWidth + CIRCLE_SIZE / of_Z 2)
           (nmin (centerX + halfWidth - CIRCLE_SIZE / of_Z 2) x) in
    let clampedY :=
      nmax (centerY - halfHeight + CIRCLE_SIZE / of_Z 2)
           (nmin (centerY + halfHeight - CIRCLE_SIZE / of_Z 2) y) in
    t <- now ;;
    let circle :=
      mkCircle
        (GameColor_name color ++ "-" ++ str (of_Z (Z.of_nat i)) ++ "-" ++ str t)%string
        clampedX clampedY vx vy color CIRCLE_SIZE in
    update (fun e => set_circles (circles e ++ [circle]) e)).

Definition initializeCircles : Method unit :=
  update (set_circles []) ;;
  centerX <- read (fun e => canvas_width e / of_Z 2) ;;
  centerY <- read (fun e => canvas_height e / of_Z 2) ;;
  halfWidth <- read (fun e => PLAYFIELD_WIDTH e / of_Z 2) ;;
  halfHeight <- read (fun e => PLAYFIELD_HEIGHT e / of_Z 2) ;;
  (* Blue circles - top middle of arena *)
  createCircleGroup blue
    (mkVector2D centerX (centerY - halfHeight + of_Z 50)) ;;
  (* Red circles - bottom left of arena *)
  createCircleGroup red
    (mkVector2D (centerX - halfWidth + of_Z 50)
                (centerY + halfHeight - of_Z 50)) ;;
  (* Green circles - bottom right of arena *)
  createCircleGroup green
    (mkVector2D (centerX + halfWidth - of_Z 50)
                (centerY + halfHeight - of_Z 50)).

(** [startGame()]; [None] when [getRandomArena] gives no arena. *)
Definition startGame (e : GameEngine) : option GameEngine :=
  match getRandomArena e with
  | (Some arena, e) =>
      Some (snd ((update (set_arena arena) ;;
                  update (set_isRunning true) ;;
                  initializeCircles ;;
                  gameLoop) e))
  | (None, _) => None
  end.

(** [cancelAnimationFrame(h)]: the browser drops the request. *)
Definition cancelAnimationFrame (h : nat) : Method unit :=
  update (fun e =>
    set_frames (frame_handles e)
               (filter (fun h' => negb (Nat.eqb h' h)) (frame_requests e)) e).

(** [reset()].  The handle [0] is falsy, as [null] is; [clearCanvas]
    draws and changes nothing of the state. *)
Definition reset : Method unit :=
  update (set_isRunning false) ;;
  update (set_circles []) ;;
  update (set_particles []) ;;
  a <- read animationId ;;
  match a with
  | Some (S _ as h) =>
      cancelAnimationFrame h ;;
      update (set_animationId None)
  | _ => ret tt
  end.

Definition destroy : Method unit := reset.

End Lifecycle.

Arguments Vector2D {NUM}.
Arguments getRandomArena : simpl never.
Arguments createCircleGroup : simpl never.
Arguments initializeCircles : simpl never.
Arguments startGame : simpl never.
Arguments reset : simpl never.

(* ================================================================= *)
(** * The game component ([SimulationGame]) *)

(** [GamePhase] of [types.ts]. *)
Inductive GamePhase : Set := ready | betting | playing | ended | broke.

Section Component.
Context {NUM : Number}.
Local Open Scope num_scope.

(** [BettingState] of [types.ts]. *)
Record BettingState : Type := mkBettingState {
  bank : num;
  wager : num;
  predictedWinner : option GameColor
}.

(** The state of the [SimulationGame] component: the values of its
    three [useState] hooks. *)
Record SimulationGame : Type := mkSimulationGame {
  gamePhase : GamePhase;
  game_winner : option GameColor;
  bettingState : BettingState
}.

(** The state at the first render. *)
Definition initialGame : SimulationGame :=
  mkSimulationGame ready None (mkBettingState (of_Z 100) (of_Z 0) None).

Definition handleStartBetting (s : SimulationGame) : SimulationGame :=
  mkSimulationGame betting None (bettingState s).

Definition handlePlaceBet (wager : num) (color : GameColor)
    (s : SimulationGame) : SimulationGame :=
  mkSimulationGame playing (game_winner s)
    (mkBettingState (bank (bettingState s)) wager (Some color)).

(** [handleGameEnd(winningColor)].  The callback reads the betting
    state of the render that made it; [GameCanvas] makes a new engine
    with the new callback whenever the callback changes, and no handler
    changes the betting state while a game plays, so that state is the
    current one. *)
Definition handleGameEnd (winningColor : GameColor) (s : SimulationGame)
  : SimulationGame :=
  (* Calculate betting results *)
  let won :=
    match predictedWinner (bettingState s) with
    | Some predicted => GameColor_eqb predicted winningColor
    | None => false
    end in
  let newBank :=
    if won
    then bank (bettingState s) + wager (bettingState s)
    else bank (bettingState s) - wager (bettingState s) in
  (* Check if player is broke *)
  mkSimulationGame
    (if newBank <=? of_Z 0 then broke else ended)
    (Some winningColor)
    (mkBettingState newBank (wager (bettingState s))
                    (predictedWinner (bettingState s))).

Definition handleRestart (s : SimulationGame) : SimulationGame :=
  mkSimulationGame betting None
    (mkBettingState (bank (bettingState s)) (of_Z 0) None).

Definition handleQuit (s : SimulationGame) : SimulationGame :=
  mkSimulationGame ready None (mkBettingState (of_Z 100) (of_Z 0) None).

(** The state of the [BettingInterface] component. *)
Record BettingInterface : Type := mkBettingInterface {
  selectedColor : option GameColor;
  wagerAmount : num;
  errorMessage : string
}.

Definition initialBettingInterface : BettingInterface :=
  mkBettingInterface None (of_Z 10) EmptyString.

Definition setSelectedColor (color : GameColor) (b : BettingInterface)
  : BettingInterface :=
  mkBettingInterface (Some color) (wagerAmount b) (errorMessage b).

(** The [onChange] of the wager input, for the number [parsed] that
    [parseInt] returns (an integer or NaN):
    [Math.min(bank, Math.max(1, parsed || 1))]. *)
Definition setWagerAmount (parsed : num) (s : SimulationGame)
    (b : BettingInterface) : BettingInterface :=
  let falsy := (parsed =? of_Z 0) || negb (parsed =? parsed) in
  let value := if falsy then of_Z 1 else parsed in
  mkBettingInterface (selectedColor b)
    (nmin (bank (bettingState s)) (nmax (of_Z 1) value))
    (errorMessage b).

Definition handleBetSubmit (b : BettingInterface) (s : SimulationGame)
  : BettingInterface * SimulationGame :=
  let setErrorMessage (m : string) :=
    mkBettingInterface (selectedColor b) (wagerAmount b) m in
  match selectedColor b with
  | None => (setErrorMessage "Please select a color first."%string, s)
  | Some color =>
      if wagerAmount b <=? of_Z 0 then
        (setErrorMessage "Wager amount must be greater than 0."%string, s)
      else if wagerAmount b >? bank (bettingState s) then
        (setErrorMessage "You cannot bet more than your bank balance."%string, s)
      else
        (setErrorMessage EmptyString,
         handlePlaceBet (wagerAmount b) color s)
  end.

(** What the player and the engine can do to the component. *)
Inductive GameEvent : Type :=
  | PressPlay                      (* "Place Bet & Play" *)
  | PickColor (color : GameColor)  (* a colour button *)
  | TypeWager (parsed : num)       (* the wager input *)
  | PressPlaceBet                  (* "Place Bet" *)
  | PressCancel                    (* "Cancel" *)
  | GameEnds (winningColor : GameColor)  (* [onGameEnd] of the engine *)
  | PressPlayAgain                 (* "Play Again" *)
  | PressQuit.                     (* "Quit" and "Leave in Shame" *)

(** The component after an event.  A button acts in the phase that
    renders it, and the engine plays, and so ends a game, in the phase
    [playing] only; elsewhere the event changes nothing.  The betting
    interface is mounted anew, in its initial state, when the phase
    becomes [betting]. *)
Definition dispatch (ev : GameEvent) (ui : BettingInterface * SimulationGame)
  : BettingInterface * SimulationGame :=
  let '(b, s) := ui in
  match gamePhase s, ev with
  | ready, PressPlay => (initialBettingInterface, handleStartBetting s)
  | betting, PickColor color => (setSelectedColor color b, s)
  | betting, TypeWager parsed => (setWagerAmount parsed s b, s)
  | betting, PressPlaceBet => handleBetSubmit b s
  | betting, PressCancel =>
      (b, mkSimulationGame ready (game_winner s) (bettingState s))
  | playing, GameEnds winningColor => (b, handleGameEnd winningColor s)
  | ended, PressPlayAgain =>
      match game_winner s with
      | Some _ => (initialBettingInterface, handleRestart s)
      | None => (b, s)
      end
  | ended, PressQuit =>
      match game_winner s with
      | Some _ => (b, handleQuit s)
      | None => (b, s)
      end
  | broke, PressQuit => (b, handleQuit s)
  | _, _ => (b, s)
  end.

End Component.

Arguments BettingState {NUM}.
Arguments SimulationGame {NUM}.
Arguments BettingInterface {NUM}.
Arguments GameEvent {NUM}.

(* ================================================================= *)
(** * The vocabulary of the statements *)

(** "Blue beats Red, Green beats Blue, Red beats Green": the relation
    the comments of [resolveBattle] and [getColorRelationship] name. *)
Definition beats (a b : GameColor) : bool :=
  match a, b with
  | blue, red | green, blue | red, green => true
  | _, _ => false
  end.

Section Vocabulary.
Context {NUM : Number}.

(** [keeps f m]: the method [m] does not change what [f] reads. *)
Definition keeps {A B : Type} (f : GameEngine -> B) (m : Method A) : Prop :=
  forall e, f (snd (m e)) = f e.

(** [f] reads neither the particles nor the count of random calls,
    the two things creating particles and new circles changes. *)
Definition beside_effects {B : Type} (f : GameEngine -> B) : Prop :=
  (forall ps e, f (set_particles ps e) = f e)
  /\ (forall n e, f (set_random_calls n e) = f e).

(** What the host holds: [f] does not read the circles either. *)
Definition host_side {B : Type} (f : GameEngine -> B) : Prop :=
  (forall cs e, f (set_circles cs e) = f e) /\ beside_effects f.

(** The number of live circles of colour [k]. *)
Definition liveCount (k : GameColor) (e : GameEngine) : nat :=
  List.length (filter (fun c => GameColor_eqb (color c) k) (circles e)).

(** Exactly the colour [k] has a non-zero count. *)
Definition soleSurvivor (k : GameColor) (e : GameEngine) : Prop :=
  (0 < liveCount k e)%nat /\ forall k', k' <> k -> liveCount k' e = O.

(** The winner and the loser among the two bounced circles. *)
Definition battleOf (c1' c2' : Circle) : Circle * Circle :=
  if beats (color c1') (color c2') then (c1', c2') else (c2', c1').

(** What holds of the marks and the engine all along the scan of the
    circles with ids [ids]: the circles keep their ids; [toRemove]
    holds ids of circles, each once; and [toAdd] has one circle for
    each id of [toRemove]. *)
Definition scanInv (ids : list string) (marks : Marks) (e : GameEngine)
  : Prop :=
  map id (circles e) = ids
  /\ NoDup (fst marks)
  /\ incl (fst marks) ids
  /\ List.length (snd marks) = List.length (fst marks).

(** The update of the specification, in phases over all the circles:
    the force field on every circle, reading the circles as they are
    before any moves; then every position integrated; then every
    boundary handled. *)
Definition updateCircles_phased (e : GameEngine) : GameEngine :=
  let forced := map (applyMagneticForces (circles e)) (circles e) in
  let moved :=
    map (fun c => set_position (x c + vx c) (y c + vy c) c)%num forced in
  set_circles (map (handleArenaBoundaries e) moved) e.

(** The three steps of [updateCircles] on one circle, the force field
    reading the circles [others]. *)
Definition moveCircle (e : GameEngine) (others : list Circle) (c : Circle)
  : Circle :=
  let c := applyMagneticForces others c in
  let c := set_position (x c + vx c) (y c + vy c)%num c in
  handleArenaBoundaries e c.

Context {RT : Runtime}.

(** The engine as [checkWinCondition] finds it in a frame that starts
    from [e]: after [updateCircles], [updateParticles] and
    [checkCollisions]. *)
Definition beforeWinCheck (e : GameEngine) : GameEngine :=
  snd (checkCollisions (updateParticles (updateCircles e))).

(** The circle the winner [w] splits off when the engine is [e]. *)
Definition splitOf (w : Circle) (e : GameEngine) : Circle :=
  fst (createSplitCircle w e).

(** The engine after the effects of a battle of the circles at [i] and
    [j], bounced to [c1'] and [c2']. *)
Definition afterBattle (i j : nat) (c1' c2' : Circle) (e : GameEngine)
  : GameEngine :=
  let e1 := set_circles (list_set j c2' (list_set i c1' (circles e))) e in
  let e2 := snd (createCollisionParticles c1' c2' e1) in
  snd (createSplitParticles (fst (battleOf c1' c2')) e2).

(** The pairs of indices the two loops of [checkCollisions] visit over
    [n] circles, in the order they visit them. *)
Definition pairsOf (n : nat) : list (nat * nat) :=
  flat_map (fun i => map (pair i) (seq (S i) (n - S i))) (seq 0 n).

(** The scan of the pairs [ps], one after the other, from the marks
    [marks]. *)
Definition scanOver (ps : list (nat * nat)) (marks : Marks) : Method Marks :=
  forEachWith ps (fun p marks => checkPair (fst p) (snd p) marks) marks.

(** The marks and the engine when [checkCollisions], called on [e],
    comes to the pair number [k] of its scan. *)
Definition scanBefore (k : nat) (e : GameEngine) : Marks * GameEngine :=
  scanOver (firstn k (pairsOf (List.length (circles e)))) ([], []) e.

(** From the marks [m] and the engine [e] to the marks [m'] and the
    engine [e'], the scan has only marked more ids and queued more
    circles, and the circle at every index has kept its id, its colour
    and its size. *)
Definition scanGrows (m : Marks) (e : GameEngine) (m' : Marks)
    (e' : GameEngine) : Prop :=
  incl (fst m) (fst m')
  /\ (exists more, snd m' = snd m ++ more)
  /\ map id (circles e') = map id (circles e)
  /\ map color (circles e') = map color (circles e)
  /\ map size (circles e') = map size (circles e).

(** The pair number [k] of the scan of [e] is the pair of the indices
    [i] and [j], and it comes to a battle of the circles [c1] and [c2]:
    neither is marked, they are in collision and of different
    colours. *)
Definition battleAt (e : GameEngine) (k i j : nat) (c1 c2 : Circle) : Prop :=
  nth_error (pairsOf (List.length (circles e))) k = Some (i, j)
  /\ nth_error (circles (snd (scanBefore k e))) i = Some c1
  /\ nth_error (circles (snd (scanBefore k e))) j = Some c2
  /\ has (fst (fst (scanBefore k e))) (id c1) = false
  /\ has (fst (fst (scanBefore k e))) (id c2) = false
  /\ isColliding c1 c2 = true
  /\ color c1 <> color c2.

End Vocabulary.

Section Geometry.
Context {NUM : Number}.
Local Open Scope num_scope.

(** The bounds [handleSquareBoundaries] computes for the centre of a
    circle: the edges of the arena, inset by half the diameter. *)
Definition squareLeft (e : GameEngine) (c : Circle) : num :=
  canvas_width e / of_Z 2 - PLAYFIELD_WIDTH e / of_Z 2 + size c / of_Z 2.

Definition squareRight (e : GameEngine) (c : Circle) : num :=
  canvas_width e / of_Z 2 + PLAYFIELD_WIDTH e / of_Z 2 - size c / of_Z 2.

Definition squareTop (e : GameEngine) (c : Circle) : num :=
  canvas_height e / of_Z 2 - PLAYFIELD_HEIGHT e / of_Z 2 + size c / of_Z 2.

Definition squareBottom (e : GameEngine) (c : Circle) : num :=
  canvas_height e / of_Z 2 + PLAYFIELD_HEIGHT e / of_Z 2 - size c / of_Z 2.

(** One axis of [handleSquareBoundaries]: the coordinate and the
    velocity component after the check against [lo] and [hi]. *)
Definition reflectAxis (lo hi a v : num) : num * num :=
  if (a <=? lo) || (a >=? hi) then (nmax lo (nmin hi a), - v) else (a, v).

(** The distance from the centre of [c] to the centre of [o], as
    [applyMagneticForces] and [applyBounce] compute it. *)
Definition distanceBetween (c o : Circle) : num :=
  let dx := x o - x c in
  let dy := y o - y c in
  nsqrt (dx * dx + dy * dy).

(** The direction [applyMagneticForces] and [applyBounce] compute,
    from the centre of [c] to the centre of [o]: the difference of the
    centres, divided by the distance. *)
Definition directionTo (c o : Circle) : num * num :=
  ((x o - x c) / distanceBetween c o, (y o - y c) / distanceBetween c o).


(** What [applyBounce] does to the velocity [(vx, vy)] of one circle,
    for the collision normal [(nx, ny)]: reflected off the normal, then
    scaled back to the speed it had. *)
Definition bounceVelocity (vx vy nx ny : num) : num * num :=
  let speed := nsqrt (vx * vx + vy * vy) in
  let dot := vx * nx + vy * ny in
  let vx' := vx - of_Z 2 * dot * nx in
  let vy' := vy - of_Z 2 * dot * ny in
  let newSpeed := nsqrt (vx' * vx' + vy' * vy') in
  if newSpeed >? of_Z 0
  then ((vx' / newSpeed) * speed, (vy' / newSpeed) * speed)
  else (vx', vy').

End Geometry.


Unset Implicit Arguments.

(* ================================================================= *)
(** * Laws of the arithmetic *)

(** The facts about numbers that the statements on boundaries and on
    coinciding centres rest on.  [proper a]: [a] is a number and not
    NaN; [finite a]: [a] is neither NaN nor an infinity.  On proper
    numbers [<=] is a total preorder and [Math.max] and [Math.min]
    return the larger and the smaller argument; the distance of two
    points of finite coordinates is a number, and when it is finite and
    not zero the components of the direction from one to the other are
    numbers; a finite number minus itself is [0]. *)
Class NumberLaws (NUM : Number) : Type := {
  proper : num -> Prop;
  finite : num -> Prop;
  leb_proper : forall a b : num, (a <=? b)%num = true -> proper a /\ proper b;
  leb_refl : forall a : num, proper a -> (a <=? a)%num = true;
  leb_total : forall a b : num,
      proper a -> proper b -> (a <=? b)%num = false -> (b <=? a)%num = true;
  leb_trans : forall a b c : num,
      (a <=? b)%num = true -> (b <=? c)%num = true -> (a <=? c)%num = true;
  leb_antisym : forall a b : num,
      (a <=? b)%num = true -> (b <=? a)%num = true -> (a =? b)%num = true;
  max_spec : forall a b : num, proper a -> proper b ->
      ((a <=? b)%num = true /\ nmax a b = b)
      \/ ((b <=? a)%num = true /\ nmax a b = a);
  min_spec : forall a b : num, proper a -> proper b ->
      ((a <=? b)%num = true /\ nmin a b = a)
      \/ ((b <=? a)%num = true /\ nmin a b = b);
  finite_proper : forall a : num, finite a -> proper a;
  ltb_false_leb : forall a b : num,
      proper a -> proper b -> (a <? b)%num = false -> (b <=? a)%num = true;
  distance_proper : forall x1 y1 x2 y2 : num,
      finite x1 -> finite y1 -> finite x2 -> finite y2 ->
      proper (nsqrt ((x2 - x1) * (x2 - x1) + (y2 - y1) * (y2 - y1)))%num;
  direction_proper : forall x1 y1 x2 y2 bound : num,
      finite x1 -> finite y1 -> finite x2 -> finite y2 -> finite bound ->
      let d := (nsqrt ((x2 - x1) * (x2 - x1) + (y2 - y1) * (y2 - y1)))%num in
      (d <=? bound)%num = true -> (d =? of_Z 0)%num = false ->
      proper ((x2 - x1) / d)%num /\ proper ((y2 - y1) / d)%num;
  sub_diag : forall a : num, finite a -> (a - a)%num = of_Z 0;
  mul_zero : (of_Z 0 * of_Z 0)%num = of_Z 0;
  add_zero : (of_Z 0 + of_Z 0)%num = of_Z 0;
  sqrt_zero : nsqrt (of_Z 0) = of_Z 0;
  eqb_zero : (of_Z 0 =? of_Z 0)%num = true
}.

(** The classes of floats and of their specification that the laws
    of binary64 are stated with. *)
Module Float64Spec.

(** A float that is not NaN. *)
Definition is_number (a : float) : Prop := PrimFloat.is_nan a = false.

(** A float that is neither NaN nor an infinity. *)
Definition is_finite (a : float) : Prop := PrimFloat.is_finite a = true.

(** The class of a rounded value: zero, finite or infinite, of the
    sign asked for. *)
Definition of_sign (s : bool) (x : spec_float) : Prop :=
  match x with
  | S754_zero s' | S754_finite s' _ _ | S754_infinity s' => s' = s
  | S754_nan => False
  end.

(** Zero or finite. *)
Definition sf_finite (x : spec_float) : Prop :=
  match x with
  | S754_zero _ | S754_finite _ _ _ => True
  | _ => False
  end.

End Float64Spec.

(* ================================================================= *)
(** * Engines and circles of the examples *)

Module Fixtures.
Import Float64.
#[local] Existing Instance Float64.number.
#[local] Set Warnings "-inexact-float".
Local Open Scope float_scope.

(** The engine made for a canvas of 600 by 600, running with the
    circles [cs]: its arena is the medium square one, of 493 by 493. *)
Definition engineOf (cs : list Circle) : GameEngine :=
  set_isRunning true (set_circles cs (newGameEngine 600 600)).

(** A blue and a red circle, 10 apart, moving toward each other. *)
Definition blue0 : Circle :=
  mkCircle "blue-0-1700000000000" 300 300 2.5 0 blue 25.

Definition red0 : Circle :=
  mkCircle "red-0-1700000000000" 310 300 (-2.5) 0 red 25.

Definition duel : GameEngine := engineOf [blue0; red0].

(** A red circle with the centre of [blue0]. *)
Definition red_same : Circle :=
  mkCircle "red-0-1700000000000" 300 300 (-2.5) 0 red 25.

(** A blue circle beyond the left bound 66 of the arena of [duel]. *)
Definition outside : Circle :=
  mkCircle "blue-1-1700000000000" 60 300 (-2) 1 blue 25.

(** The engine made for a canvas of 30 by 30, with the small square
    arena: 7 by 7, narrower than a circle. *)
Definition narrow : GameEngine :=
  set_isRunning true (setArena square small (newGameEngine 30 30)).

Definition centred : Circle :=
  mkCircle "blue-0-1700000000000" 15 15 1 0 blue 25.










(** The texts of the numbers in the ids of [crowd] and of its
    particles: the indices 0 to 7, and the time. *)
Definition text_of (v : float) : string :=
  match find (fun kv => PrimFloat.eqb v (fst kv))
             [(0, "0"); (1, "1"); (2, "2"); (3, "3"); (4, "4"); (5, "5");
              (6, "6"); (7, "7")]%string with
  | Some kv => snd kv
  | None => "1700000000000"%string
  end.

(** A runtime whose [Math.random()] gives 0 at every call and whose
    clock does not advance, with a cosine and a sine that are 1 and 0
    at the angle 0. *)
Definition stuck (cos sin : float -> float) : Runtime := {|
  Math_random := fun _ => 0;
  Date_now := fun _ => 1700000000000;
  Math_cos := fun a => if PrimFloat.eqb a 0 then 1 else cos a;
  Math_sin := fun a => if PrimFloat.eqb a 0 then 0 else sin a;
  Math_PI := 0x1.921fb54442d18p+1;
  Number_toString := text_of
|}.

(** [blue0] and [red0] with a green circle on the left, 12.5 from
    where the bounce puts [blue0]. *)
Definition green_left : Circle :=
  mkCircle "green-0-1700000000000" 280 300 0 2.5 green 25.

Definition trio : GameEngine := engineOf [blue0; red0; green_left].

End Fixtures.

Module RealFixtures.
Import Real.
#[local] Existing Instance Real.number.
Local Open Scope R_scope.

(** A blue circle at the origin and a red circle at distance 1 on its
    right, moving toward each other. *)
Definition blue1 : @Circle Real.number :=
  mkCircle "blue-0-1700000000000" 0 0 1 0 blue 25.

Definition red1 : @Circle Real.number :=
  mkCircle "red-0-1700000000000" 1 0 (-1) 0 red 25.

End RealFixtures.

(* ================================================================= *)
(** * The vocabulary of the further properties *)

Section FurtherVocabulary.
Context {NUM : Number}.

(** What holds of the local variables and the engine all along the
    collision scan that starts from the engine [e0]: the circles keep
    their colours; every queued circle has the colour of a circle of
    [e0]; 14 particles have been added, after those of [e0], and 74
    values of [Math.random()] used, for each queued circle. *)
Definition scanFacts (e0 : GameEngine) (marks : Marks) (e : GameEngine)
  : Prop :=
  map color (circles e) = map color (circles e0)
  /\ (forall c, In c (snd marks) -> In (color c) (map color (circles e0)))
  /\ List.length (particles e)
     = (14 * List.length (snd marks) + List.length (particles e0))%nat
  /\ firstn (List.length (particles e0)) (particles e) = particles e0
  /\ random_calls e = (74 * List.length (snd marks) + random_calls e0)%nat.

(** [e'] is [e] but for the particles and the count of the values of
    [Math.random()] used. *)
Definition besideParticles (e e' : GameEngine) : Prop :=
  e' = set_random_calls (random_calls e') (set_particles (particles e') e).

(** [e'] is [e] but for the circles and the count of the values of
    [Math.random()] used. *)
Definition besideCircles (e e' : GameEngine) : Prop :=
  e' = set_random_calls (random_calls e') (set_circles (circles e') e).

(** A circle as [createCircleGroup] makes it for the colour [k] in the
    engine [e]: of the standard size, at a position clamped to the
    bounds of the square, with a velocity of magnitude [SPEED] along
    some angle. *)
Definition seeded {RT : Runtime} (k : GameColor) (e : GameEngine) (c : Circle)
  : Prop :=
  color c = k /\ size c = CIRCLE_SIZE
  /\ (exists px : num,
        x c = nmax (squareLeft e c) (nmin (squareRight e c) px))
  /\ (exists py : num,
        y c = nmax (squareTop e c) (nmin (squareBottom e c) py))
  /\ (exists a : num,
        vx c = (Math_cos a * SPEED)%num /\ vy c = (Math_sin a * SPEED)%num).

(** The radius [handleCircleBoundaries] keeps the centre of a circle
    within, and the distance it computes from the centre of the canvas
    to the centre of the circle. *)
Definition arenaRadius (e : GameEngine) (c : Circle) : num :=
  (PLAYFIELD_WIDTH e / of_Z 2 - size c / of_Z 2)%num.

Definition centreDistance (e : GameEngine) (c : Circle) : num :=
  let dx := (x c - canvas_width e / of_Z 2)%num in
  let dy := (y c - canvas_height e / of_Z 2)%num in
  nsqrt (dx * dx + dy * dy)%num.

(** The life of a particle that started with [l], after [k] calls of
    [updateParticles]: 1/60 taken off [k] times. *)
Definition fadeAfter (k : nat) (l : num) : num :=
  Nat.iter k (fun l => (l - of_Z 1 / of_Z 60)%num) l.

(** The particle is kept by each of the first [n] calls of
    [updateParticles]: after each its life is above zero. *)
Definition lasts (n : nat) (p : Particle) : bool :=
  forallb (fun k => (fadeAfter k (life p) >? of_Z 0)%num) (seq 1 n).

(** The component after a sequence of events, from the first render. *)
Definition play (events : list GameEvent)
  : BettingInterface * SimulationGame :=
  fold_left (fun ui ev => dispatch ev ui) events
            (initialBettingInterface, initialGame).

End FurtherVocabulary.

(** What holds of the component in real arithmetic, whatever happens:
    the bank is not negative, and is zero in the phase [broke] and
    there only; while a game plays, the wager is above zero, covered
    by the bank, and on a colour; in the phase [ended] there is a
    winner. *)
Definition soundGame (s : @SimulationGame Real.number) : Prop :=
  (0 <= bank (bettingState s))%R
  /\ (gamePhase s = broke <-> bank (bettingState s) = 0%R)
  /\ (gamePhase s = playing ->
        (0 < wager (bettingState s) <= bank (bettingState s))%R
        /\ exists color, predictedWinner (bettingState s) = Some color)
  /\ (gamePhase s = ended -> exists w, game_winner s = Some w).



(* ================================================================= *)
(** * Engines and circles of the further examples *)

Module RoundFixtures.
Import Float64.
#[local] Existing Instance Float64.number.
#[local] Set Warnings "-inexact-float".
Local Open Scope float_scope.

(** The engine made for a canvas of 30 by 30, with the small round
    arena: of diameter 7, narrower than a circle. *)
Definition narrow_round : GameEngine :=
  set_isRunning true (setArena circle small (newGameEngine 30 30)).

(** A circle at the centre (15, 15) of the canvas of [narrow_round]. *)
Definition at_centre : Circle :=
  mkCircle "red-0-1700000000000" 15 15 1 0 red 25.

(** The engines made for a canvas of 600 by 600, with the medium
    circle arena and with the medium hexagon arena, both 493 wide. *)
Definition disc_arena : GameEngine :=
  set_isRunning true (setArena circle medium (newGameEngine 600 600)).


(** A circle about 285 from the centre of that canvas. *)
Definition wanderer : Circle :=
  mkCircle "green-0-1700000000000" 520.3 480.7 2.5 1.5 green 25.

(** A particle with half a second of life. *)
Definition spark : Particle :=
  mkParticle "collision-1700000000000-0" 300 300 3 0 blue 3 0.5 0.5
             collision.

End RoundFixtures.

Module RealEngines.
Import Real RealFixtures.
#[local] Existing Instance Real.number.
Local Open Scope R_scope.

(** A runtime whose [Math.random()] always gives 0.5, with the cosine
    and the sine of the real numbers. *)
Definition halves : @Runtime Real.number := {|
  Math_random := fun _ => 5 / 10;
  Date_now := fun _ => 1700000000000;
  Math_cos := cos;
  Math_sin := sin;
  Math_PI := PI;
  Number_toString := fun _ => "1700000000000"%string
|}.

(** The engine made for a canvas of 600 by 600: the medium square
    arena, of 493 by 493. *)
Definition fresh : @GameEngine Real.number := newGameEngine 600 600.

End RealEngines.

Set Implicit Arguments.

(* ================================================================= *)
(** * The colour relation is a cycle *)

Lemma GameColor_eqb_eq (a b : GameColor) : GameColor_eqb a b = true <-> a = b.
Proof. destruct a, b; simpl; split; intro H; congruence. Qed.

Lemma GameColor_eqb_refl (a : GameColor) : GameColor_eqb a a = true.
Proof. now destruct a. Qed.

Lemma GameColor_eqb_neq (a b : GameColor) : GameColor_eqb a b = false <-> a <> b.
Proof. destruct a, b; simpl; split; intro H; congruence. Qed.

Section ColorRelation.
Context {NUM : Number}.

(** The battle of two circles of different colours, by [beats]. *)
Lemma resolveBattle_beats (c1 c2 : Circle) :
  resolveBattle c1 c2 =
    if beats (color c1) (color c2) then mkBattle (Some c1) (Some c2)
    else if beats (color c2) (color c1) then mkBattle (Some c2) (Some c1)
    else mkBattle None None.
Proof.
  unfold resolveBattle. destruct (color c1), (color c2); reflexivity.
Qed.

(** C2.  The dominance relation is a 3-cycle (blue beats red, red beats
    green, green beats blue): of two different colours exactly one
    beats the other, and no colour beats itself; [resolveBattle] of two
    circles of different colours names as winner the one whose colour
    beats the other's and as loser the other; and
    [getColorRelationship] is attraction exactly when the agent's
    colour beats the other's, repulsion exactly when the other's beats
    the agent's (and neutral exactly for equal colours). *)
Theorem color_relation_cycle :
  (beats blue red = true /\ beats red green = true /\ beats green blue = true)
  /\ (forall a b : GameColor, a <> b -> beats a b = negb (beats b a))
  /\ (forall a : GameColor, beats a a = false)
  /\ (forall c1 c2 : Circle, color c1 <> color c2 ->
        (beats (color c1) (color c2) = true ->
           resolveBattle c1 c2 = mkBattle (Some c1) (Some c2))
        /\ (beats (color c2) (color c1) = true ->
           resolveBattle c1 c2 = mkBattle (Some c2) (Some c1)))
  /\ (forall a b : GameColor,
        (getColorRelationship a b = attraction <-> beats a b = true)
        /\ (getColorRelationship a b = repulsion <-> beats b a = true)
        /\ (getColorRelationship a b = neutral <-> a = b)).
Proof.
  split; [repeat split|].
  split; [intros a b Hab; destruct a, b; simpl; congruence|].
  split; [intros a; now destruct a|].
  split.
  - intros c1 c2 Hne. rewrite resolveBattle_beats.
    destruct (color c1), (color c2); simpl; split; intro H; congruence.
  - intros a b; destruct a, b; simpl; repeat split; intro H; congruence.
Qed.

End ColorRelation.

(* ================================================================= *)
(** * What a method leaves alone *)

Section Frames.
Context {NUM : Number}.

Lemma keeps_ret {A B : Type} (f : GameEngine -> B) (a : A) : keeps f (ret a).
Proof. intros e; reflexivity. Qed.

Lemma keeps_read {A B : Type} (f : GameEngine -> B) (g : GameEngine -> A) :
  keeps f (read g).
Proof. intros e; reflexivity. Qed.

Lemma keeps_update {B : Type} (f : GameEngine -> B)
    (g : GameEngine -> GameEngine) :
  (forall e, f (g e) = f e) -> keeps f (update g).
Proof. intros H e; apply H. Qed.

Lemma keeps_bind {A A' B : Type} (f : GameEngine -> B) (m : Method A)
    (k : A -> Method A') :
  keeps f m -> (forall a, keeps f (k a)) -> keeps f (bind m k).
Proof.
  intros Hm Hk e. unfold bind. specialize (Hm e).
  destruct (m e) as [a e']. simpl in Hm. rewrite Hk. exact Hm.
Qed.

Lemma keeps_forEach {A B : Type} (f : GameEngine -> B) (l : list A)
    (body : A -> Method unit) :
  (forall a, keeps f (body a)) -> keeps f (forEach l body).
Proof.
  intros Hb. induction l as [|a l IH]; simpl.
  - apply keeps_ret.
  - apply keeps_bind; [apply Hb | intros _; exact IH].
Qed.

Lemma keeps_forEachWith {A B C : Type} (f : GameEngine -> B) (l : list A)
    (body : A -> C -> Method C) (c : C) :
  (forall a c', keeps f (body a c')) -> keeps f (forEachWith l body c).
Proof.
  intros Hb. revert c. induction l as [|a l IH]; intros c; simpl.
  - apply keeps_ret.
  - apply keeps_bind; [apply Hb | intros c'; apply IH].
Qed.

Lemma beside_effects_circles : beside_effects circles.
Proof. repeat split. Qed.

Lemma host_side_isRunning : host_side isRunning.
Proof. repeat split. Qed.

Lemma host_side_onGameEnd_calls : host_side onGameEnd_calls.
Proof. repeat split. Qed.

Lemma host_side_frame_requests : host_side frame_requests.
Proof. repeat split. Qed.

Lemma host_side_frame_handles : host_side frame_handles.
Proof. repeat split. Qed.

Lemma updateCircle_host {B : Type} (f : GameEngine -> B) (e : GameEngine)
    (i : nat) :
  host_side f -> f (updateCircle e i) = f e.
Proof.
  intros [Hc _]. unfold updateCircle.
  destruct (nth_error (circles e) i); [apply Hc | reflexivity].
Qed.

Lemma updateCircles_host {B : Type} (f : GameEngine -> B) (e : GameEngine) :
  host_side f -> f (updateCircles e) = f e.
Proof.
  intros H. unfold updateCircles.
  generalize (seq 0 (List.length (circles e))). intros l.
  revert e. induction l as [|i l IH]; intros e; simpl; [reflexivity|].
  rewrite IH. now apply updateCircle_host.
Qed.

Lemma updateParticles_host {B : Type} (f : GameEngine -> B) (e : GameEngine) :
  beside_effects f -> f (updateParticles e) = f e.
Proof. intros [Hp _]. apply Hp. Qed.

Context {RT : Runtime}.

Lemma random_host {B : Type} (f : GameEngine -> B) :
  beside_effects f -> keeps f random.
Proof. intros [_ Hr] e. apply Hr. Qed.

Lemma push_particle_host {B : Type} (f : GameEngine -> B) (p : Particle) :
  beside_effects f -> keeps f (push_particle p).
Proof. intros [Hp _] e. apply Hp. Qed.

Ltac keeps_step H :=
  first [ apply keeps_ret | apply keeps_read
        | apply (random_host H) | apply (push_particle_host _ H)
        | apply keeps_bind; [| intro] ].

Lemma createCollisionParticles_host {B : Type} (f : GameEngine -> B)
    (c1 c2 : Circle) :
  beside_effects f -> keeps f (createCollisionParticles c1 c2).
Proof.
  intros H. unfold createCollisionParticles. apply keeps_forEach. intros i.
  unfold now. repeat keeps_step H.
Qed.

Lemma createSplitParticles_host {B : Type} (f : GameEngine -> B) (c : Circle) :
  beside_effects f -> keeps f (createSplitParticles c).
Proof.
  intros H. unfold createSplitParticles. apply keeps_forEach. intros i.
  unfold now. repeat keeps_step H.
Qed.

Lemma createSplitCircle_host {B : Type} (f : GameEngine -> B) (c : Circle) :
  beside_effects f -> keeps f (createSplitCircle c).
Proof.
  intros H. unfold createSplitCircle, now. repeat keeps_step H.
Qed.

Lemma checkPair_host {B : Type} (f : GameEngine -> B) (i j : nat)
    (marks : Marks) :
  host_side f -> keeps f (checkPair i j marks).
Proof.
  intros H. pose proof (proj2 H) as H'.
  unfold checkPair. destruct marks as [toRemove toAdd].
  apply keeps_bind; [apply keeps_read|]. intros cs.
  destruct (nth_error cs i) as [c1|]; [|apply keeps_ret].
  destruct (nth_error cs j) as [c2|]; [|apply keeps_ret].
  destruct (has toRemove (id c1) || has toRemove (id c2)); [apply keeps_ret|].
  destruct (isColliding c1 c2); [|apply keeps_ret].
  destruct (negb (GameColor_eqb (color c1) (color c2))); [|apply keeps_ret].
  destruct (applyBounce c1 c2) as [c1' c2'].
  apply keeps_bind; [apply keeps_update; intros e; apply (proj1 H)|]. intros _.
  apply keeps_bind; [now apply createCollisionParticles_host|]. intros _.
  destruct (winner (resolveBattle c1' c2')) as [w|]; [|apply keeps_ret].
  destruct (loser (resolveBattle c1' c2')) as [l|]; [|apply keeps_ret].
  apply keeps_bind; [now apply createSplitParticles_host|]. intros _.
  apply keeps_bind; [now apply createSplitCircle_host|]. intros nc.
  apply keeps_ret.
Qed.

Lemma scanPairs_host {B : Type} (f : GameEngine -> B) (n : nat) :
  host_side f -> keeps f (scanPairs n).
Proof.
  intros H. unfold scanPairs. apply keeps_forEachWith. intros i m.
  apply keeps_forEachWith. intros j m'. now apply checkPair_host.
Qed.

Lemma checkCollisions_host {B : Type} (f : GameEngine -> B) :
  host_side f -> keeps f checkCollisions.
Proof.
  intros H. unfold checkCollisions.
  apply keeps_bind; [apply keeps_read|]. intros n.
  apply keeps_bind; [now apply scanPairs_host|]. intros [toRemove toAdd].
  apply keeps_update. intros e. apply (proj1 H).
Qed.

End Frames.

(* ================================================================= *)
(** * The win condition *)

Section WinCondition.
Context {NUM : Number}.

Lemma count_fold (cs : list Circle) (b r g : nat) :
  fold_left (fun counts c => increment (color c) counts) cs
            [(blue, b); (red, r); (green, g)]
  = [(blue, b + List.length (filter (fun c => GameColor_eqb (color c) blue) cs));
     (red, r + List.length (filter (fun c => GameColor_eqb (color c) red) cs));
     (green, g + List.length (filter (fun c => GameColor_eqb (color c) green) cs))]%nat.
Proof.
  revert b r g. induction cs as [|c cs IH]; intros b r g; simpl.
  - now rewrite !Nat.add_0_r.
  - destruct (color c); simpl; rewrite IH; simpl;
      repeat f_equal; lia.
Qed.

Lemma getColorCounts_liveCount (e : GameEngine) :
  getColorCounts e =
    [(blue, liveCount blue e); (red, liveCount red e);
     (green, liveCount green e)].
Proof. unfold getColorCounts. now rewrite count_fold. Qed.

(** What [checkWinCondition] does, by the three counts. *)
Lemma checkWinCondition_cases (e : GameEngine) :
  (exists k, soleSurvivor k e
     /\ checkWinCondition e
        = (tt, set_onGameEnd_calls (onGameEnd_calls e ++ [k])
                 (set_isRunning false e)))
  \/ ((forall k, ~ soleSurvivor k e) /\ checkWinCondition e = (tt, e)).
Proof.
  unfold checkWinCondition, bind, read, soleSurvivor.
  rewrite getColorCounts_liveCount. simpl.
  destruct (liveCount blue e) as [|b] eqn:Hb;
  destruct (liveCount red e) as [|r] eqn:Hr;
  destruct (liveCount green e) as [|g] eqn:Hg; simpl;
  first
    [ left; (exists blue + exists red + exists green);
      split; [|reflexivity];
      split; [rewrite ?Hb, ?Hr, ?Hg; lia
             | intros k' Hk; destruct k'; congruence]
    | right; split; [|reflexivity]; intros k [H1 H2];
      pose proof (H2 blue) as Pb; pose proof (H2 red) as Pr;
      pose proof (H2 green) as Pg;
      rewrite Hb in Pb; rewrite Hr in Pr; rewrite Hg in Pg;
      destruct k; rewrite ?Hb, ?Hr, ?Hg in H1;
      first [ lia
            | assert (blue <> red) as D by congruence;
              specialize (Pb D); discriminate
            | assert (red <> blue) as D by congruence;
              specialize (Pr D); discriminate
            | assert (green <> blue) as D by congruence;
              specialize (Pg D); discriminate
            | assert (blue <> green) as D by congruence;
              specialize (Pb D); discriminate
            | assert (red <> green) as D by congruence;
              specialize (Pr D); discriminate
            | assert (green <> red) as D by congruence;
              specialize (Pg D); discriminate ] ].
Qed.

End WinCondition.

Section FrameLoop.
Context {NUM : Number} {RT : Runtime}.

Lemma gameLoop_stopped (e : GameEngine) :
  isRunning e = false -> gameLoop e = (tt, e).
Proof. intros H. unfold gameLoop, bind, read. now rewrite H. Qed.

Lemma gameLoop_running (e : GameEngine) :
  isRunning e = true ->
  snd (gameLoop e) =
    let e1 := snd (checkWinCondition (beforeWinCheck e)) in
    let h := S (frame_handles e1) in
    set_animationId (Some h) (set_frames h (frame_requests e1 ++ [h]) e1).
Proof.
  intros H. unfold gameLoop, bind, read, update, beforeWinCheck. rewrite H.
  simpl. destruct (checkCollisions _) as [[] e3]. simpl.
  destruct (checkWinCondition e3) as [[] e4]. reflexivity.
Qed.

Lemma beforeWinCheck_host {B : Type} (f : GameEngine -> B) (e : GameEngine) :
  host_side f -> f (beforeWinCheck e) = f e.
Proof.
  intros H. unfold beforeWinCheck.
  rewrite (checkCollisions_host H), (updateParticles_host _ (proj2 H)).
  now apply updateCircles_host.
Qed.

(** One call of [gameLoop]: nothing happens when the engine is not
    running; otherwise either no call of [onGameEnd] is made, or one is
    and the engine is not running afterwards. *)
Lemma gameLoop_notifies (e : GameEngine) :
  onGameEnd_calls (snd (gameLoop e)) = onGameEnd_calls e
  \/ (isRunning (snd (gameLoop e)) = false
      /\ exists k, onGameEnd_calls (snd (gameLoop e)) = onGameEnd_calls e ++ [k]).
Proof.
  destruct (isRunning e) eqn:Hrun.
  - rewrite (gameLoop_running e Hrun). cbv zeta.
    destruct (checkWinCondition_cases (beforeWinCheck e))
      as [[k [_ Hk]] | [_ Hk]]; rewrite Hk; simpl.
    + right. split; [reflexivity|]. exists k.
      now rewrite (beforeWinCheck_host e host_side_onGameEnd_calls).
    + left. apply (beforeWinCheck_host e host_side_onGameEnd_calls).
  - left. now rewrite gameLoop_stopped.
Qed.

(** A stopped engine stays as it is, frame after frame, but for the
    frame requests the browser drops as it runs them. *)
Lemma runFrame_stopped (e : GameEngine) :
  isRunning e = false ->
  isRunning (runFrame e) = false
  /\ circles (runFrame e) = circles e
  /\ particles (runFrame e) = particles e
  /\ onGameEnd_calls (runFrame e) = onGameEnd_calls e.
Proof.
  intros H. unfold runFrame. destruct (frame_requests e) as [|h rest].
  - now rewrite H.
  - rewrite gameLoop_stopped by exact H. simpl. now rewrite H.
Qed.

Lemma frames_stopped (n : nat) (e : GameEngine) :
  isRunning e = false ->
  isRunning (Nat.iter n runFrame e) = false
  /\ circles (Nat.iter n runFrame e) = circles e
  /\ particles (Nat.iter n runFrame e) = particles e
  /\ onGameEnd_calls (Nat.iter n runFrame e) = onGameEnd_calls e.
Proof.
  intros H. induction n as [|n IH]; simpl; [now rewrite H|].
  destruct IH as [I1 [I2 [I3 I4]]].
  destruct (runFrame_stopped _ I1) as [J1 [J2 [J3 J4]]].
  repeat split; congruence.
Qed.

Lemma runFrame_notifies (e : GameEngine) :
  onGameEnd_calls (runFrame e) = onGameEnd_calls e
  \/ (isRunning (runFrame e) = false
      /\ exists k, onGameEnd_calls (runFrame e) = onGameEnd_calls e ++ [k]).
Proof.
  unfold runFrame. destruct (frame_requests e) as [|h rest]; [now left|].
  apply (gameLoop_notifies (set_frames (frame_handles e) rest e)).
Qed.

(** Over any number of frames, at most one call of [onGameEnd]. *)
Lemma frames_notify_once (n : nat) (e : GameEngine) :
  exists calls,
    onGameEnd_calls (Nat.iter n runFrame e) = onGameEnd_calls e ++ calls
    /\ (List.length calls <= 1)%nat
    /\ (calls <> [] -> isRunning (Nat.iter n runFrame e) = false).
Proof.
  induction n as [|n IH]; simpl.
  - exists []. rewrite app_nil_r. repeat split; [simpl; lia | congruence].
  - destruct IH as [calls [Hc [Hl Hs]]].
    destruct calls as [|k calls].
    + destruct (runFrame_notifies (Nat.iter n runFrame e)) as [H | [H1 [k H2]]].
      * exists []. rewrite H, Hc. repeat split; [simpl; lia | congruence].
      * exists [k]. rewrite H2, Hc, app_nil_r.
        repeat split; [simpl; lia | intros _; exact H1].
    + assert (isRunning (Nat.iter n runFrame e) = false) as Hst
        by (apply Hs; discriminate).
      destruct (runFrame_stopped _ Hst) as [J1 [_ [_ J4]]].
      exists (k :: calls). rewrite J4. repeat split; auto.
Qed.

(** C3.  In a frame of a running engine, [onGameEnd] is called with
    the colour [k] if and only if exactly [k] has a non-zero count of
    live circles when [checkWinCondition] runs; the engine is then not
    running and further frames change neither circles nor particles nor
    make another call; when no colour is the only one left, and so
    when no colour at all is left, no call is made; and from any state
    and over any number of frames, started by a call of [gameLoop], at
    most one call is made. *)
Theorem win_reported_once (e : GameEngine) :
  (forall k,
      onGameEnd_calls (snd (checkWinCondition e)) = onGameEnd_calls e ++ [k]
      <-> soleSurvivor k e)
  /\ (isRunning e = true -> forall k,
      onGameEnd_calls (snd (gameLoop e)) = onGameEnd_calls e ++ [k]
      <-> soleSurvivor k (beforeWinCheck e))
  /\ (forall k, soleSurvivor k e ->
      let e' := snd (checkWinCondition e) in
      isRunning e' = false
      /\ forall n,
           circles (Nat.iter n runFrame e') = circles e'
           /\ particles (Nat.iter n runFrame e') = particles e'
           /\ onGameEnd_calls (Nat.iter n runFrame e') = onGameEnd_calls e')
  /\ ((forall k, ~ soleSurvivor k e) -> checkWinCondition e = (tt, e))
  /\ ((forall k, liveCount k e = O) -> checkWinCondition e = (tt, e))
  /\ (forall n, exists calls,
        onGameEnd_calls (Nat.iter n runFrame (snd (gameLoop e)))
          = onGameEnd_calls e ++ calls
        /\ (List.length calls <= 1)%nat).
Proof.
  assert (forall (e0 : GameEngine) k,
      onGameEnd_calls (snd (checkWinCondition e0)) = onGameEnd_calls e0 ++ [k]
      <-> soleSurvivor k e0) as Hiff.
  { intros e0 k.
    destruct (checkWinCondition_cases e0) as [[k0 [Hs Hk]] | [Hn Hk]];
      rewrite Hk; simpl.
    - split.
      + intros H. apply app_inv_head in H. inversion H; subst. exact Hs.
      + intros [Hk1 Hk2]. destruct Hs as [Hs1 Hs2].
        destruct (GameColor_eqb k0 k) eqn:E.
        * apply GameColor_eqb_eq in E. now subst.
        * apply GameColor_eqb_neq in E. apply Hk2 in E. lia.
    - split.
      + intros H. apply (f_equal (@List.length _)) in H.
        rewrite length_app in H. simpl in H. lia.
      + intros H. now apply Hn in H. }
  split; [apply Hiff|].
  split.
  { intros Hrun k. rewrite (gameLoop_running e Hrun). cbv zeta. simpl.
    rewrite <- (beforeWinCheck_host e host_side_onGameEnd_calls).
    apply Hiff. }
  split.
  { intros k Hs e'.
    assert (isRunning e' = false) as Hst.
    { subst e'. destruct (checkWinCondition_cases e) as [[k0 [_ Hk]] | [Hn _]].
      - now rewrite Hk.
      - now apply Hn in Hs. }
    split; [exact Hst|]. intros n.
    destruct (frames_stopped n e' Hst) as [_ [H2 [H3 H4]]]. auto. }
  split.
  { intros Hn. destruct (checkWinCondition_cases e) as [[k0 [Hs _]] | [_ Hk]].
    - now apply Hn in Hs.
    - exact Hk. }
  split.
  { intros Hz. destruct (checkWinCondition_cases e) as [[k0 [[Hs _] _]] | [_ Hk]].
    - rewrite Hz in Hs. lia.
    - exact Hk. }
  intros n.
  destruct (gameLoop_notifies e) as [H | [H1 [k H2]]].
  - destruct (frames_notify_once n (snd (gameLoop e))) as [calls [Hc [Hl _]]].
    exists calls. now rewrite Hc, H.
  - destruct (frames_stopped n _ H1) as [_ [_ [_ H4]]].
    exists [k]. rewrite H4, H2. split; [reflexivity | simpl; lia].
Qed.

End FrameLoop.

(* ================================================================= *)
(** * Circles of one colour *)

Section SameColor.
Context {NUM : Number} {RT : Runtime}.

Lemma magneticForce_same_color (c o : Circle) (total : num * num) :
  color c = color o -> magneticForce c total o = total.
Proof.
  intros H. unfold magneticForce. destruct total as [tx ty].
  rewrite H, GameColor_eqb_refl, orb_true_r. reflexivity.
Qed.

Lemma checkPair_same_color (e : GameEngine) (i j : nat) (marks : Marks)
    (c1 c2 : Circle) :
  nth_error (circles e) i = Some c1 ->
  nth_error (circles e) j = Some c2 ->
  color c1 = color c2 ->
  checkPair i j marks e = (marks, e).
Proof.
  intros H1 H2 Hc. unfold checkPair, bind, read. destruct marks as [tr ta].
  rewrite H1, H2.
  destruct (has tr (id c1) || has tr (id c2)); [reflexivity|].
  destruct (isColliding c1 c2); [|reflexivity].
  now rewrite Hc, GameColor_eqb_refl.
Qed.

(** C6.  A circle [o] of the colour of [c] adds nothing to the force
    accumulated on [c], so [applyMagneticForces] gives [c] the same
    velocity (and state) with [o] among the circles as without it; and
    the collision check of two circles of one colour changes neither
    the engine, and so no velocity, nor the circles marked for removal
    or queued for addition.  Neither statement depends on the
    positions of the two circles. *)
Theorem same_color_never_interacts :
  (forall (c o : Circle) (total : num * num),
      color c = color o -> magneticForce c total o = total)
  /\ (forall (c o : Circle) (before after : list Circle),
      color c = color o ->
      applyMagneticForces (before ++ o :: after) c
      = applyMagneticForces (before ++ after) c)
  /\ (forall (e : GameEngine) (i j : nat) (marks : Marks) (c1 c2 : Circle),
      nth_error (circles e) i = Some c1 ->
      nth_error (circles e) j = Some c2 ->
      color c1 = color c2 ->
      checkPair i j marks e = (marks, e)).
Proof.
  split; [exact magneticForce_same_color|].
  split; [|exact checkPair_same_color].
  intros c o before after H. unfold applyMagneticForces.
  rewrite !fold_left_app. simpl.
  now rewrite magneticForce_same_color by exact H.
Qed.

End SameColor.

(* ================================================================= *)
(** * The collision scan *)

Section ListSet.
Context {A : Type}.

Lemma length_list_set (i : nat) (a : A) (l : list A) :
  List.length (list_set i a l) = List.length l.
Proof.
  revert i. induction l as [|b l IH]; intros [|i]; simpl; auto.
Qed.

Lemma map_list_set {B : Type} (f : A -> B) (i : nat) (a b : A) (l : list A) :
  nth_error l i = Some b -> f a = f b -> map f (list_set i a l) = map f l.
Proof.
  revert i. induction l as [|c l IH]; intros [|i] Hn Hf; simpl in *;
    try discriminate.
  - inversion Hn; subst. now rewrite Hf.
  - f_equal. now apply IH.
Qed.

Lemma nth_error_list_set_eq (i : nat) (a b : A) (l : list A) :
  nth_error l i = Some b -> nth_error (list_set i a l) i = Some a.
Proof.
  revert i. induction l as [|c l IH]; intros [|i] Hn; simpl in *;
    try discriminate; auto.
Qed.

Lemma nth_error_list_set_neq (i j : nat) (a : A) (l : list A) :
  i <> j -> nth_error (list_set i a l) j = nth_error l j.
Proof.
  revert i j. induction l as [|c l IH]; intros [|i] [|j] Hn; simpl;
    try reflexivity; try congruence.
  apply IH. congruence.
Qed.

End ListSet.

Unset Implicit Arguments.

Section Scan.
Context {NUM : Number} {RT : Runtime}.

Lemma applyBounce_keeps (c1 c2 : Circle) :
  id (fst (applyBounce c1 c2)) = id c1
  /\ color (fst (applyBounce c1 c2)) = color c1
  /\ size (fst (applyBounce c1 c2)) = size c1
  /\ id (snd (applyBounce c1 c2)) = id c2
  /\ color (snd (applyBounce c1 c2)) = color c2
  /\ size (snd (applyBounce c1 c2)) = size c2.
Proof.
  unfold applyBounce.
  repeat match goal with
         | |- context [if ?b then _ else _] => destruct b
         end; cbn; repeat split.
Qed.

(** [checkPair] when it comes to a battle: two circles not marked, in
    collision, of different colours. *)
Lemma checkPair_battle (e : GameEngine) (i j : nat) (toRemove : set string)
    (toAdd : list Circle) (c1 c2 : Circle) :
  nth_error (circles e) i = Some c1 ->
  nth_error (circles e) j = Some c2 ->
  has toRemove (id c1) = false ->
  has toRemove (id c2) = false ->
  isColliding c1 c2 = true ->
  color c1 <> color c2 ->
  let c1' := fst (applyBounce c1 c2) in
  let c2' := snd (applyBounce c1 c2) in
  let w := fst (battleOf c1' c2') in
  let l := snd (battleOf c1' c2') in
  let e' := afterBattle i j c1' c2' e in
  checkPair i j (toRemove, toAdd) e
  = ((add toRemove (id l), toAdd ++ [splitOf w e']),
     snd (createSplitCircle w e')).
Proof.
  intros H1 H2 M1 M2 Hcol Hne c1' c2' w l e'.
  unfold checkPair, bind, read. rewrite H1, H2, M1, M2, Hcol.
  apply GameColor_eqb_neq in Hne. rewrite Hne.
  cbn [orb negb].
  subst e' w l. unfold afterBattle, battleOf, splitOf. subst c1' c2'.
  destruct (applyBounce_keeps c1 c2) as [_ [K1 [_ [_ [K2 _]]]]].
  destruct (applyBounce c1 c2) as [d1 d2]. cbn [fst snd] in *. unfold update.
  destruct (createCollisionParticles d1 d2 _) as [[] e2]. cbn [fst snd].
  rewrite resolveBattle_beats. rewrite K1, K2.
  apply GameColor_eqb_neq in Hne.
  destruct (beats (color c1) (color c2)) eqn:B1; cbn [winner loser fst snd].
  - destruct (createSplitParticles d1 e2) as [[] e3]. cbn [fst snd].
    now destruct (createSplitCircle d1 e3).
  - assert (beats (color c2) (color c1) = true) as B2.
    { destruct (color c1), (color c2); cbn in *; congruence. }
    rewrite B2. cbn [winner loser fst snd].
    destruct (createSplitParticles d2 e2) as [[] e3]. cbn [fst snd].
    now destruct (createSplitCircle d2 e3).
Qed.

(** [checkPair] otherwise: nothing changes. *)
Lemma checkPair_skip (e : GameEngine) (i j : nat) (marks : Marks) :
  (forall c1 c2,
      nth_error (circles e) i = Some c1 ->
      nth_error (circles e) j = Some c2 ->
      has (fst marks) (id c1) = false ->
      has (fst marks) (id c2) = false ->
      isColliding c1 c2 = true ->
      color c1 <> color c2 -> False) ->
  checkPair i j marks e = (marks, e).
Proof.
  intros H. unfold checkPair, bind, read. destruct marks as [tr ta].
  cbn in *.
  destruct (nth_error (circles e) i) as [c1|]; [|reflexivity].
  destruct (nth_error (circles e) j) as [c2|]; [|reflexivity].
  destruct (has tr (id c1)) eqn:M1; [reflexivity|].
  destruct (has tr (id c2)) eqn:M2; [reflexivity|]. cbn.
  destruct (isColliding c1 c2) eqn:Hc; [|reflexivity].
  destruct (GameColor_eqb (color c1) (color c2)) eqn:E; [reflexivity|].
  exfalso. apply GameColor_eqb_neq in E. eauto.
Qed.

Lemma createSplitCircle_circles (w : Circle) (e : GameEngine) :
  circles (snd (createSplitCircle w e)) = circles e.
Proof. apply (createSplitCircle_host w beside_effects_circles). Qed.

Lemma afterBattle_circles (i j : nat) (c1' c2' : Circle) (e : GameEngine) :
  circles (afterBattle i j c1' c2' e)
  = list_set j c2' (list_set i c1' (circles e)).
Proof.
  unfold afterBattle. cbv zeta.
  rewrite (createSplitParticles_host _ beside_effects_circles).
  now rewrite (createCollisionParticles_host _ _ beside_effects_circles).
Qed.

(** The split circle has the winner's colour and the standard size. *)
Lemma splitOf_color (w : Circle) (e : GameEngine) :
  color (splitOf w e) = color w /\ size (splitOf w e) = CIRCLE_SIZE.
Proof. split; reflexivity. Qed.

End Scan.

Section ScanInvariant.
Context {NUM : Number} {RT : Runtime}.

Lemma add_length_new (a : string) (s : set string) :
  ~ In a s ->
  List.length (add s a) = S (List.length s).
Proof.
  unfold add. induction s as [|b s IH]; intros Hn; cbn; [reflexivity|].
  destruct (string_dec a b) as [->|Hab].
  - exfalso. apply Hn. now left.
  - cbn. rewrite IH; [reflexivity|]. intros H. apply Hn. now right.
Qed.

Lemma add_nodup (a : string) (s : set string) : NoDup s -> NoDup (add s a).
Proof. apply set_add_nodup. Qed.

Lemma add_iff (a b : string) (s : set string) :
  In a (add s b) <-> a = b \/ In a s.
Proof. apply set_add_iff. Qed.

Lemma has_false (s : set string) (a : string) : has s a = false -> ~ In a s.
Proof. unfold has. apply set_mem_complete1. Qed.

Lemma has_true (s : set string) (a : string) : has s a = true <-> In a s.
Proof.
  unfold has. split; [apply set_mem_correct1 | apply set_mem_correct2].
Qed.

Lemma battle_indices_differ (e : GameEngine) (i j : nat) (c1 c2 : Circle) :
  nth_error (circles e) i = Some c1 ->
  nth_error (circles e) j = Some c2 ->
  color c1 <> color c2 -> i <> j.
Proof. intros H1 H2 Hc ->. congruence. Qed.

(** The ids of the circles after a battle. *)
Lemma afterBattle_ids (e : GameEngine) (i j : nat) (c1 c2 : Circle) :
  nth_error (circles e) i = Some c1 ->
  nth_error (circles e) j = Some c2 ->
  i <> j ->
  map id (list_set j (snd (applyBounce c1 c2))
            (list_set i (fst (applyBounce c1 c2)) (circles e)))
  = map id (circles e).
Proof.
  intros H1 H2 Hij.
  destruct (applyBounce_keeps c1 c2) as [K1 [_ [_ [K2 _]]]].
  rewrite (map_list_set id j _ (b := c2)); [| |exact K2].
  - now apply (map_list_set id i _ (b := c1)).
  - now rewrite nth_error_list_set_neq.
Qed.

Lemma battleOf_loser (c1' c2' : Circle) :
  snd (battleOf c1' c2') = c1' \/ snd (battleOf c1' c2') = c2'.
Proof. unfold battleOf. destruct (beats _ _); cbn; auto. Qed.

Lemma battleOf_winner (c1' c2' : Circle) :
  fst (battleOf c1' c2') = c1' \/ fst (battleOf c1' c2') = c2'.
Proof. unfold battleOf. destruct (beats _ _); cbn; auto. Qed.

Lemma checkPair_inv (ids : list string) (i j : nat) (marks : Marks)
    (e : GameEngine) :
  scanInv ids marks e ->
  scanInv ids (fst (checkPair i j marks e)) (snd (checkPair i j marks e)).
Proof.
  intros Inv.
  destruct (nth_error (circles e) i) as [c1|] eqn:H1;
    [|rewrite checkPair_skip; [exact Inv | intros; congruence]].
  destruct (nth_error (circles e) j) as [c2|] eqn:H2;
    [|rewrite checkPair_skip; [exact Inv | intros; congruence]].
  destruct (has (fst marks) (id c1)) eqn:M1;
    [rewrite checkPair_skip; [exact Inv | intros; congruence]|].
  destruct (has (fst marks) (id c2)) eqn:M2;
    [rewrite checkPair_skip; [exact Inv | intros; congruence]|].
  destruct (isColliding c1 c2) eqn:Hc;
    [|rewrite checkPair_skip; [exact Inv | intros; congruence]].
  destruct (GameColor_eqb (color c1) (color c2)) eqn:E;
    [rewrite checkPair_skip; [exact Inv|];
     apply GameColor_eqb_eq in E; intros; congruence|].
  apply GameColor_eqb_neq in E. destruct marks as [tr ta]. cbn in *.
  rewrite (checkPair_battle e i j tr ta c1 c2 H1 H2 M1 M2 Hc E). cbn.
  destruct Inv as [I1 [I2 [I3 I4]]]. cbn in *.
  pose proof (battle_indices_differ e i j c1 c2 H1 H2 E) as Hij.
  destruct (applyBounce_keeps c1 c2) as [K1 [_ [_ [K2 _]]]].
  assert (id (snd (battleOf (fst (applyBounce c1 c2)) (snd (applyBounce c1 c2))))
          = id c1
          \/ id (snd (battleOf (fst (applyBounce c1 c2)) (snd (applyBounce c1 c2))))
          = id c2) as Hl.
  { destruct (battleOf_loser (fst (applyBounce c1 c2)) (snd (applyBounce c1 c2)))
      as [-> | ->]; auto. }
  repeat split; cbn.
  - rewrite createSplitCircle_circles, afterBattle_circles.
    rewrite afterBattle_ids by assumption. exact I1.
  - now apply add_nodup.
  - intros a Ha. apply add_iff in Ha. destruct Ha as [-> | Ha]; [|auto].
    rewrite <- I1.
    destruct Hl as [-> | ->]; apply in_map; eapply nth_error_In; eassumption.
  - rewrite length_app, add_length_new; [cbn; lia|].
    destruct Hl as [-> | ->]; now apply has_false.
Qed.

Lemma forEachWith_inv {A C : Type} (P : C -> GameEngine -> Prop)
    (l : list A) (body : A -> C -> Method C) :
  (forall a c e, P c e -> P (fst (body a c e)) (snd (body a c e))) ->
  forall c e, P c e ->
    P (fst (forEachWith l body c e)) (snd (forEachWith l body c e)).
Proof.
  intros Hb. induction l as [|a l IH]; intros c e Hp; cbn; [exact Hp|].
  unfold bind. specialize (Hb a c e Hp).
  destruct (body a c e) as [c' e']. cbn in Hb. now apply IH.
Qed.

Lemma scanPairs_inv (n : nat) (e : GameEngine) :
  scanInv (map id (circles e)) (fst (scanPairs n e)) (snd (scanPairs n e)).
Proof.
  unfold scanPairs. apply forEachWith_inv.
  - intros i c e' Hp. apply forEachWith_inv; [|exact Hp].
    intros j c' e'' Hp'. now apply checkPair_inv.
  - repeat split; cbn; [constructor | intros a []].
Qed.


Lemma checkCollisions_circles (e : GameEngine) :
  let scan := scanPairs (List.length (circles e)) e in
  circles (snd (checkCollisions e))
  = filter (fun c => negb (has (fst (fst scan)) (id c))) (circles (snd scan))
    ++ snd (fst scan).
Proof.
  unfold checkCollisions, bind, read, update. cbn.
  destruct (scanPairs _ e) as [[tr ta] e']. reflexivity.
Qed.

End ScanInvariant.

Section Battles.
Context {NUM : Number} {RT : Runtime}.

(** The winner's colour beats the loser's, and the two are the two
    bounced circles. *)
Lemma battleOf_beats (c1' c2' : Circle) :
  color c1' <> color c2' ->
  beats (color (fst (battleOf c1' c2'))) (color (snd (battleOf c1' c2')))
  = true
  /\ ((fst (battleOf c1' c2') = c1' /\ snd (battleOf c1' c2') = c2')
      \/ (fst (battleOf c1' c2') = c2' /\ snd (battleOf c1' c2') = c1')).
Proof.
  intros Hne. unfold battleOf.
  destruct (beats (color c1') (color c2')) eqn:B; cbn.
  - split; [exact B | now left].
  - split; [|now right].
    destruct (color c1'), (color c2'); cbn in *; congruence.
Qed.




End Battles.

Section Winner.
Context {NUM : Number} {RT : Runtime}.

(** One battle of the scan.  It marks exactly one loser and queues
    exactly one new circle, of the winner's colour and of the standard
    size.  The winner and the loser are in [this.circles] after it,
    each with the id, colour and size it had, and with the position
    and velocity [applyBounce] gave it: the bounce runs on both circles
    before the battle is decided. *)
Lemma battle_step (e : GameEngine) (i j : nat)
    (toRemove : set string) (toAdd : list Circle) (c1 c2 : Circle) :
  nth_error (circles e) i = Some c1 ->
  nth_error (circles e) j = Some c2 ->
  has toRemove (id c1) = false ->
  has toRemove (id c2) = false ->
  isColliding c1 c2 = true ->
  color c1 <> color c2 ->
  let r := checkPair i j (toRemove, toAdd) e in
  exists (iw il : nat) (w0 l0 w l new : Circle),
    ((iw = i /\ il = j /\ w0 = c1 /\ l0 = c2
      /\ w = fst (applyBounce c1 c2) /\ l = snd (applyBounce c1 c2))
     \/ (iw = j /\ il = i /\ w0 = c2 /\ l0 = c1
         /\ w = snd (applyBounce c1 c2) /\ l = fst (applyBounce c1 c2)))
    /\ beats (color w0) (color l0) = true
    /\ fst r = (add toRemove (id l0), toAdd ++ [new])
    /\ ~ In (id l0) toRemove
    /\ List.length (add toRemove (id l0))
       = S (List.length toRemove)
    /\ nth_error (circles (snd r)) iw = Some w
    /\ nth_error (circles (snd r)) il = Some l
    /\ List.length (circles (snd r)) = List.length (circles e)
    /\ (id w = id w0 /\ color w = color w0 /\ size w = size w0)
    /\ (id l = id l0 /\ color l = color l0 /\ size l = size l0)
    /\ color new = color w0
    /\ size new = CIRCLE_SIZE.
Proof.
  intros H1 H2 M1 M2 Hc Hne r.
  pose proof (checkPair_battle e i j toRemove toAdd c1 c2 H1 H2 M1 M2 Hc Hne) as Hr.
  cbv zeta in Hr. fold r in Hr.
  pose proof (battle_indices_differ e i j c1 c2 H1 H2 Hne) as Hij.
  destruct (applyBounce_keeps c1 c2) as [K1 [K2 [K3 [K4 [K5 K6]]]]].
  set (c1' := fst (applyBounce c1 c2)) in *.
  set (c2' := snd (applyBounce c1 c2)) in *.
  assert (color c1' <> color c2') as Hne' by congruence.
  destruct (battleOf_beats c1' c2' Hne') as [B Hwl].
  assert (circles (snd r) = list_set j c2' (list_set i c1' (circles e))) as Hcs.
  { rewrite Hr. cbn. now rewrite createSplitCircle_circles, afterBattle_circles. }
  assert (nth_error (circles (snd r)) i = Some c1') as N1.
  { rewrite Hcs, nth_error_list_set_neq by congruence.
    now apply nth_error_list_set_eq with (b := c1). }
  assert (nth_error (circles (snd r)) j = Some c2') as N2.
  { rewrite Hcs. apply nth_error_list_set_eq with (b := c2).
    now rewrite nth_error_list_set_neq. }
  assert (List.length (circles (snd r)) = List.length (circles e)) as Hlen.
  { now rewrite Hcs, !length_list_set. }
  destruct Hwl as [[Ew El] | [Ew El]].
  - exists i, j, c1, c2, c1', c2'. eexists.
    rewrite Ew, El in B. rewrite Hr. cbn. rewrite Ew, El, K4.
    split; [left; repeat split|].
    split; [congruence|]. split; [reflexivity|].
    split; [now apply has_false|].
    split; [apply add_length_new; now apply has_false|].
    rewrite Hr in N1, N2, Hlen. cbn in N1, N2, Hlen.
    repeat split; auto.
  - exists j, i, c2, c1, c2', c1'. eexists.
    rewrite Ew, El in B. rewrite Hr. cbn. rewrite Ew, El, K1.
    split; [right; repeat split|].
    split; [congruence|]. split; [reflexivity|].
    split; [now apply has_false|].
    split; [apply add_length_new; now apply has_false|].
    rewrite Hr in N1, N2, Hlen. cbn in N1, N2, Hlen.
    repeat split; auto.
Qed.

End Winner.

(* ================================================================= *)
(** * The order of the updates within a frame *)

Section UpdateOrder.
Context {NUM : Number}.

Lemma list_set_middle {A : Type} (done rest : list A) (a b : A) :
  list_set (List.length done) b (done ++ a :: rest) = done ++ b :: rest.
Proof. induction done as [|d done IH]; simpl; [reflexivity | now rewrite IH]. Qed.

Lemma nth_error_middle {A : Type} (done rest : list A) (a : A) :
  nth_error (done ++ a :: rest) (List.length done) = Some a.
Proof. induction done as [|d done IH]; simpl; auto. Qed.

Lemma updateCircle_next (e0 : GameEngine) (done rest : list Circle)
    (c : Circle) :
  updateCircle (set_circles (done ++ c :: rest) e0) (List.length done)
  = set_circles (done ++ moveCircle e0 (done ++ c :: rest) c :: rest) e0.
Proof.
  unfold updateCircle. simpl circles. rewrite nth_error_middle.
  rewrite list_set_middle. reflexivity.
Qed.

(** The sweep of [updateCircles] over the circles [rest] not yet
    moved, after the circles [done]. *)
Lemma updateCircles_sweep (e0 : GameEngine) (rest done : list Circle) :
  exists rest',
    fold_left updateCircle (seq (List.length done) (List.length rest))
              (set_circles (done ++ rest) e0)
    = set_circles (done ++ rest') e0
    /\ List.length rest' = List.length rest
    /\ forall i c, nth_error rest i = Some c ->
         nth_error rest' i
         = Some (moveCircle e0 (done ++ firstn i rest' ++ skipn i rest) c).
Proof.
  revert done. induction rest as [|c rest IH]; intros done.
  - exists []. simpl. repeat split. intros [|i] c H; discriminate.
  - simpl seq. simpl fold_left. rewrite updateCircle_next.
    set (c' := moveCircle e0 (done ++ c :: rest) c).
    destruct (IH (done ++ [c'])) as [rest' [Hf [Hl Hp]]].
    rewrite length_app in Hf. simpl in Hf. rewrite Nat.add_1_r in Hf.
    rewrite <- !app_assoc in Hf. simpl in Hf.
    exists (c' :: rest'). split; [exact Hf|]. split; [simpl; now rewrite Hl|].
    intros [|i] d Hd; simpl in *.
    + inversion Hd; subst. reflexivity.
    + rewrite (Hp i d Hd). now rewrite <- app_assoc.
Qed.

Lemma set_circles_same (e : GameEngine) : set_circles (circles e) e = e.
Proof. now destruct e. Qed.

(** The circle at index [i] after [updateCircles]: moved, with the
    force field reading the moved circles before it and the circles
    from it on as they were. *)
Lemma updateCircles_pointwise (e : GameEngine) :
  List.length (circles (updateCircles e)) = List.length (circles e)
  /\ forall i c, nth_error (circles e) i = Some c ->
       nth_error (circles (updateCircles e)) i
       = Some (moveCircle e
                 (firstn i (circles (updateCircles e)) ++ skipn i (circles e))
                 c).
Proof.
  unfold updateCircles.
  destruct (updateCircles_sweep e (circles e) []) as [rest' [Hf [Hl Hp]]].
  simpl in Hf. rewrite set_circles_same in Hf. rewrite Hf. simpl.
  split; [exact Hl | exact Hp].
Qed.

End UpdateOrder.

Section FrameOrder.
Context {NUM : Number} {RT : Runtime}.

(** C5 (as amended).  In a frame of a running engine the steps run in
    the order: [updateCircles], [updateParticles], [checkCollisions],
    [checkWinCondition], and the request of the next frame; so the
    collisions are detected on the circles as [updateCircles] left
    them, each after its boundary handling.  Within [updateCircles]
    the circles are taken one at a time, in the order of the list, and
    force field, integration and boundary handling are applied to one
    circle before the next is taken: the force on the circle at index
    [i] reads the circles before it as already moved and bounded, and
    the circles from it on as the frame found them. *)
Theorem frame_steps_in_order (e : GameEngine) :
  (isRunning e = true ->
     snd (gameLoop e)
     = let e1 := updateCircles e in
       let e2 := updateParticles e1 in
       let e3 := snd (checkCollisions e2) in
       let e4 := snd (checkWinCondition e3) in
       let h := S (frame_handles e4) in
       set_animationId (Some h) (set_frames h (frame_requests e4 ++ [h]) e4))
  /\ List.length (circles (updateCircles e)) = List.length (circles e)
  /\ (forall i c, nth_error (circles e) i = Some c ->
       nth_error (circles (updateCircles e)) i
       = Some (handleArenaBoundaries e
                 (let c' :=
                    applyMagneticForces
                      (firstn i (circles (updateCircles e))
                       ++ skipn i (circles e)) c in
                  set_position (x c' + vx c') (y c' + vy c')%num c'))).
Proof.
  split; [intros H; now rewrite (gameLoop_running e H)|].
  apply updateCircles_pointwise.
Qed.

End FrameOrder.

(* ================================================================= *)
(** * The laws hold of both arithmetics *)

(** ** The real numbers *)

Module RealLaws.
Import Real.

Lemma Rleb_true (a b : R) : Rleb a b = true <-> (a <= b)%R.
Proof. unfold Rleb. destruct (Rle_dec a b); split; intros; congruence. Qed.

Lemma Rleb_false (a b : R) : Rleb a b = false <-> (b < a)%R.
Proof.
  unfold Rleb. destruct (Rle_dec a b); split; intros; try congruence; lra.
Qed.

Lemma Rltb_true (a b : R) : Rltb a b = true <-> (a < b)%R.
Proof. unfold Rltb. destruct (Rlt_dec a b); split; intros; congruence. Qed.

Lemma Rltb_false (a b : R) : Rltb a b = false <-> (b <= a)%R.
Proof.
  unfold Rltb. destruct (Rlt_dec a b); split; intros; try congruence; lra.
Qed.

Lemma Reqb_true (a b : R) : Reqb a b = true <-> a = b.
Proof. unfold Reqb. destruct (Req_dec_T a b); split; intros; congruence. Qed.

Lemma Reqb_false (a b : R) : Reqb a b = false <-> a <> b.
Proof. unfold Reqb. destruct (Req_dec_T a b); split; intros; congruence. Qed.

#[export, refine] Instance laws : NumberLaws Real.number := {|
  proper := fun _ => True;
  finite := fun _ => True
|}.
Proof.
  - intros a b _. split; exact I.
  - intros a _. apply Rleb_true. simpl. lra.
  - intros a b _ _ H. apply Rleb_false in H. apply Rleb_true. lra.
  - intros a b c H1 H2. apply Rleb_true in H1, H2. apply Rleb_true. lra.
  - intros a b H1 H2. apply Rleb_true in H1, H2. apply Reqb_true. lra.
  - intros a b _ _. simpl. destruct (Rle_dec a b) as [H | H].
    + left. split; [now apply Rleb_true | now apply Rmax_right].
    + right. split; [apply Rleb_true; lra | apply Rmax_left; lra].
  - intros a b _ _. simpl. destruct (Rle_dec a b) as [H | H].
    + left. split; [now apply Rleb_true | now apply Rmin_left].
    + right. split; [apply Rleb_true; lra | apply Rmin_right; lra].
  - intros a _. exact I.
  - intros a b _ _ H. apply Rltb_false in H. now apply Rleb_true.
  - intros; exact I.
  - intros; split; exact I.
  - intros a _. simpl. lra.
  - simpl. lra.
  - simpl. lra.
  - simpl. apply sqrt_0.
  - simpl. now apply Reqb_true.
Defined.

End RealLaws.

(** ** Binary64 *)

Module Float64Laws.
Import Float64 Float64Spec.

Lemma SFcompare_refl (a : spec_float) :
  a <> S754_nan -> SFcompare a a = Some Eq.
Proof.
  destruct a as [s| s | | s m e]; simpl; intros H; try congruence.
  - now destruct s.
  - destruct s; rewrite Z.compare_refl, Pos.compare_cont_refl; reflexivity.
Qed.

Lemma SFcompare_antisym (a b : spec_float) :
  SFcompare b a = option_map CompOpp (SFcompare a b).
Proof.
  destruct a as [s| s | | s m e], b as [s'| s' | | s' m' e']; simpl;
    try reflexivity; try (destruct s; reflexivity);
    try (destruct s'; reflexivity);
    try (destruct s, s'; reflexivity).
  destruct s, s'; simpl; try reflexivity;
    rewrite (Z.compare_antisym e e');
    destruct (e ?= e')%Z; simpl; try reflexivity;
    rewrite (Pos.compare_cont_antisym m m' Eq); simpl;
    now destruct (Pos.compare_cont Eq m m').
Qed.

Ltac order_cases :=
  repeat match goal with
         | H : context [Z.compare ?a ?b] |- _ =>
             destruct (Z.compare_spec a b); subst
         | |- context [Z.compare ?a ?b] =>
             destruct (Z.compare_spec a b); subst
         | H : context [Pos.compare_cont Eq ?a ?b] |- _ =>
             change (Pos.compare_cont Eq a b) with (Pos.compare a b) in H;
             destruct (Pos.compare_spec a b); subst
         | |- context [Pos.compare_cont Eq ?a ?b] =>
             change (Pos.compare_cont Eq a b) with (Pos.compare a b);
             destruct (Pos.compare_spec a b); subst
         end.

Lemma SFleb_trans (a b c : spec_float) :
  SFleb a b = true -> SFleb b c = true -> SFleb a c = true.
Proof.
  unfold SFleb.
  destruct a as [s1| s1 | | s1 m1 e1], b as [s2| s2 | | s2 m2 e2],
           c as [s3| s3 | | s3 m3 e3]; simpl;
    try discriminate; try reflexivity;
    try (destruct s1; try discriminate; try reflexivity);
    try (destruct s2; try discriminate; try reflexivity);
    try (destruct s3; try discriminate; try reflexivity);
    intros H1 H2; order_cases; simpl in *;
    try discriminate; try reflexivity; try lia.
Qed.

Lemma is_number_spec (a : float) : is_number a <-> Prim2SF a <> S754_nan.
Proof.
  unfold is_number, PrimFloat.is_nan. rewrite eqb_spec. unfold SFeqb. split.
  - intros H E. rewrite E in H. discriminate.
  - intros H. now rewrite SFcompare_refl.
Qed.

Lemma compare_numbers (a b : float) :
  is_number a -> is_number b ->
  exists c, SFcompare (Prim2SF a) (Prim2SF b) = Some c.
Proof.
  intros Ha Hb. apply is_number_spec in Ha, Hb.
  destruct (Prim2SF a), (Prim2SF b); simpl; try congruence; eauto.
Qed.

Lemma leb_numbers (a b : float) :
  PrimFloat.leb a b = true -> is_number a /\ is_number b.
Proof.
  rewrite leb_spec. unfold SFleb. intros H.
  split; apply is_number_spec; intros E; rewrite E in H;
    [|destruct (Prim2SF a)]; discriminate.
Qed.

Lemma ltb_leb (a b : float) :
  PrimFloat.ltb a b = true -> PrimFloat.leb a b = true.
Proof.
  rewrite ltb_spec, leb_spec. unfold SFltb, SFleb.
  now destruct (SFcompare _ _) as [[]|].
Qed.

Lemma leb_or (a b : float) :
  is_number a -> is_number b ->
  PrimFloat.leb a b = false -> PrimFloat.leb b a = true.
Proof.
  intros Ha Hb. rewrite !leb_spec. unfold SFleb.
  rewrite (SFcompare_antisym (Prim2SF a) (Prim2SF b)).
  destruct (compare_numbers a b Ha Hb) as [c ->]. now destruct c.
Qed.

Lemma not_ltb_leb (a b : float) :
  is_number a -> is_number b ->
  PrimFloat.ltb a b = false -> PrimFloat.leb b a = true.
Proof.
  intros Ha Hb. rewrite ltb_spec, leb_spec. unfold SFltb, SFleb.
  rewrite (SFcompare_antisym (Prim2SF a) (Prim2SF b)).
  destruct (compare_numbers a b Ha Hb) as [c ->]. now destruct c.
Qed.

Lemma float_max_spec (a b : float) :
  is_number a -> is_number b ->
  (PrimFloat.leb a b = true /\ float_max a b = b)
  \/ (PrimFloat.leb b a = true /\ float_max a b = a).
Proof.
  intros Ha Hb. unfold float_max. rewrite Ha, Hb. simpl.
  destruct (PrimFloat.ltb a b) eqn:L1; [left; split; [now apply ltb_leb | reflexivity]|].
  destruct (PrimFloat.ltb b a) eqn:L2; [right; split; [now apply ltb_leb | reflexivity]|].
  destruct (is_neg_zero a).
  - left. split; [now apply not_ltb_leb | reflexivity].
  - right. split; [now apply not_ltb_leb | reflexivity].
Qed.

Lemma float_min_spec (a b : float) :
  is_number a -> is_number b ->
  (PrimFloat.leb a b = true /\ float_min a b = a)
  \/ (PrimFloat.leb b a = true /\ float_min a b = b).
Proof.
  intros Ha Hb. unfold float_min. rewrite Ha, Hb. simpl.
  destruct (PrimFloat.ltb a b) eqn:L1; [left; split; [now apply ltb_leb | reflexivity]|].
  destruct (PrimFloat.ltb b a) eqn:L2; [right; split; [now apply ltb_leb | reflexivity]|].
  destruct (is_neg_zero a).
  - left. split; [now apply not_ltb_leb | reflexivity].
  - right. split; [now apply not_ltb_leb | reflexivity].
Qed.

Lemma is_finite_spec (a : float) :
  is_finite a ->
  (exists s, Prim2SF a = S754_zero s)
  \/ (exists s m e, Prim2SF a = S754_finite s m e).
Proof.
  unfold is_finite, PrimFloat.is_finite, PrimFloat.is_infinity.
  intros H. apply negb_true_iff, orb_false_iff in H. destruct H as [Hn Hi].
  apply is_number_spec in Hn. rewrite eqb_spec, abs_spec in Hi.
  destruct (Prim2SF a) as [s | s | | s m e]; eauto.
  - exfalso. revert Hi. now vm_compute.
  - congruence.
Qed.

Lemma float_sub_diag (a : float) : is_finite a -> PrimFloat.sub a a = PrimFloat.zero.
Proof.
  intros H. apply Prim2SF_inj. rewrite sub_spec.
  destruct (is_finite_spec a H) as [[s ->] | [s [m [e ->]]]].
  - now destruct s.
  - unfold SF64sub, SFsub. rewrite Z.sub_diag. reflexivity.
Qed.

Lemma shr_1_nonneg (mrs : shr_record) :
  (0 <= shr_m mrs)%Z -> (0 <= shr_m (shr_1 mrs))%Z.
Proof.
  destruct mrs as [m r s]. cbn [shr_m]. intros H. unfold shr_1.
  destruct m as [|p|p]; [cbn; lia| |lia].
  destruct p; cbn; lia.
Qed.

Lemma iter_shr_1_nonneg (p : positive) (mrs : shr_record) :
  (0 <= shr_m mrs)%Z -> (0 <= shr_m (SpecFloat.iter_pos shr_1 p mrs))%Z.
Proof.
  revert mrs. induction p as [p IH|p IH|]; intros mrs H; cbn [SpecFloat.iter_pos].
  - apply IH, IH. now apply shr_1_nonneg.
  - now apply IH, IH.
  - now apply shr_1_nonneg.
Qed.

Lemma shr_fexp_nonneg (m e : Z) (l : location) :
  (0 <= m)%Z -> (0 <= shr_m (fst (shr_fexp prec emax m e l)))%Z.
Proof.
  intros H. unfold shr_fexp, shr.
  assert (0 <= shr_m (shr_record_of_loc m l))%Z as H0
    by (destruct l as [|[]]; exact H).
  destruct (_ - e)%Z; cbn [fst]; [exact H0| |exact H0].
  now apply iter_shr_1_nonneg.
Qed.

Lemma round_nearest_even_nonneg (m : Z) (l : location) :
  (0 <= m)%Z -> (0 <= round_nearest_even m l)%Z.
Proof.
  intros H. destruct l as [|[]]; cbn; try lia. destruct (Z.even m); lia.
Qed.

Lemma binary_round_aux_sign (s : bool) (m e : Z) (l : location) :
  (0 <= m)%Z -> of_sign s (binary_round_aux prec emax s m e l).
Proof.
  intros H. unfold binary_round_aux.
  pose proof (shr_fexp_nonneg m e l H) as H1.
  destruct (shr_fexp prec emax m e l) as [mrs' e']. cbn [fst] in H1.
  pose proof (shr_fexp_nonneg _ e' loc_Exact
                (round_nearest_even_nonneg _ (loc_of_shr_record mrs') H1)) as H2.
  destruct (shr_fexp prec emax _ e' loc_Exact) as [mrs'' e'']. cbn [fst] in H2.
  destruct (shr_m mrs'') as [|p|p]; [reflexivity| |lia].
  destruct (e'' <=? emax - prec)%Z; reflexivity.
Qed.

Lemma of_sign_number (s : bool) (x : spec_float) : of_sign s x -> x <> S754_nan.
Proof. destruct x; cbn; congruence. Qed.

Lemma binary_normalize_number (m e : Z) (sz : bool) :
  binary_normalize prec emax m e sz <> S754_nan.
Proof.
  unfold binary_normalize, binary_round.
  destruct m as [|p|p]; [discriminate| |];
    destruct (shl_align _ _ _) as [mz ez];
    eapply of_sign_number, binary_round_aux_sign; lia.
Qed.

Lemma SFsub_number (a b : spec_float) :
  sf_finite a -> sf_finite b -> SFsub prec emax a b <> S754_nan.
Proof.
  destruct a as [sa|sa| |sa ma ea], b as [sb|sb| |sb mb eb]; cbn;
    try tauto; intros _ _; try discriminate.
  - destruct sa, sb; discriminate.
  - apply binary_normalize_number.
Qed.

Lemma SFmul_square (a : spec_float) :
  a <> S754_nan ->
  of_sign false (SFmul prec emax a a)
  /\ (sf_finite (SFmul prec emax a a) -> sf_finite a).
Proof.
  destruct a as [sa|sa| |sa ma ea]; cbn; intros H; try congruence.
  - now destruct sa.
  - now destruct sa.
  - split; [|tauto].
    replace (xorb sa sa) with false by (now destruct sa).
    apply binary_round_aux_sign. lia.
Qed.

Lemma SFadd_nonneg (a b : spec_float) :
  of_sign false a -> of_sign false b ->
  of_sign false (SFadd prec emax a b)
  /\ (sf_finite (SFadd prec emax a b) -> sf_finite a /\ sf_finite b).
Proof.
  destruct a as [sa|sa| |sa ma ea], b as [sb|sb| |sb mb eb]; cbn;
    try tauto; intros -> ->; cbn; try tauto.
  split; [|tauto].
  unfold binary_round.
  match goal with
  | |- context [shl_align ?p ?e ?f] =>
      match p with
      | (_ + _)%positive => destruct (shl_align p e f) as [mz ez]
      end
  end.
  apply binary_round_aux_sign. lia.
Qed.

Lemma SFsqrt_nonneg (a : spec_float) :
  of_sign false a ->
  of_sign false (SFsqrt prec emax a)
  /\ (sf_finite (SFsqrt prec emax a) -> sf_finite a).
Proof.
  destruct a as [sa|sa| |sa ma ea]; cbn; try tauto; intros ->; cbn; try tauto.
  split; [|tauto].
  unfold SFsqrt_core_binary. cbv zeta.
  match goal with
  | |- context [Z.sqrtrem ?m] =>
      pose proof (Z.sqrtrem_sqrt m) as Hs; pose proof (Z.sqrt_nonneg m) as Hn;
      destruct (Z.sqrtrem m) as [q r]
  end.
  cbn [fst] in Hs. apply binary_round_aux_sign. lia.
Qed.

Lemma SFdiv_number (a b : spec_float) :
  sf_finite a -> (exists s m e, b = S754_finite s m e) ->
  SFdiv prec emax a b <> S754_nan.
Proof.
  intros Ha [sb [mb [eb ->]]].
  destruct a as [sa|sa| |sa ma ea]; cbn in *; try tauto; try discriminate.
  unfold SFdiv_core_binary. cbv zeta.
  match goal with
  | |- context [Z.div_eucl ?m (Zpos mb)] => set (m' := m)
  end.
  assert (0 <= m')%Z as Hm.
  { subst m'. destruct (_ - _ - _)%Z; try lia. apply Z.shiftl_nonneg. lia. }
  pose proof (Z.div_pos m' (Zpos mb) Hm ltac:(lia)) as Hd.
  unfold Z.div in Hd.
  destruct (Z.div_eucl m' (Zpos mb)) as [q r].
  eapply of_sign_number. now apply binary_round_aux_sign.
Qed.

Lemma is_finite_sf (a : float) : is_finite a -> sf_finite (Prim2SF a).
Proof.
  intros H. destruct (is_finite_spec a H) as [[s ->] | [s [m [e ->]]]];
    exact I.
Qed.

Lemma is_finite_number (a : float) : is_finite a -> is_number a.
Proof.
  intros H. apply is_number_spec. pose proof (is_finite_sf a H) as F.
  intros E. now rewrite E in F.
Qed.

(** The distance of two points of finite coordinates, as a
    specification float: not NaN, not negative, and finite only if the
    two differences are. *)
Lemma distance_class (x1 y1 x2 y2 : float) :
  is_finite x1 -> is_finite y1 -> is_finite x2 -> is_finite y2 ->
  let dx := PrimFloat.sub x2 x1 in
  let dy := PrimFloat.sub y2 y1 in
  let d := PrimFloat.sqrt (PrimFloat.add (PrimFloat.mul dx dx)
                                          (PrimFloat.mul dy dy)) in
  of_sign false (Prim2SF d)
  /\ (sf_finite (Prim2SF d) -> sf_finite (Prim2SF dx) /\ sf_finite (Prim2SF dy)).
Proof.
  intros F1 F2 F3 F4 dx dy d. subst d.
  rewrite sqrt_spec, add_spec, !mul_spec.
  assert (Prim2SF dx <> S754_nan) as Nx
    by (subst dx; rewrite sub_spec; apply SFsub_number; now apply is_finite_sf).
  assert (Prim2SF dy <> S754_nan) as Ny
    by (subst dy; rewrite sub_spec; apply SFsub_number; now apply is_finite_sf).
  destruct (SFmul_square (Prim2SF dx) Nx) as [Sx Fx].
  destruct (SFmul_square (Prim2SF dy) Ny) as [Sy Fy].
  destruct (SFadd_nonneg _ _ Sx Sy) as [Ss Fs].
  destruct (SFsqrt_nonneg _ Ss) as [Sd Fd].
  split; [exact Sd|]. intros H. destruct (Fs (Fd H)) as [H1 H2]. auto.
Qed.

Lemma float_distance_number (x1 y1 x2 y2 : float) :
  is_finite x1 -> is_finite y1 -> is_finite x2 -> is_finite y2 ->
  is_number (PrimFloat.sqrt
               (PrimFloat.add
                  (PrimFloat.mul (PrimFloat.sub x2 x1) (PrimFloat.sub x2 x1))
                  (PrimFloat.mul (PrimFloat.sub y2 y1) (PrimFloat.sub y2 y1)))).
Proof.
  intros F1 F2 F3 F4. apply is_number_spec.
  destruct (distance_class x1 y1 x2 y2 F1 F2 F3 F4) as [S _].
  cbv zeta in S. eapply of_sign_number, S.
Qed.

Lemma float_direction_number (x1 y1 x2 y2 bound : float) :
  is_finite x1 -> is_finite y1 -> is_finite x2 -> is_finite y2 ->
  is_finite bound ->
  let d := PrimFloat.sqrt
             (PrimFloat.add
                (PrimFloat.mul (PrimFloat.sub x2 x1) (PrimFloat.sub x2 x1))
                (PrimFloat.mul (PrimFloat.sub y2 y1) (PrimFloat.sub y2 y1))) in
  PrimFloat.leb d bound = true -> PrimFloat.eqb d PrimFloat.zero = false ->
  is_number (PrimFloat.div (PrimFloat.sub x2 x1) d)
  /\ is_number (PrimFloat.div (PrimFloat.sub y2 y1) d).
Proof.
  intros F1 F2 F3 F4 Fb d Hle Hz.
  destruct (distance_class x1 y1 x2 y2 F1 F2 F3 F4) as [S F].
  cbv zeta in S, F. fold d in S, F.
  pose proof (is_finite_sf bound Fb) as Sb.
  rewrite leb_spec in Hle. rewrite eqb_spec in Hz.
  assert (exists s m e, Prim2SF d = S754_finite s m e) as Hd.
  { destruct (Prim2SF d) as [s|s| |s m e]; cbn in S; try tauto; subst.
    - discriminate Hz.
    - destruct (Prim2SF bound); cbn in Sb; try tauto; discriminate Hle.
    - eauto. }
  assert (sf_finite (Prim2SF d)) as Fd
    by (destruct Hd as [s [m [e ->]]]; exact I).
  destruct (F Fd) as [Fx Fy].
  split; apply is_number_spec; rewrite div_spec; now apply SFdiv_number.
Qed.

#[export, refine] Instance laws : NumberLaws Float64.number := {|
  proper := is_number;
  finite := is_finite
|}.
Proof.
  - exact leb_numbers.
  - intros a Ha. simpl. rewrite leb_spec. unfold SFleb.
    apply is_number_spec in Ha. now rewrite SFcompare_refl.
  - exact leb_or.
  - intros a b c. simpl. rewrite !leb_spec. apply SFleb_trans.
  - intros a b. simpl. rewrite !leb_spec, eqb_spec. unfold SFleb, SFeqb.
    rewrite (SFcompare_antisym (Prim2SF a) (Prim2SF b)).
    now destruct (SFcompare (Prim2SF a) (Prim2SF b)) as [[]|].
  - exact float_max_spec.
  - exact float_min_spec.
  - exact is_finite_number.
  - exact not_ltb_leb.
  - exact float_distance_number.
  - exact float_direction_number.
  - exact float_sub_diag.
  - reflexivity.
  - reflexivity.
  - reflexivity.
  - reflexivity.
Defined.

End Float64Laws.

(* ================================================================= *)
(** * The square arena *)

Section SquareArena.
Context {NUM : Number} {LAWS : NumberLaws NUM}.
Local Open Scope num_scope.

Lemma handleSquareBoundaries_axes (e : GameEngine) (c : Circle) :
  handleSquareBoundaries e c
  = let ax := reflectAxis (squareLeft e c) (squareRight e c) (x c) (vx c) in
    let ay := reflectAxis (squareTop e c) (squareBottom e c) (y c) (vy c) in
    mkCircle (id c) (fst ax) (fst ay) (snd ax) (snd ay) (color c) (size c).
Proof.
  unfold handleSquareBoundaries, reflectAxis, squareLeft, squareRight,
    squareTop, squareBottom. cbv zeta.
  destruct ((x c <=? _) || (x c >=? _)); simpl;
    destruct ((y c <=? _) || (y c >=? _)); simpl; now destruct c.
Qed.

Lemma clamp_within (lo hi a : num) :
  proper a -> (lo <=? hi) = true ->
  (lo <=? nmax lo (nmin hi a)) = true /\ (nmax lo (nmin hi a) <=? hi) = true.
Proof.
  intros Ha Hlh. destruct (leb_proper _ _ Hlh) as [Hlo Hhi].
  assert (proper (nmin hi a) /\ (nmin hi a <=? hi) = true) as [Hpm Hmh].
  { destruct (min_spec hi a Hhi Ha) as [[M1 M2] | [M1 M2]]; rewrite M2;
      split; try assumption; now apply leb_refl. }
  destruct (max_spec lo (nmin hi a) Hlo Hpm) as [[X1 X2] | [X1 X2]];
    rewrite X2; split; try assumption; now apply leb_refl.
Qed.

Lemma clamp_low (lo hi a : num) :
  proper a -> (lo <=? hi) = true -> (lo <=? a) = false ->
  (nmax lo (nmin hi a) =? lo) = true.
Proof.
  intros Ha Hlh Hout. destruct (leb_proper _ _ Hlh) as [Hlo Hhi].
  pose proof (leb_total _ _ Hlo Ha Hout) as Hal.
  assert ((nmin hi a <=? lo) = true) as Hm.
  { destruct (min_spec hi a Hhi Ha) as [[M1 M2] | [M1 M2]]; rewrite M2.
    - exact (leb_trans _ _ _ M1 Hal).
    - exact Hal. }
  destruct (leb_proper _ _ Hm) as [Hpm _].
  destruct (max_spec lo (nmin hi a) Hlo Hpm) as [[X1 X2] | [X1 X2]];
    rewrite X2.
  - now apply leb_antisym.
  - apply leb_antisym; now apply leb_refl.
Qed.

Lemma clamp_high (lo hi a : num) :
  proper a -> (lo <=? hi) = true -> (a <=? hi) = false ->
  (nmax lo (nmin hi a) =? hi) = true.
Proof.
  intros Ha Hlh Hout. destruct (leb_proper _ _ Hlh) as [Hlo Hhi].
  pose proof (leb_total _ _ Ha Hhi Hout) as Hha.
  assert (nmin hi a = hi \/ ((a <=? hi) = true /\ nmin hi a = a)) as Hm.
  { destruct (min_spec hi a Hhi Ha) as [[M1 M2] | [M1 M2]]; auto. }
  destruct Hm as [Hm | [Hm _]]; [|congruence]. rewrite Hm.
  destruct (max_spec lo hi Hlo Hhi) as [[X1 X2] | [X1 X2]]; rewrite X2.
  - apply leb_antisym; now apply leb_refl.
  - now apply leb_antisym.
Qed.

(** One axis: the coordinate ends between the bounds; it and the
    velocity change only when the coordinate is at or beyond a bound,
    and then the velocity is negated and the coordinate clamped, to
    the bound it was beyond. *)
Lemma reflectAxis_within (lo hi a v : num) :
  proper a -> (lo <=? hi) = true ->
  let r := reflectAxis lo hi a v in
  ((lo <=? fst r) = true /\ (fst r <=? hi) = true)
  /\ ((lo <=? a) = false -> (fst r =? lo) = true /\ snd r = - v)
  /\ ((a <=? hi) = false -> (fst r =? hi) = true /\ snd r = - v)
  /\ ((a <=? lo) = false -> (hi <=? a) = false -> r = (a, v)).
Proof.
  intros Ha Hlh r. destruct (leb_proper _ _ Hlh) as [Hlo Hhi].
  subst r. unfold reflectAxis.
  destruct (a <=? lo) eqn:E1; simpl.
  - split; [now apply clamp_within|].
    split; [intros H; split; [now apply clamp_low | reflexivity]|].
    split; [intros H; split; [now apply clamp_high | reflexivity]|].
    discriminate.
  - destruct (hi <=? a) eqn:E2; simpl.
    + split; [now apply clamp_within|].
      split; [intros H; split; [now apply clamp_low | reflexivity]|].
      split; [intros H; split; [now apply clamp_high | reflexivity]|].
      discriminate.
    + split; [split; now apply leb_total|].
      split; [intros H; pose proof (leb_total _ _ Ha Hlo E1); congruence|].
      split; [intros H; pose proof (leb_total _ _ Hhi Ha E2); congruence|].
      reflexivity.
Qed.

(** C7 (as amended).  For a circle whose coordinates are numbers, in
    a square arena at least as wide and as high as the circle (so that
    left <= right and top <= bottom for the bounds inset by half the
    diameter), the centre after [handleSquareBoundaries] satisfies
    left <= x <= right and top <= y <= bottom.  A centre beyond a bound
    is clamped to that bound and the velocity component along that
    axis is negated; a centre strictly inside both bounds of an axis
    keeps its coordinate and velocity component on that axis. *)
Theorem square_boundaries_contain (e : GameEngine) (c : Circle) :
  proper (x c) -> proper (y c) ->
  (squareLeft e c <=? squareRight e c) = true ->
  (squareTop e c <=? squareBottom e c) = true ->
  let c' := handleSquareBoundaries e c in
  ((squareLeft e c' <=? x c') = true /\ (x c' <=? squareRight e c') = true
   /\ (squareTop e c' <=? y c') = true /\ (y c' <=? squareBottom e c') = true)
  /\ ((squareLeft e c <=? x c) = false ->
        (x c' =? squareLeft e c) = true /\ vx c' = - vx c)
  /\ ((x c <=? squareRight e c) = false ->
        (x c' =? squareRight e c) = true /\ vx c' = - vx c)
  /\ ((squareTop e c <=? y c) = false ->
        (y c' =? squareTop e c) = true /\ vy c' = - vy c)
  /\ ((y c <=? squareBottom e c) = false ->
        (y c' =? squareBottom e c) = true /\ vy c' = - vy c)
  /\ ((x c <=? squareLeft e c) = false -> (squareRight e c <=? x c) = false ->
        x c' = x c /\ vx c' = vx c)
  /\ ((y c <=? squareTop e c) = false -> (squareBottom e c <=? y c) = false ->
        y c' = y c /\ vy c' = vy c)
  /\ (id c' = id c /\ color c' = color c /\ size c' = size c).
Proof.
  intros Hx Hy Hlr Htb c'. subst c'.
  rewrite handleSquareBoundaries_axes. cbv zeta.
  destruct (reflectAxis_within _ _ _ (vx c) Hx Hlr) as [[X1 X2] [X3 [X4 X5]]].
  destruct (reflectAxis_within _ _ _ (vy c) Hy Htb) as [[Y1 Y2] [Y3 [Y4 Y5]]].
  unfold squareLeft, squareRight, squareTop, squareBottom in *. simpl.
  split; [auto|]. split; [exact X3|]. split; [exact X4|].
  split; [exact Y3|]. split; [exact Y4|].
  split; [intros H1 H2; now rewrite (X5 H1 H2)|].
  split; [intros H1 H2; now rewrite (Y5 H1 H2)|].
  auto.
Qed.

End SquareArena.

(* ================================================================= *)
(** * Coinciding centres *)

Section CoincidingCentres.
Context {NUM : Number} {LAWS : NumberLaws NUM}.
Local Open Scope num_scope.

Lemma distance_coinciding (c o : Circle) :
  finite (x c) -> finite (y c) -> x o = x c -> y o = y c ->
  (distanceBetween c o =? of_Z 0) = true.
Proof.
  intros Fx Fy Ex Ey. unfold distanceBetween. cbv zeta. rewrite Ex, Ey.
  rewrite (sub_diag _ Fx), (sub_diag _ Fy).
  rewrite mul_zero, add_zero, sqrt_zero. apply eqb_zero.
Qed.

Lemma magneticForce_zero_distance (c o : Circle) (total : num * num) :
  (distanceBetween c o =? of_Z 0) = true -> magneticForce c total o = total.
Proof.
  unfold distanceBetween, magneticForce. cbv zeta. intros H.
  destruct total as [tx ty].
  destruct (String.eqb (id c) (id o) || GameColor_eqb (color c) (color o));
    [reflexivity|].
  rewrite H, orb_true_r. reflexivity.
Qed.

Lemma applyBounce_zero_distance (c1 c2 : Circle) :
  (distanceBetween c1 c2 =? of_Z 0) = true -> applyBounce c1 c2 = (c1, c2).
Proof.
  unfold distanceBetween, applyBounce. cbv zeta. intros H. now rewrite H.
Qed.


(** The direction is made of numbers whenever it is computed from
    finite coordinates at a finite distance that is not zero. *)
Lemma directionTo_proper (c o : Circle) (bound : num) :
  finite (x c) -> finite (y c) -> finite (x o) -> finite (y o) ->
  finite bound ->
  (distanceBetween c o <=? bound) = true ->
  (distanceBetween c o =? of_Z 0) = false ->
  proper (fst (directionTo c o)) /\ proper (snd (directionTo c o)).
Proof.
  intros F1 F2 F3 F4 Fb Hle Hz.
  exact (direction_proper (x c) (y c) (x o) (y o) bound F1 F2 F3 F4 Fb Hle Hz).
Qed.

(** C10.  When the distance computed from one centre to the other is
    zero, the force field adds nothing for the pair and [applyBounce]
    returns the two circles as they are: no direction is computed from
    the zero-length difference, by no division.  Two circles with the
    same centre, of finite coordinates, are at distance zero.  So the
    accumulated force and the positions and velocities of the two
    circles are those from before, and are numbers if they were.  When
    the distance is not zero, the direction the force field computes
    (within the interaction radius) and the direction the bounce
    computes (at a finite distance) from finite coordinates have
    components that are numbers, not NaN. *)
Theorem coinciding_centres_skipped :
  (forall (c o : Circle) (total : num * num),
      (distanceBetween c o =? of_Z 0) = true ->
      magneticForce c total o = total)
  /\ (forall c1 c2 : Circle,
      (distanceBetween c1 c2 =? of_Z 0) = true ->
      applyBounce c1 c2 = (c1, c2))
  /\ (forall c o : Circle,
      finite (x c) -> finite (y c) -> x o = x c -> y o = y c ->
      (distanceBetween c o =? of_Z 0) = true
      /\ (forall total : num * num,
            magneticForce c total o = total
            /\ (proper (fst total) -> proper (snd total) ->
                proper (fst (magneticForce c total o))
                /\ proper (snd (magneticForce c total o))))
      /\ applyBounce c o = (c, o)
      /\ (proper (vx c) -> proper (vy c) ->
          proper (vx (fst (applyBounce c o)))
          /\ proper (vy (fst (applyBounce c o))))
      /\ (proper (vx o) -> proper (vy o) ->
          proper (vx (snd (applyBounce c o)))
          /\ proper (vy (snd (applyBounce c o)))))
  /\ (forall c o : Circle,
      finite (x c) -> finite (y c) -> finite (x o) -> finite (y o) ->
      proper (distanceBetween c o)
      /\ (finite MAGNETIC_RANGE ->
          (distanceBetween c o >? MAGNETIC_RANGE) = false ->
          (distanceBetween c o =? of_Z 0) = false ->
          proper (fst (directionTo c o)) /\ proper (snd (directionTo c o)))
      /\ (forall bound : num, finite bound ->
          (distanceBetween c o <=? bound) = true ->
          (distanceBetween c o =? of_Z 0) = false ->
          proper (fst (directionTo c o)) /\ proper (snd (directionTo c o)))).
Proof.
  split; [exact magneticForce_zero_distance|].
  split; [exact applyBounce_zero_distance|].
  split.
  { intros c o Fx Fy Ex Ey.
    pose proof (distance_coinciding c o Fx Fy Ex Ey) as Hd.
    split; [exact Hd|].
    split.
    { intros total. rewrite (magneticForce_zero_distance c o total Hd). auto. }
    rewrite (applyBounce_zero_distance c o Hd). cbn [fst snd]. auto. }
  intros c o F1 F2 F3 F4.
  assert (proper (distanceBetween c o)) as Pd
    by exact (distance_proper (x c) (y c) (x o) (y o) F1 F2 F3 F4).
  split; [exact Pd|]. split.
  - intros Fr Hr Hz.
    apply (directionTo_proper c o MAGNETIC_RANGE F1 F2 F3 F4 Fr); [|exact Hz].
    apply ltb_false_leb; [now apply finite_proper | exact Pd | exact Hr].
  - intros bound Fb Hle Hz.
    now apply (directionTo_proper c o bound).
Qed.

End CoincidingCentres.

(* ================================================================= *)
(** * The bounce *)

Section Bounce.
Context {NUM : Number}.
Local Open Scope num_scope.

Lemma applyBounce_velocity (c1 c2 : Circle) :
  (distanceBetween c1 c2 =? of_Z 0) = false ->
  let n := directionTo c1 c2 in
  (vx (fst (applyBounce c1 c2)), vy (fst (applyBounce c1 c2)))
  = bounceVelocity (vx c1) (vy c1) (fst n) (snd n)
  /\ (vx (snd (applyBounce c1 c2)), vy (snd (applyBounce c1 c2)))
     = bounceVelocity (vx c2) (vy c2) (fst n) (snd n).
Proof.
  unfold distanceBetween, directionTo, distanceBetween, applyBounce,
    bounceVelocity. cbv zeta. intros H. rewrite H. cbn [fst snd].
  repeat match goal with
         | |- context [if ?b then _ else _] => destruct b
         end; cbn [fst snd vx vy]; split; reflexivity.
Qed.

End Bounce.

(** ** In real arithmetic *)

Section RealBounce.
#[local] Existing Instance Real.number.
Import Real RealLaws.
Local Open Scope R_scope.

Lemma reflect_norm (vx vy nx ny : R) :
  nx * nx + ny * ny = 1 ->
  (vx - 2 * (vx * nx + vy * ny) * nx) * (vx - 2 * (vx * nx + vy * ny) * nx)
  + (vy - 2 * (vx * nx + vy * ny) * ny) * (vy - 2 * (vx * nx + vy * ny) * ny)
  = vx * vx + vy * vy.
Proof.
  intros H.
  replace ((vx - 2 * (vx * nx + vy * ny) * nx)
             * (vx - 2 * (vx * nx + vy * ny) * nx)
           + (vy - 2 * (vx * nx + vy * ny) * ny)
             * (vy - 2 * (vx * nx + vy * ny) * ny))
    with (vx * vx + vy * vy
          + 4 * (vx * nx + vy * ny) * (vx * nx + vy * ny)
            * (nx * nx + ny * ny - 1))
    by ring.
  rewrite H. ring.
Qed.

Lemma unit_normal (dx dy : R) :
  dx <> 0 \/ dy <> 0 ->
  0 < sqrt (dx * dx + dy * dy)
  /\ (dx / sqrt (dx * dx + dy * dy)) * (dx / sqrt (dx * dx + dy * dy))
     + (dy / sqrt (dx * dx + dy * dy)) * (dy / sqrt (dx * dx + dy * dy)) = 1.
Proof.
  intros H.
  assert (0 < dx * dx + dy * dy) as Hpos by (destruct H; nra).
  assert (0 < sqrt (dx * dx + dy * dy)) as Hd by (now apply sqrt_lt_R0).
  split; [exact Hd|].
  assert (sqrt (dx * dx + dy * dy) * sqrt (dx * dx + dy * dy)
          = dx * dx + dy * dy) as Hsq by (apply sqrt_sqrt; lra).
  set (d := sqrt (dx * dx + dy * dy)) in *.
  field_simplify_eq; [|lra]. nra.
Qed.

(** With a unit normal, the bounce is the reflection: scaling back to
    the speed from before changes nothing, since the reflection has
    kept the speed. *)
Lemma bounceVelocity_reflects (vx vy nx ny : R) :
  nx * nx + ny * ny = 1 ->
  bounceVelocity vx vy nx ny
  = (vx - 2 * (vx * nx + vy * ny) * nx, vy - 2 * (vx * nx + vy * ny) * ny).
Proof.
  intros H. unfold bounceVelocity. cbn -[sqrt Rltb].
  rewrite (reflect_norm vx vy nx ny H).
  destruct (Rltb 0 (sqrt (vx * vx + vy * vy))) eqn:E; [|reflexivity].
  apply Rltb_true in E. f_equal; field; lra.
Qed.

End RealBounce.

Section RealBounceSpeed.
#[local] Existing Instance Real.number.
Import Real RealLaws.
Local Open Scope R_scope.

Lemma distance_positive (c1 c2 : @Circle Real.number) :
  x c1 <> x c2 \/ y c1 <> y c2 ->
  0 < distanceBetween c1 c2
  /\ (distanceBetween c1 c2 =? of_Z 0)%num = false
  /\ fst (directionTo c1 c2) * fst (directionTo c1 c2)
     + snd (directionTo c1 c2) * snd (directionTo c1 c2) = 1.
Proof.
  intros H.
  assert (x c2 - x c1 <> 0 \/ y c2 - y c1 <> 0) as Hd
    by (destruct H; [left | right]; lra).
  destruct (unit_normal (x c2 - x c1) (y c2 - y c1) Hd) as [Hpos Hunit].
  unfold directionTo, distanceBetween. cbn -[sqrt Reqb].
  split; [exact Hpos|]. split; [|exact Hunit].
  apply Reqb_false. lra.
Qed.


End RealBounceSpeed.

(* ================================================================= *)
(** * The force field *)

Section RealForce.
#[local] Existing Instance Real.number.
Import Real RealLaws.
Local Open Scope R_scope.



(** A circle beyond the radius adds nothing. *)
Lemma magneticForce_out_of_range (c o : @Circle Real.number) (total : R * R) :
  75 < distanceBetween c o -> magneticForce c total o = total.
Proof.
  intros H. unfold magneticForce. fold (distanceBetween c o).
  destruct total as [tx ty]. cbv zeta.
  destruct (String.eqb (id c) (id o) || GameColor_eqb (color c) (color o));
    [reflexivity|].
  fold (distanceBetween c o). unfold MAGNETIC_RANGE.
  cbn -[distanceBetween].
  assert (Rltb 75 (distanceBetween c o) = true) as E by (now apply Rltb_true).
  now rewrite E.
Qed.

(** The forces add up: the force accumulated over the circles [cs],
    begun at [(tx, ty)], is [(tx, ty)] plus the force accumulated from
    zero. *)
Lemma magneticForce_adds (c o : @Circle Real.number) (tx ty : R) :
  magneticForce c (tx, ty) o
  = (tx + fst (magneticForce c (0, 0) o), ty + snd (magneticForce c (0, 0) o)).
Proof.
  unfold magneticForce. cbv zeta.
  destruct (String.eqb (id c) (id o) || GameColor_eqb (color c) (color o));
    [cbn; f_equal; ring|].
  match goal with
  | |- context [if ?b then _ else _] => destruct b
  end; [cbn; f_equal; ring|].
  destruct (getColorRelationship (color c) (color o)); cbn; f_equal; ring.
Qed.

Lemma forces_add (c : @Circle Real.number) (cs : list (@Circle Real.number))
    (tx ty : R) :
  fold_left (magneticForce c) cs (tx, ty)
  = (tx + fst (fold_left (magneticForce c) cs (0, 0)),
     ty + snd (fold_left (magneticForce c) cs (0, 0))).
Proof.
  revert tx ty. induction cs as [|o cs IH]; intros tx ty; cbn [fold_left].
  - cbn. f_equal; ring.
  - rewrite (magneticForce_adds c o tx ty).
    destruct (magneticForce c (0, 0) o) as [a b]. cbn [fst snd].
    change (@pair num num a b) with (@pair R R a b).
    rewrite (IH (tx + a) (ty + b)), (IH a b). cbn [fst snd]. f_equal; ring.
Qed.


End RealForce.

Section RealForceField.
#[local] Existing Instance Real.number.
Import Real RealLaws.
Local Open Scope R_scope.



End RealForceField.

(* ================================================================= *)
(** * The score and the population *)

Section Population.
Context {NUM : Number}.

Lemma liveCount_colors (k : GameColor) (e : GameEngine) :
  liveCount k e
  = List.length (filter (fun a => GameColor_eqb a k) (map color (circles e))).
Proof.
  unfold liveCount. induction (circles e) as [|c cs IH]; cbn; [reflexivity|].
  destruct (GameColor_eqb (color c) k); cbn; now rewrite IH.
Qed.

Lemma liveCount_zero (k : GameColor) (e : GameEngine) :
  liveCount k e = O <-> ~ In k (map color (circles e)).
Proof.
  rewrite liveCount_colors. induction (map color (circles e)) as [|a l IH]; cbn.
  - tauto.
  - destruct (GameColor_eqb a k) eqn:E; cbn.
    + apply GameColor_eqb_eq in E. split; [discriminate | intros H; exfalso; auto].
    + apply GameColor_eqb_neq in E. rewrite IH. tauto.
Qed.

(** X1.  The score [getColorCounts] returns has one entry for each
    colour, in the order blue, red, green; each is the number of
    circles of that colour, and the three add up to the number of
    circles. *)
Theorem counts_add_up (e : GameEngine) :
  getColorCounts e
  = [(blue, liveCount blue e); (red, liveCount red e);
     (green, liveCount green e)]
  /\ list_sum (map snd (getColorCounts e)) = List.length (circles e)
  /\ (liveCount blue e + liveCount red e + liveCount green e
      = List.length (circles e))%nat.
Proof.
  assert (liveCount blue e + liveCount red e + liveCount green e
          = List.length (circles e))%nat as Hsum.
  { unfold liveCount. induction (circles e) as [|c cs IH]; cbn; [reflexivity|].
    destruct (color c); cbn; lia. }
  rewrite getColorCounts_liveCount. cbn. repeat split; lia.
Qed.

Lemma map_pointwise {A B : Type} (f : A -> B) (l l' : list A) :
  List.length l' = List.length l ->
  (forall i a, nth_error l i = Some a ->
     exists a', nth_error l' i = Some a' /\ f a' = f a) ->
  map f l' = map f l.
Proof.
  revert l'. induction l as [|a l IH]; intros [|a' l'] Hl H; cbn in *;
    try discriminate; [reflexivity|].
  f_equal.
  - destruct (H O a eq_refl) as [b [E F]]. cbn in E. now injection E as ->.
  - apply IH; [lia|]. intros i b Hb. apply (H (S i) b Hb).
Qed.

Lemma limitSpeed_keeps (c : Circle) :
  id (limitSpeed c) = id c /\ color (limitSpeed c) = color c
  /\ size (limitSpeed c) = size c
  /\ x (limitSpeed c) = x c /\ y (limitSpeed c) = y c.
Proof.
  unfold limitSpeed. cbv zeta. destruct (nltb _ _); repeat split.
Qed.

Lemma applyMagneticForces_keeps (cs : list Circle) (c : Circle) :
  id (applyMagneticForces cs c) = id c
  /\ color (applyMagneticForces cs c) = color c
  /\ size (applyMagneticForces cs c) = size c
  /\ x (applyMagneticForces cs c) = x c /\ y (applyMagneticForces cs c) = y c.
Proof.
  unfold applyMagneticForces.
  destruct (fold_left _ _ _) as [fx fy].
  destruct (limitSpeed_keeps (set_velocity (vx c + fx) (vy c + fy) c)%num)
    as (H1 & H2 & H3 & H4 & H5).
  rewrite H1, H2, H3, H4, H5. repeat split.
Qed.

Lemma updateCircles_particles (e : GameEngine) :
  particles (updateCircles e) = particles e
  /\ random_calls (updateCircles e) = random_calls e.
Proof.
  unfold updateCircles. generalize (seq 0 (List.length (circles e))).
  intros l. revert e. induction l as [|i l IH]; intros e; cbn; [now split|].
  destruct (IH (updateCircle e i)) as [I1 I2]. rewrite I1, I2.
  unfold updateCircle. now destruct (nth_error (circles e) i).
Qed.

Lemma handleArenaBoundaries_keeps (e : GameEngine) (c : Circle) :
  id (handleArenaBoundaries e c) = id c
  /\ color (handleArenaBoundaries e c) = color c
  /\ size (handleArenaBoundaries e c) = size c.
Proof.
  unfold handleArenaBoundaries, handleHexagonBoundaries,
    handleTriangleBoundaries, handleCircleBoundaries, handleSquareBoundaries.
  cbv zeta. destruct (shape _);
    repeat match goal with
           | |- context [if ?b then _ else _] => destruct b
           end; repeat split.
Qed.

Lemma moveCircle_keeps (e : GameEngine) (others : list Circle) (c : Circle) :
  id (moveCircle e others c) = id c
  /\ color (moveCircle e others c) = color c
  /\ size (moveCircle e others c) = size c.
Proof.
  unfold moveCircle. cbv zeta.
  destruct (handleArenaBoundaries_keeps e
              (set_position
                 (x (applyMagneticForces others c)
                  + vx (applyMagneticForces others c))%num
                 (y (applyMagneticForces others c)
                  + vy (applyMagneticForces others c))%num
                 (applyMagneticForces others c))) as [H1 [H2 H3]].
  destruct (applyMagneticForces_keeps others c) as [K1 [K2 [K3 _]]].
  rewrite H1, H2, H3. cbn. auto.
Qed.

(** What [moveCircle] keeps of every circle, [updateCircles] keeps of
    the list of the circles. *)
Lemma updateCircles_maps (e : GameEngine) (B : Type) (f : Circle -> B) :
  (forall others c, f (moveCircle e others c) = f c) ->
  map f (circles (updateCircles e)) = map f (circles e).
Proof.
  intros Hf. destruct (updateCircles_pointwise e) as [Hl Hp].
  apply map_pointwise; [exact Hl|].
  intros i c Hc. eexists. split; [apply (Hp i c Hc) | apply Hf].
Qed.

(** X2.  [updateCircles] moves the circles and changes none of what
    identifies them: the ids, the colours and the sizes are the same,
    in the same order; so the score is the same, and so are the
    particles, the running flag and the calls of [onGameEnd]. *)
Theorem updateCircles_keeps_identity (e : GameEngine) :
  map id (circles (updateCircles e)) = map id (circles e)
  /\ map color (circles (updateCircles e)) = map color (circles e)
  /\ map size (circles (updateCircles e)) = map size (circles e)
  /\ getColorCounts (updateCircles e) = getColorCounts e
  /\ particles (updateCircles e) = particles e
  /\ isRunning (updateCircles e) = isRunning e
  /\ onGameEnd_calls (updateCircles e) = onGameEnd_calls e.
Proof.
  assert (map color (circles (updateCircles e)) = map color (circles e)) as Hc
    by (apply updateCircles_maps; intros; apply moveCircle_keeps).
  split; [apply updateCircles_maps; intros; apply moveCircle_keeps|].
  split; [exact Hc|].
  split; [apply updateCircles_maps; intros; apply moveCircle_keeps|].
  split.
  { rewrite !getColorCounts_liveCount, !liveCount_colors. now rewrite Hc. }
  split; [|split].
  - apply updateCircles_particles.
  - apply (updateCircles_host e host_side_isRunning).
  - apply (updateCircles_host e host_side_onGameEnd_calls).
Qed.

End Population.

(* ================================================================= *)
(** * The particles and the colours of a collision scan *)

Section ScanFacts.
Context {NUM : Number} {RT : Runtime}.

(** A loop, by what holds after the rounds done so far. *)
Lemma forEach_indexed {A : Type} (I : list A -> GameEngine -> Prop)
    (body : A -> Method unit) (l : list A) (e0 : GameEngine) :
  I [] e0 ->
  (forall done a e, I done e -> I (done ++ [a]) (snd (body a e))) ->
  I l (snd (forEach l body e0)).
Proof.
  intros H0 Hs.
  assert (forall rest done e, I done e ->
            I (done ++ rest) (snd (forEach rest body e))) as H.
  { induction rest as [|a rest IH]; intros done e Hd; cbn.
    - now rewrite app_nil_r.
    - unfold bind. specialize (Hs done a e Hd).
      destruct (body a e) as [[] e']. cbn in Hs.
      replace (done ++ a :: rest) with ((done ++ [a]) ++ rest)
        by (now rewrite <- app_assoc).
      now apply IH. }
  apply (H l [] e0 H0).
Qed.

Lemma besideParticles_refl (e : GameEngine) : besideParticles e e.
Proof. unfold besideParticles. now destruct e. Qed.

Lemma besideParticles_trans (e1 e2 e3 : GameEngine) :
  besideParticles e1 e2 -> besideParticles e2 e3 -> besideParticles e1 e3.
Proof.
  unfold besideParticles. intros H1 H2.
  destruct e1, e2, e3. cbn in *.
  injection H1; intros; subst. injection H2; intros; subst. reflexivity.
Qed.

Lemma besideParticles_host {B : Type} (f : GameEngine -> B) (e e' : GameEngine) :
  beside_effects f -> besideParticles e e' -> f e' = f e.
Proof.
  intros [Hp Hr] H. rewrite H. now rewrite Hr, Hp.
Qed.

Lemma createCollisionParticles_engine (c1 c2 : Circle) (e : GameEngine) :
  let e' := snd (createCollisionParticles c1 c2 e) in
  besideParticles e e'
  /\ random_calls e' = (30 + random_calls e)%nat
  /\ exists ps,
       particles e' = particles e ++ ps
       /\ map p_color ps
          = [color c1; color c2; color c1; color c2; color c1; color c2]
       /\ Forall (fun p => type p = collision /\ maxLife p = life p
                        /\ exists n, life p
                             = (decimal 5 10
                                + Math_random n * decimal 5 10)%num) ps.
Proof.
  unfold createCollisionParticles. cbv zeta.
  pose (I := fun (done : list nat) (e' : GameEngine) =>
    besideParticles e e'
    /\ random_calls e' = (5 * List.length done + random_calls e)%nat
    /\ exists ps,
         particles e' = particles e ++ ps
         /\ map p_color ps
            = map (fun i => if Nat.even i then color c1 else color c2) done
         /\ Forall (fun p => type p = collision /\ maxLife p = life p
                        /\ exists n, life p
                             = (decimal 5 10
                                + Math_random n * decimal 5 10)%num) ps).
  match goal with
  | |- context [forEach ?l ?body e] =>
      assert (I l (snd (forEach l body e))) as H
  end.
  { apply forEach_indexed.
    - split; [apply besideParticles_refl|]. split; [reflexivity|].
      exists []. split; [now rewrite app_nil_r|].
      split; [reflexivity | constructor].
    - intros done i e' [Hb [Hr [ps [Hp [Hc Hf]]]]]. subst I. cbv beta.
      unfold besideParticles in *. destruct e, e'.
      cbn -[Nat.mul] in *. injection Hb; intros; subst.
      split; [reflexivity|]. split; [rewrite length_app; cbn; lia|].
      eexists. split; [rewrite <- app_assoc; reflexivity|]. split.
      + rewrite !map_app, Hc. reflexivity.
      + apply Forall_app. split; [exact Hf|]. constructor; [|constructor].
        split; [reflexivity|]. split; [reflexivity|].
        eexists; reflexivity. }
  destruct H as [Hb [Hr [ps [Hp [Hc Hf]]]]].
  split; [exact Hb|]. split; [exact Hr|]. exists ps. auto.
Qed.

Lemma createSplitParticles_engine (w : Circle) (e : GameEngine) :
  let e' := snd (createSplitParticles w e) in
  besideParticles e e'
  /\ random_calls e' = (40 + random_calls e)%nat
  /\ exists ps,
       particles e' = particles e ++ ps
       /\ map p_color ps = repeat (color w) 8
       /\ Forall (fun p => type p = split /\ maxLife p = life p
                        /\ exists n, life p
                             = (decimal 8 10
                                + Math_random n * decimal 7 10)%num) ps.
Proof.
  unfold createSplitParticles. cbv zeta.
  pose (I := fun (done : list nat) (e' : GameEngine) =>
    besideParticles e e'
    /\ random_calls e' = (5 * List.length done + random_calls e)%nat
    /\ exists ps,
         particles e' = particles e ++ ps
         /\ map p_color ps = repeat (color w) (List.length done)
         /\ Forall (fun p => type p = split /\ maxLife p = life p
                        /\ exists n, life p
                             = (decimal 8 10
                                + Math_random n * decimal 7 10)%num) ps).
  match goal with
  | |- context [forEach ?l ?body e] =>
      assert (I l (snd (forEach l body e))) as H
  end.
  { apply forEach_indexed.
    - split; [apply besideParticles_refl|]. split; [reflexivity|].
      exists []. split; [now rewrite app_nil_r|].
      split; [reflexivity | constructor].
    - intros done i e' [Hb [Hr [ps [Hp [Hc Hf]]]]]. subst I. cbv beta.
      unfold besideParticles in *. destruct e, e'.
      cbn -[Nat.mul] in *. injection Hb; intros; subst.
      split; [reflexivity|]. split; [rewrite length_app; cbn; lia|].
      eexists. split; [rewrite <- app_assoc; reflexivity|]. split.
      + rewrite !map_app, Hc, length_app, repeat_app. reflexivity.
      + apply Forall_app. split; [exact Hf|]. constructor; [|constructor].
        split; [reflexivity|]. split; [reflexivity|].
        eexists; reflexivity. }
  destruct H as [Hb [Hr [ps [Hp [Hc Hf]]]]].
  split; [exact Hb|]. split; [exact Hr|]. exists ps. auto.
Qed.

Lemma createSplitCircle_engine (w : Circle) (e : GameEngine) :
  snd (createSplitCircle w e) = set_random_calls (4 + random_calls e) e.
Proof. unfold createSplitCircle. now destruct e. Qed.

(** The two cases of [checkPair]: nothing changes, or a battle. *)
Lemma checkPair_cases (e : GameEngine) (i j : nat) (marks : Marks) :
  checkPair i j marks e = (marks, e)
  \/ exists c1 c2,
       nth_error (circles e) i = Some c1
       /\ nth_error (circles e) j = Some c2
       /\ i <> j
       /\ let c1' := fst (applyBounce c1 c2) in
          let c2' := snd (applyBounce c1 c2) in
          let w := fst (battleOf c1' c2') in
          let l := snd (battleOf c1' c2') in
          let e' := afterBattle i j c1' c2' e in
          checkPair i j marks e
          = ((add (fst marks) (id l), snd marks ++ [splitOf w e']),
             snd (createSplitCircle w e')).
Proof.
  destruct (nth_error (circles e) i) as [c1|] eqn:H1;
    [|left; apply checkPair_skip; intros; congruence].
  destruct (nth_error (circles e) j) as [c2|] eqn:H2;
    [|left; apply checkPair_skip; intros; congruence].
  destruct (has (fst marks) (id c1)) eqn:M1;
    [left; apply checkPair_skip; intros; congruence|].
  destruct (has (fst marks) (id c2)) eqn:M2;
    [left; apply checkPair_skip; intros; congruence|].
  destruct (isColliding c1 c2) eqn:Hc;
    [|left; apply checkPair_skip; intros; congruence].
  destruct (GameColor_eqb (color c1) (color c2)) eqn:E;
    [left; apply checkPair_skip; apply GameColor_eqb_eq in E; intros;
     congruence|].
  apply GameColor_eqb_neq in E. right. exists c1, c2.
  split; [reflexivity|]. split; [reflexivity|].
  split; [exact (battle_indices_differ e i j c1 c2 H1 H2 E)|].
  destruct marks as [tr ta].
  exact (checkPair_battle e i j tr ta c1 c2 H1 H2 M1 M2 Hc E).
Qed.

Lemma firstn_app_left {A : Type} (n : nat) (l l1 l2 : list A) :
  firstn n l1 = l -> List.length l = n -> firstn n (l1 ++ l2) = l.
Proof.
  intros H Hl. rewrite firstn_app, H.
  assert (n <= List.length l1)%nat as Hle.
  { rewrite <- Hl, <- H. rewrite length_firstn. lia. }
  replace (n - List.length l1)%nat with O by lia. cbn. apply app_nil_r.
Qed.

(** The engine after the particles of a battle: 14 more particles and
    70 more values of [Math.random()] used. *)
Lemma afterBattle_engine (i j : nat) (c1' c2' : Circle) (e : GameEngine) :
  circles (afterBattle i j c1' c2' e)
  = list_set j c2' (list_set i c1' (circles e))
  /\ random_calls (afterBattle i j c1' c2' e) = (70 + random_calls e)%nat
  /\ exists ps,
       particles (afterBattle i j c1' c2' e) = particles e ++ ps
       /\ List.length ps = 14%nat.
Proof.
  split; [apply afterBattle_circles|].
  unfold afterBattle. cbv zeta.
  generalize (fst (battleOf c1' c2')). intros w.
  generalize (set_circles (list_set j c2' (list_set i c1' (circles e))) e)
    (eq_refl : particles
                 (set_circles (list_set j c2' (list_set i c1' (circles e))) e)
               = particles e)
    (eq_refl : random_calls
                 (set_circles (list_set j c2' (list_set i c1' (circles e))) e)
               = random_calls e).
  intros eb Hb2 Hb3.
  pose proof (createCollisionParticles_engine c1' c2' eb) as Hcp.
  cbv zeta in Hcp. revert Hcp.
  generalize (snd (createCollisionParticles c1' c2' eb)). intros ec Hcp.
  pose proof (createSplitParticles_engine w ec) as Hsp.
  cbv zeta in Hsp. revert Hsp.
  generalize (snd (createSplitParticles w ec)). intros ea Hsp.
  destruct Hcp as [_ [R1 [ps1 [P1 [C1 _]]]]].
  destruct Hsp as [_ [R2 [ps2 [P2 [C2 _]]]]].
  split; [rewrite R2, R1, Hb3; lia|].
  exists (ps1 ++ ps2). split.
  - rewrite P2, P1, Hb2. now rewrite app_assoc.
  - rewrite length_app, <- (length_map p_color ps1),
      <- (length_map p_color ps2), C1, C2. reflexivity.
Qed.

Lemma checkPair_facts (e0 : GameEngine) (i j : nat) (marks : Marks)
    (e : GameEngine) :
  scanFacts e0 marks e ->
  scanFacts e0 (fst (checkPair i j marks e)) (snd (checkPair i j marks e)).
Proof.
  intros Inv.
  destruct (checkPair_cases e i j marks)
    as [-> | [c1 [c2 [H1 [H2 [Hij Hb]]]]]]; [exact Inv|].
  cbv zeta in Hb. rewrite Hb. clear Hb. cbn [fst snd].
  destruct Inv as [I1 [I2 [I3 [I4 I5]]]].
  destruct (applyBounce_keeps c1 c2) as [_ [K1 [_ [_ [K2 _]]]]].
  revert K1 K2.
  generalize (fst (applyBounce c1 c2)) (snd (applyBounce c1 c2)).
  intros c1' c2' K1 K2.
  pose proof (battleOf_winner c1' c2') as Hw. revert Hw.
  generalize (fst (battleOf c1' c2')). intros w Hw.
  rewrite createSplitCircle_engine.
  pose proof (splitOf_color w (afterBattle i j c1' c2' e)) as [Hn _].
  revert Hn. generalize (splitOf w (afterBattle i j c1' c2' e)).
  intros new Hn.
  destruct (afterBattle_engine i j c1' c2' e) as [Hcs [Hr [ps [Hp Hl]]]].
  revert Hcs Hr Hp. generalize (afterBattle i j c1' c2' e).
  intros ea Hcs Hr Hp.
  unfold scanFacts. cbn [fst snd].
  cbn [circles particles random_calls set_random_calls].
  split; [|split; [|split; [|split]]].
  - rewrite Hcs, <- I1.
    rewrite (map_list_set color j c2' (b := c2)); [| |exact K2].
    + now apply (map_list_set color i c1' (b := c1)).
    + now rewrite nth_error_list_set_neq.
  - intros c Hc. apply in_app_or in Hc. destruct Hc as [Hc | [<- | []]];
      [now apply I2|].
    rewrite Hn, <- I1.
    destruct Hw as [-> | ->].
    + rewrite K1. apply in_map. eapply nth_error_In. exact H1.
    + rewrite K2. apply in_map. eapply nth_error_In. exact H2.
  - rewrite Hp, !length_app, Hl, I3. cbn [List.length]. lia.
  - rewrite Hp. apply firstn_app_left; [exact I4|].
    rewrite <- I4 at 1. rewrite length_firstn. rewrite I3. lia.
  - rewrite Hr. rewrite length_app, I5. cbn [List.length]. lia.
Qed.

Lemma scanPairs_facts (n : nat) (e : GameEngine) :
  scanFacts e (fst (scanPairs n e)) (snd (scanPairs n e)).
Proof.
  unfold scanPairs. apply forEachWith_inv.
  - intros i c e' Hp. apply forEachWith_inv; [|exact Hp].
    intros j c' e'' Hp'. now apply checkPair_facts.
  - unfold scanFacts. cbn. repeat split; try tauto.
    apply firstn_all.
Qed.

End ScanFacts.

(* ================================================================= *)
(** * The outcome of a battle *)

Section BattleOutcome.
Context {NUM : Number} {RT : Runtime}.

Lemma forEachWith_app {A C : Type} (l1 l2 : list A)
    (body : A -> C -> Method C) (c : C) (e : GameEngine) :
  forEachWith (l1 ++ l2) body c e
  = forEachWith l2 body (fst (forEachWith l1 body c e))
                (snd (forEachWith l1 body c e)).
Proof.
  revert c e. induction l1 as [|a l1 IH]; intros c e; cbn; [reflexivity|].
  unfold bind. destruct (body a c e) as [c' e']. apply IH.
Qed.

Lemma forEachWith_map {A B C : Type} (f : A -> B) (l : list A)
    (body : B -> C -> Method C) (c : C) (e : GameEngine) :
  forEachWith (map f l) body c e = forEachWith l (fun a => body (f a)) c e.
Proof.
  revert c e. induction l as [|a l IH]; intros c e; cbn; [reflexivity|].
  unfold bind. destruct (body (f a) c e) as [c' e']. apply IH.
Qed.

(** The two nested loops visit the pairs of [pairsOf], in order. *)
Lemma nested_loops_flat (n : nat) (l : list nat) (m : Marks)
    (e : GameEngine) :
  forEachWith l (fun i marks =>
    forEachWith (seq (S i) (n - S i)) (fun j marks => checkPair i j marks)
                marks) m e
  = scanOver (flat_map (fun i => map (pair i) (seq (S i) (n - S i))) l) m e.
Proof.
  unfold scanOver. revert m e.
  induction l as [|i l IH]; intros m e; cbn [forEachWith flat_map];
    [reflexivity|].
  rewrite forEachWith_app, forEachWith_map. unfold bind. cbn [fst snd].
  destruct (forEachWith (seq (S i) (n - S i))
              (fun j marks => checkPair i j marks) m e) as [m' e'].
  cbn [fst snd]. apply IH.
Qed.

Lemma scanPairs_pairsOf (n : nat) (e : GameEngine) :
  scanPairs n e = scanOver (pairsOf n) ([], []) e.
Proof. apply nested_loops_flat. Qed.

Lemma nth_error_split {A : Type} (l : list A) (k : nat) (a : A) :
  nth_error l k = Some a -> l = firstn k l ++ a :: skipn (S k) l.
Proof.
  revert k. induction l as [|b l IH]; intros [|k] H; cbn in *;
    try discriminate.
  - now inversion H.
  - f_equal. now apply IH.
Qed.

(** The scan after the pair number [k] goes on from what the pair
    left. *)
Lemma scanPairs_from (e : GameEngine) (k i j : nat) :
  nth_error (pairsOf (List.length (circles e))) k = Some (i, j) ->
  let r := checkPair i j (fst (scanBefore k e)) (snd (scanBefore k e)) in
  scanPairs (List.length (circles e)) e
  = scanOver (skipn (S k) (pairsOf (List.length (circles e))))
             (fst r) (snd r).
Proof.
  intros Hk r. rewrite scanPairs_pairsOf.
  transitivity
    (scanOver (firstn k (pairsOf (List.length (circles e)))
               ++ (i, j) :: skipn (S k) (pairsOf (List.length (circles e))))
              ([], []) e);
    [now rewrite <- (nth_error_split _ _ _ Hk)|].
  unfold scanOver at 1. rewrite forEachWith_app.
  fold (scanOver (firstn k (pairsOf (List.length (circles e)))) ([], []) e).
  fold (scanBefore k e). cbn [forEachWith fst snd]. unfold bind.
  fold r. destruct r as [m' e']. reflexivity.
Qed.

Lemma scanGrows_refl (m : Marks) (e : GameEngine) : scanGrows m e m e.
Proof.
  split; [apply incl_refl|]. split; [exists []; now rewrite app_nil_r|].
  repeat split.
Qed.

Lemma scanGrows_trans (m1 m2 m3 : Marks) (e1 e2 e3 : GameEngine) :
  scanGrows m1 e1 m2 e2 -> scanGrows m2 e2 m3 e3 -> scanGrows m1 e1 m3 e3.
Proof.
  intros [A1 [[q1 A2] [A3 [A4 A5]]]] [B1 [[q2 B2] [B3 [B4 B5]]]].
  split; [exact (incl_tran A1 B1)|].
  split; [exists (q1 ++ q2); now rewrite B2, A2, app_assoc|].
  repeat split; congruence.
Qed.

(** What [applyBounce] keeps of the two circles of a battle, the list
    of the circles keeps. *)
Lemma afterBattle_map {B : Type} (f : Circle -> B) (cs : list Circle)
    (i j : nat) (c1 c2 : Circle) :
  nth_error cs i = Some c1 ->
  nth_error cs j = Some c2 ->
  i <> j ->
  f (fst (applyBounce c1 c2)) = f c1 ->
  f (snd (applyBounce c1 c2)) = f c2 ->
  map f (list_set j (snd (applyBounce c1 c2))
           (list_set i (fst (applyBounce c1 c2)) cs))
  = map f cs.
Proof.
  intros H1 H2 Hij K1 K2.
  rewrite (map_list_set f j _ (b := c2)); [| |exact K2].
  - now apply (map_list_set f i _ (b := c1)).
  - now rewrite nth_error_list_set_neq.
Qed.

Lemma checkPair_grows (i j : nat) (m : Marks) (e : GameEngine) :
  scanGrows m e (fst (checkPair i j m e)) (snd (checkPair i j m e)).
Proof.
  destruct (checkPair_cases e i j m)
    as [-> | [c1 [c2 [H1 [H2 [Hij Hb]]]]]]; [apply scanGrows_refl|].
  cbv zeta in Hb. rewrite Hb. clear Hb. cbn [fst snd].
  destruct (applyBounce_keeps c1 c2) as [K1 [K2 [K3 [K4 [K5 K6]]]]].
  split; [intros a Ha; apply add_iff; now right|].
  split; [eexists; reflexivity|].
  rewrite createSplitCircle_circles, afterBattle_circles.
  repeat split; now apply afterBattle_map.
Qed.

Lemma scanOver_grows (ps : list (nat * nat)) (m : Marks) (e : GameEngine) :
  scanGrows m e (fst (scanOver ps m e)) (snd (scanOver ps m e)).
Proof.
  unfold scanOver. revert m e.
  induction ps as [|p ps IH]; intros m e; cbn [forEachWith];
    [apply scanGrows_refl|].
  unfold bind.
  pose proof (checkPair_grows (fst p) (snd p) m e) as Hp.
  destruct (checkPair (fst p) (snd p) m e) as [m' e']. cbn [fst snd] in Hp.
  exact (scanGrows_trans _ _ _ _ _ _ Hp (IH m' e')).
Qed.

(** The circle at an index of one list, from the circle at that index
    of a list with the same ids. *)
Lemma nth_error_same_map {B : Type} (f : Circle -> B) (l l' : list Circle)
    (n : nat) (a : Circle) :
  map f l' = map f l -> nth_error l n = Some a ->
  exists a', nth_error l' n = Some a' /\ f a' = f a.
Proof.
  intros Hm Hn.
  pose proof (nth_error_map f n l') as H'. rewrite Hm in H'.
  rewrite nth_error_map, Hn in H'. cbn in H'.
  destruct (nth_error l' n) as [a'|]; [|discriminate].
  exists a'. split; [reflexivity|]. cbn in H'. congruence.
Qed.

(** C4 (as amended).  For every battle of the scan of
    [checkCollisions] (two circles not marked, in collision, of
    different colours), with [w0] the circle whose colour beats the
    colour of the other, [l0]:
    - the battle marks exactly one id, that of [l0], and queues exactly
      one circle, [new], of the colour of [w0] and of the standard size;
    - right after the battle the winner is in [this.circles], with its
      id, colour and size, and with the position and the velocity
      [applyBounce] gave it: the bounce runs on both circles before the
      battle is decided;
    - at the end of the call no circle of the list it scanned with the
      id of [l0] is left, and [new] is in the list;
    - at the end of the scan the winner is still at its index with its
      id, colour and size; it is in the list at the end of the call
      unless its own id has been marked, by a later battle of the same
      scan that it lost, and then no circle with its id is left. *)
Theorem battle_keeps_bounced_winner (e : GameEngine) (k i j : nat)
    (c1 c2 : Circle) :
  battleAt e k i j c1 c2 ->
  let marked := fst (fst (scanBefore k e)) in
  let queued := snd (fst (scanBefore k e)) in
  let r := checkPair i j (fst (scanBefore k e)) (snd (scanBefore k e)) in
  let scan := scanPairs (List.length (circles e)) e in
  let toRemove := fst (fst scan) in
  let toAdd := snd (fst scan) in
  let kept :=
    filter (fun c => negb (has toRemove (id c))) (circles (snd scan)) in
  exists (iw il : nat) (w0 l0 w l new : Circle),
    ((iw = i /\ il = j /\ w0 = c1 /\ l0 = c2
      /\ w = fst (applyBounce c1 c2) /\ l = snd (applyBounce c1 c2))
     \/ (iw = j /\ il = i /\ w0 = c2 /\ l0 = c1
         /\ w = snd (applyBounce c1 c2) /\ l = fst (applyBounce c1 c2)))
    /\ beats (color w0) (color l0) = true
    /\ (fst r = (add marked (id l0), queued ++ [new])
        /\ ~ In (id l0) marked
        /\ List.length (add marked (id l0)) = S (List.length marked)
        /\ color new = color w0 /\ size new = CIRCLE_SIZE)
    /\ (nth_error (circles (snd r)) iw = Some w
        /\ id w = id w0 /\ color w = color w0 /\ size w = size w0)
    /\ circles (snd (checkCollisions e)) = kept ++ toAdd
    /\ (In (id l0) toRemove /\ forall c, In c kept -> id c <> id l0)
    /\ (In new toAdd /\ In new (circles (snd (checkCollisions e))))
    /\ exists w_end : Circle,
         nth_error (circles (snd scan)) iw = Some w_end
         /\ (id w_end = id w0 /\ color w_end = color w0
             /\ size w_end = size w0)
         /\ (has toRemove (id w0) = false ->
             In w_end (circles (snd (checkCollisions e))))
         /\ (has toRemove (id w0) = true ->
             forall c, In c kept -> id c <> id w0).
Proof.
  intros [Hk [H1 [H2 [M1 [M2 [Hc Hne]]]]]].
  intros marked queued r scan toRemove toAdd kept.
  pose proof (scanPairs_from e k i j Hk) as Hscan. cbv zeta in Hscan.
  fold r scan in Hscan.
  pose proof (scanOver_grows
                (skipn (S k) (pairsOf (List.length (circles e))))
                (fst r) (snd r)) as Hg.
  rewrite <- Hscan in Hg. destruct Hg as [G1 [[more G2] [G3 [G4 G5]]]].
  fold toRemove in G1. fold toAdd in G2.
  pose proof (checkCollisions_circles e) as Hcs. cbv zeta in Hcs.
  fold scan in Hcs. fold toRemove toAdd kept in Hcs.
  assert (forall a c, In a toRemove -> In c kept -> id c <> a) as Hgone.
  { intros a c Ha Hin E. apply filter_In in Hin. destruct Hin as [_ Hin].
    apply negb_true_iff in Hin. apply has_false in Hin. congruence. }
  assert (fst (scanBefore k e) = (marked, queued)) as Hm
    by (subst marked queued; now destruct (fst (scanBefore k e))).
  subst r. rewrite Hm in *.
  destruct (battle_step (snd (scanBefore k e)) i j marked queued c1 c2
              H1 H2 M1 M2 Hc Hne)
    as (iw & il & w0 & l0 & w & l & new & Hwl & B & Hf & Hn & Hlen & Hw & _
        & _ & Kw & _ & Cn & Sn).
  cbv zeta in Hf, Hw.
  exists iw, il, w0, l0, w, l, new.
  split; [exact Hwl|]. split; [exact B|].
  split; [repeat split; assumption|].
  split; [split; [exact Hw | exact Kw]|].
  split; [exact Hcs|].
  assert (In (id l0) toRemove) as Hl0.
  { apply G1. rewrite Hf. cbn [fst]. apply add_iff. now left. }
  split; [split; [exact Hl0 | intros c; now apply Hgone]|].
  assert (In new toAdd) as Hnew.
  { rewrite G2, Hf. cbn [snd]. apply in_or_app. left.
    apply in_or_app. right. now left. }
  split; [split; [exact Hnew | rewrite Hcs; apply in_or_app; now right]|].
  destruct (nth_error_same_map id _ _ iw w G3 Hw) as [w_end [Hwe Ei]].
  exists w_end. split; [exact Hwe|].
  assert (color w_end = color w) as Ec.
  { pose proof (nth_error_map color iw (circles (snd scan))) as E1.
    rewrite G4, nth_error_map, Hw, Hwe in E1. cbn in E1. congruence. }
  assert (size w_end = size w) as Es.
  { pose proof (nth_error_map size iw (circles (snd scan))) as E1.
    rewrite G5, nth_error_map, Hw, Hwe in E1. cbn in E1. congruence. }
  destruct Kw as [Kw1 [Kw2 Kw3]].
  split; [repeat split; congruence|].
  split.
  - intros Hfree. rewrite Hcs. apply in_or_app. left.
    apply filter_In. split; [eapply nth_error_In; exact Hwe|].
    apply negb_true_iff. congruence.
  - intros Hmk c. apply Hgone. now apply has_true.
Qed.

End BattleOutcome.

Section Frames2.
Context {NUM : Number} {RT : Runtime}.

(** Removing the circles whose id is marked removes at least as many
    circles as there are marks, whether ids are shared or not. *)
Lemma marked_count_le (cs : list Circle) (toRemove : set string) :
  NoDup toRemove -> incl toRemove (map id cs) ->
  (List.length toRemove
   <= List.length (filter (fun c => has toRemove (id c)) cs))%nat.
Proof.
  intros Htr Hin.
  rewrite <- (length_map id (filter _ cs)).
  apply NoDup_incl_length; [exact Htr|].
  intros a Ha. pose proof (Hin a Ha) as Hm.
  apply in_map_iff in Hm. destruct Hm as [c [<- Hc]].
  apply in_map. apply filter_In. split; [exact Hc|]. now apply has_true.
Qed.

Lemma checkCollisions_engine (e : GameEngine) :
  let scan := scanPairs (List.length (circles e)) e in
  particles (snd (checkCollisions e)) = particles (snd scan)
  /\ random_calls (snd (checkCollisions e)) = random_calls (snd scan).
Proof.
  unfold checkCollisions, bind, read, update. cbn.
  destruct (scanPairs _ e) as [[tr ta] e']. split; reflexivity.
Qed.

Lemma checkCollisions_length_le (e : GameEngine) :
  (List.length (circles (snd (checkCollisions e)))
   <= List.length (circles e))%nat.
Proof.
  rewrite checkCollisions_circles. cbv zeta.
  pose proof (scanPairs_inv (List.length (circles e)) e) as Inv.
  revert Inv. generalize (scanPairs (List.length (circles e)) e).
  intros [[tr ta] e'] [I1 [I2 [I3 I4]]]. cbn [fst snd] in *.
  rewrite length_app, I4.
  pose proof (filter_length (fun c => has tr (id c)) (circles e')) as Hf.
  assert (incl tr (map id (circles e'))) as Hin by (now rewrite I1).
  pose proof (marked_count_le (circles e') tr I2 Hin) as Hle.
  rewrite <- (length_map id (circles e)), <- I1, length_map. lia.
Qed.

Lemma checkCollisions_colors (e : GameEngine) (c : Circle) :
  In c (circles (snd (checkCollisions e))) ->
  In (color c) (map color (circles e)).
Proof.
  rewrite checkCollisions_circles. cbv zeta.
  pose proof (scanPairs_facts (List.length (circles e)) e) as Inv.
  revert Inv. generalize (scanPairs (List.length (circles e)) e).
  intros [[tr ta] e'] [I1 [I2 _]]. cbn [fst snd] in *.
  intros H. apply in_app_or in H. destruct H as [H | H]; [|now apply I2].
  apply filter_In in H. rewrite <- I1. apply in_map. tauto.
Qed.

(** The circles and the particles after a call of [gameLoop] on a
    running engine are those that [checkCollisions] leaves. *)
Lemma gameLoop_lists (e : GameEngine) :
  isRunning e = true ->
  circles (snd (gameLoop e)) = circles (beforeWinCheck e)
  /\ particles (snd (gameLoop e)) = particles (beforeWinCheck e).
Proof.
  intros H. rewrite (gameLoop_running e H). cbv zeta.
  cbn [circles particles set_animationId set_frames].
  destruct (checkWinCondition_cases (beforeWinCheck e))
    as [[k [_ ->]] | [_ ->]]; split; reflexivity.
Qed.

Lemma beforeWinCheck_length_le (e : GameEngine) :
  (List.length (circles (beforeWinCheck e)) <= List.length (circles e))%nat.
Proof.
  unfold beforeWinCheck.
  etransitivity; [apply checkCollisions_length_le|].
  change (circles (updateParticles (updateCircles e)))
    with (circles (updateCircles e)).
  now rewrite (proj1 (updateCircles_pointwise e)).
Qed.

Lemma beforeWinCheck_colors (e : GameEngine) (c : Circle) :
  In c (circles (beforeWinCheck e)) -> In (color c) (map color (circles e)).
Proof.
  unfold beforeWinCheck. intros H. apply checkCollisions_colors in H.
  change (circles (updateParticles (updateCircles e)))
    with (circles (updateCircles e)) in H.
  rewrite (updateCircles_maps e GameColor color) in H; [exact H|].
  intros; apply moveCircle_keeps.
Qed.

Lemma runFrame_lists (e : GameEngine) :
  circles (runFrame e) = circles e
  \/ exists e', circles e' = circles e
                /\ circles (runFrame e) = circles (beforeWinCheck e').
Proof.
  unfold runFrame. destruct (frame_requests e) as [|h rest]; [now left|].
  destruct (isRunning e) eqn:Hrun.
  - right. exists (set_frames (frame_handles e) rest e).
    split; [reflexivity|].
    now apply gameLoop_lists.
  - left. now rewrite gameLoop_stopped.
Qed.

End Frames2.

Section PopulationOverFrames.
Context {NUM : Number} {RT : Runtime}.

(** Every circle after any number of frames has the colour of a
    circle from before. *)
Lemma frames_colors (n : nat) (e : GameEngine) (c : Circle) :
  In c (circles (Nat.iter n runFrame e)) ->
  In (color c) (map color (circles e)).
Proof.
  revert e c. induction n as [|n IH]; intros e c Hc; [now apply in_map|].
  change (Nat.iter (S n) runFrame e)
    with (runFrame (Nat.iter n runFrame e)) in Hc.
  destruct (runFrame_lists (Nat.iter n runFrame e)) as [E | [e' [H1 E]]];
    rewrite E in Hc; [now apply IH|].
  apply beforeWinCheck_colors in Hc. rewrite H1 in Hc.
  apply in_map_iff in Hc. destruct Hc as [c' [<- Hc']]. now apply IH.
Qed.

(** X3.  The number of circles never grows: not in [checkCollisions],
    whether the circles have different ids or not, and so not in a call
    of [gameLoop] nor over any number of frames. *)
Theorem population_never_grows :
  (forall e : GameEngine,
      List.length (circles (snd (checkCollisions e)))
      <= List.length (circles e))%nat
  /\ (forall e : GameEngine,
      List.length (circles (snd (gameLoop e))) <= List.length (circles e))%nat
  /\ (forall (n : nat) (e : GameEngine),
      List.length (circles (Nat.iter n runFrame e))
      <= List.length (circles e))%nat.
Proof.
  split; [apply checkCollisions_length_le|].
  assert (forall e : GameEngine,
             List.length (circles (runFrame e)) <= List.length (circles e))%nat
    as Hframe.
  { intros e. destruct (runFrame_lists e) as [-> | [e' [H1 ->]]]; [lia|].
    rewrite <- H1. apply beforeWinCheck_length_le. }
  split.
  - intros e. destruct (isRunning e) eqn:Hrun.
    + rewrite (proj1 (gameLoop_lists e Hrun)). apply beforeWinCheck_length_le.
    + rewrite gameLoop_stopped by exact Hrun. cbn. lia.
  - intros n e. induction n as [|n IH]; [cbn; lia|].
    change (Nat.iter (S n) runFrame e)
      with (runFrame (Nat.iter n runFrame e)).
    etransitivity; [apply Hframe | exact IH].
Qed.

(** X4.  A colour without circles stays without: every circle after
    [checkCollisions], and after any number of frames, has the colour
    of a circle from before; so a count that is zero stays zero. *)
Theorem extinct_colour_stays_extinct :
  (forall (e : GameEngine) (c : Circle),
      In c (circles (snd (checkCollisions e))) ->
      In (color c) (map color (circles e)))
  /\ (forall (n : nat) (e : GameEngine) (c : Circle),
      In c (circles (Nat.iter n runFrame e)) ->
      In (color c) (map color (circles e)))
  /\ (forall (n : nat) (e : GameEngine) (k : GameColor),
      liveCount k e = O -> liveCount k (Nat.iter n runFrame e) = O).
Proof.
  split; [apply checkCollisions_colors|].
  pose proof frames_colors as H.
  split; [exact H|].
  intros n e k Hk. apply liveCount_zero. apply liveCount_zero in Hk.
  intros Hin. apply Hk. apply in_map_iff in Hin. destruct Hin as [c [<- Hc]].
  now apply (H n).
Qed.

(** X5.  [createCollisionParticles] appends six particles of type
    collision, of the colours of the two circles in turn, and uses 30
    values of [Math.random()]; [createSplitParticles] appends eight
    particles of type split, of the colour of the circle, and uses 40;
    each particle starts with its [maxLife] as [life]; nothing else of
    the engine changes.  [checkCollisions] keeps the particles there
    were and appends 14 for each circle it adds, and it adds as many
    circles as it marks ids for removal. *)
Theorem battle_particles :
  (forall (c1 c2 : Circle) (e : GameEngine),
      let e' := snd (createCollisionParticles c1 c2 e) in
      besideParticles e e'
      /\ random_calls e' = (30 + random_calls e)%nat
      /\ exists ps,
           particles e' = particles e ++ ps
           /\ map p_color ps
              = [color c1; color c2; color c1; color c2; color c1; color c2]
           /\ Forall (fun p => type p = collision /\ maxLife p = life p) ps)
  /\ (forall (w : Circle) (e : GameEngine),
      let e' := snd (createSplitParticles w e) in
      besideParticles e e'
      /\ random_calls e' = (40 + random_calls e)%nat
      /\ exists ps,
           particles e' = particles e ++ ps
           /\ map p_color ps = repeat (color w) 8
           /\ Forall (fun p => type p = split /\ maxLife p = life p) ps)
  /\ (forall e : GameEngine,
      let scan := scanPairs (List.length (circles e)) e in
      let toRemove := fst (fst scan) in
      let toAdd := snd (fst scan) in
      List.length toAdd = List.length toRemove
      /\ List.length (particles (snd (checkCollisions e)))
         = (14 * List.length toAdd + List.length (particles e))%nat
      /\ firstn (List.length (particles e))
                (particles (snd (checkCollisions e)))
         = particles e
      /\ random_calls (snd (checkCollisions e))
         = (74 * List.length toAdd + random_calls e)%nat).
Proof.
  split.
  { intros c1 c2 e e'.
    destruct (createCollisionParticles_engine c1 c2 e)
      as [B [R [ps [P [C F]]]]].
    split; [exact B|]. split; [exact R|]. exists ps.
    split; [exact P|]. split; [exact C|].
    eapply Forall_impl; [|exact F]. cbv beta. tauto. }
  split.
  { intros w e e'.
    destruct (createSplitParticles_engine w e) as [B [R [ps [P [C F]]]]].
    split; [exact B|]. split; [exact R|]. exists ps.
    split; [exact P|]. split; [exact C|].
    eapply Forall_impl; [|exact F]. cbv beta. tauto. }
  intros e scan toRemove toAdd.
  destruct (checkCollisions_engine e) as [Hp Hr]. fold scan in Hp, Hr.
  destruct (scanPairs_inv (List.length (circles e)) e) as [_ [_ [_ I4]]].
  destruct (scanPairs_facts (List.length (circles e)) e)
    as [_ [_ [F3 [F4 F5]]]].
  fold scan in I4, F3, F4, F5. fold toAdd in I4, F3, F5.
  fold toRemove in I4.
  rewrite Hp, Hr. auto.
Qed.

Lemma soleSurvivor_circles (k : GameColor) (e e' : GameEngine) :
  circles e' = circles e -> soleSurvivor k e -> soleSurvivor k e'.
Proof. unfold soleSurvivor, liveCount. now intros ->. Qed.

Lemma liveCount_present (k : GameColor) (e : GameEngine) :
  (0 < liveCount k e)%nat -> In k (map color (circles e)).
Proof.
  intros H.
  assert (forall a b : GameColor, {a = b} + {a <> b}) as dec
    by decide equality.
  destruct (in_dec dec k (map color (circles e))) as [Hin | Hout];
    [exact Hin|].
  apply liveCount_zero in Hout. lia.
Qed.

(** One call of [gameLoop] on a running engine: no call of
    [onGameEnd], or one, of a colour some circle had before the call,
    the only colour left then; and the engine is not running. *)
Lemma gameLoop_reports (e : GameEngine) :
  isRunning e = true ->
  onGameEnd_calls (snd (gameLoop e)) = onGameEnd_calls e
  \/ exists k,
       onGameEnd_calls (snd (gameLoop e)) = onGameEnd_calls e ++ [k]
       /\ isRunning (snd (gameLoop e)) = false
       /\ soleSurvivor k (snd (gameLoop e))
       /\ In k (map color (circles e)).
Proof.
  intros Hrun.
  pose proof (proj1 (gameLoop_lists e Hrun)) as Hcs.
  rewrite (gameLoop_running e Hrun) in *. cbv zeta in *.
  destruct (checkWinCondition_cases (beforeWinCheck e))
    as [[k [Hk Hw]] | [_ Hw]]; rewrite Hw in *;
    cbn [snd onGameEnd_calls isRunning set_animationId set_frames
         set_onGameEnd_calls set_isRunning] in *.
  - right. exists k.
    split; [now rewrite (beforeWinCheck_host e host_side_onGameEnd_calls)|].
    split; [reflexivity|].
    split; [exact (soleSurvivor_circles k _ _ Hcs Hk)|].
    pose proof (liveCount_present k _ (proj1 Hk)) as Hin.
    apply in_map_iff in Hin. destruct Hin as [c [<- Hc]].
    now apply beforeWinCheck_colors.
  - left. apply (beforeWinCheck_host e host_side_onGameEnd_calls).
Qed.

Lemma runFrame_reports (e : GameEngine) :
  onGameEnd_calls (runFrame e) = onGameEnd_calls e
  \/ exists k,
       onGameEnd_calls (runFrame e) = onGameEnd_calls e ++ [k]
       /\ isRunning (runFrame e) = false
       /\ soleSurvivor k (runFrame e)
       /\ In k (map color (circles e)).
Proof.
  unfold runFrame. destruct (frame_requests e) as [|h rest]; [now left|].
  destruct (isRunning e) eqn:Hrun.
  - apply (gameLoop_reports (set_frames (frame_handles e) rest e) Hrun).
  - left. now rewrite gameLoop_stopped.
Qed.

(** X20.  Over any number of frames, from any state, a colour is
    reported to [onGameEnd] only if some circle had that colour at the
    start; once it is reported the engine is not running, and at every
    later frame the circles left all have that colour and there is at
    least one. *)
Theorem reported_winner_was_present (n : nat) (e : GameEngine) :
  exists calls,
    onGameEnd_calls (Nat.iter n runFrame e) = onGameEnd_calls e ++ calls
    /\ forall k, In k calls ->
         In k (map color (circles e))
         /\ isRunning (Nat.iter n runFrame e) = false
         /\ soleSurvivor k (Nat.iter n runFrame e).
Proof.
  induction n as [|n IH].
  - exists []. cbn. rewrite app_nil_r. split; [reflexivity | intros k []].
  - destruct IH as [calls [Hc Hk]].
    change (Nat.iter (S n) runFrame e)
      with (runFrame (Nat.iter n runFrame e)).
    destruct calls as [|k0 calls].
    + rewrite app_nil_r in Hc.
      destruct (runFrame_reports (Nat.iter n runFrame e))
        as [H | [k [H1 [H2 [H3 H4]]]]].
      * exists []. rewrite app_nil_r, H, Hc.
        split; [reflexivity | intros k []].
      * exists [k]. rewrite H1, Hc. split; [reflexivity|].
        intros k' [<- | []]. split; [|split; assumption].
        apply in_map_iff in H4. destruct H4 as [c [<- Hin]].
        now apply (frames_colors n).
    + destruct (Hk k0 (or_introl eq_refl)) as [_ [Hstop _]].
      destruct (runFrame_stopped _ Hstop) as [J1 [J2 [_ J4]]].
      exists (k0 :: calls). rewrite J4. split; [exact Hc|].
      intros k Hin. destruct (Hk k Hin) as [K1 [_ K3]].
      split; [exact K1|]. split; [exact J1|].
      exact (soleSurvivor_circles k _ _ J2 K3).
Qed.

End PopulationOverFrames.

(* ================================================================= *)
(** * Starting and stopping *)

Section Stopping.
Context {NUM : Number} {RT : Runtime}.

(** X6.  [reset] (and [destroy], which calls it) leaves an engine that
    is not running and has no circles and no particles; it makes no
    call of [onGameEnd]; when the engine holds the handle of a frame
    request, that request is cancelled and the handle dropped; no
    number of frames run afterwards changes any of this; a second
    [reset] changes nothing.  After a call of [gameLoop] that found no
    other request pending, no request at all is left. *)
Theorem reset_stops_engine (e : GameEngine) :
  let e' := snd (reset e) in
  (isRunning e' = false /\ circles e' = [] /\ particles e' = []
   /\ onGameEnd_calls e' = onGameEnd_calls e)
  /\ (forall h : nat, animationId e = Some (S h) ->
        animationId e' = None
        /\ frame_requests e'
           = filter (fun h' => negb (Nat.eqb h' (S h))) (frame_requests e)
        /\ ~ In (S h) (frame_requests e'))
  /\ (animationId e = None \/ animationId e = Some O ->
        animationId e' = animationId e
        /\ frame_requests e' = frame_requests e)
  /\ (forall n : nat,
        let e'' := Nat.iter n runFrame e' in
        isRunning e'' = false /\ circles e'' = [] /\ particles e'' = []
        /\ onGameEnd_calls e'' = onGameEnd_calls e)
  /\ snd (reset e') = e'
  /\ snd (destroy e) = e'
  /\ (isRunning e = true -> frame_requests e = [] ->
        frame_requests (snd (reset (snd (gameLoop e)))) = []).
Proof.
  intros e'.
  assert (isRunning e' = false /\ circles e' = [] /\ particles e' = []
          /\ onGameEnd_calls e' = onGameEnd_calls e) as H1.
  { subst e'. unfold reset, bind, update, read, cancelAnimationFrame.
    destruct e as [cs ps [[|h]|] r a pw ph cw ch rc fh fr og];
      cbn; repeat split. }
  split; [exact H1|].
  split.
  { intros h Hh. subst e'.
    unfold reset, bind, update, read, cancelAnimationFrame.
    destruct e as [cs ps an r a pw ph cw ch rc fh fr og]. cbn in *.
    subst an. cbn. split; [reflexivity|]. split; [reflexivity|].
    intros Hin. apply filter_In in Hin. destruct Hin as [_ Hin].
    now rewrite Nat.eqb_refl in Hin. }
  split.
  { intros Hh. subst e'. unfold reset, bind, update, read.
    destruct e as [cs ps an r a pw ph cw ch rc fh fr og]. cbn in *.
    destruct Hh as [-> | ->]; cbn; split; reflexivity. }
  split.
  { intros n e''. destruct H1 as [R1 [R2 [R3 R4]]].
    destruct (@frames_stopped NUM RT n e' R1) as [F1 [F2 [F3 F4]]].
    subst e''. rewrite F2, F3, F4. auto. }
  split.
  { subst e'. unfold reset, bind, update, read, cancelAnimationFrame.
    destruct e as [cs ps [[|h]|] r a pw ph cw ch rc fh fr og];
      cbn; reflexivity. }
  split; [reflexivity|].
  intros Hrun Hfr. rewrite (gameLoop_running e Hrun). cbv zeta.
  assert (frame_requests (snd (checkWinCondition (beforeWinCheck e))) = [])
    as Hq.
  { rewrite <- Hfr, <- (beforeWinCheck_host e host_side_frame_requests).
    destruct (checkWinCondition_cases (beforeWinCheck e))
      as [[k [_ ->]] | [_ ->]]; reflexivity. }
  revert Hq. generalize (snd (checkWinCondition (beforeWinCheck e))).
  intros e1 Hq. unfold reset, bind, update, read, cancelAnimationFrame.
  destruct e1 as [cs ps an r a pw ph cw ch rc fh fr og]. cbn in *.
  subst fr. cbn. now rewrite Nat.eqb_refl.
Qed.

End Stopping.

Section Seeding.
Context {NUM : Number} {RT : Runtime}.

Lemma besideCircles_refl (e : GameEngine) : besideCircles e e.
Proof. unfold besideCircles. now destruct e. Qed.

Lemma besideCircles_trans (e1 e2 e3 : GameEngine) :
  besideCircles e1 e2 -> besideCircles e2 e3 -> besideCircles e1 e3.
Proof.
  unfold besideCircles. intros H1 H2.
  destruct e1, e2, e3. cbn in *.
  injection H1; intros; subst. injection H2; intros; subst. reflexivity.
Qed.

Lemma seeded_beside (k : GameColor) (e e' : GameEngine) (c : Circle) :
  besideCircles e e' -> seeded k e' c -> seeded k e c.
Proof.
  unfold besideCircles, seeded, squareLeft, squareRight, squareTop,
    squareBottom.
  intros H. destruct e, e'. cbn in *. injection H; intros; subst. assumption.
Qed.

Lemma createCircleGroup_engine (k : GameColor) (center : Vector2D)
    (e : GameEngine) :
  let e' := snd (createCircleGroup k center e) in
  besideCircles e e'
  /\ random_calls e' = (300 + random_calls e)%nat
  /\ exists cs,
       circles e' = circles e ++ cs
       /\ List.length cs = 100%nat
       /\ Forall (seeded k e) cs.
Proof.
  unfold createCircleGroup.
  pose (I := fun (done : list nat) (e' : GameEngine) =>
    besideCircles e e'
    /\ random_calls e' = (3 * List.length done + random_calls e)%nat
    /\ exists cs,
         circles e' = circles e ++ cs
         /\ List.length cs = List.length done
         /\ Forall (seeded k e) cs).
  match goal with
  | |- context [forEach ?l ?body e] =>
      assert (I l (snd (forEach l body e))) as H
  end.
  { apply forEach_indexed.
    - split; [apply besideCircles_refl|]. split; [reflexivity|].
      exists []. split; [now rewrite app_nil_r|].
      split; [reflexivity | constructor].
    - intros done i e' [Hb [Hr [cs [Hp [Hl Hf]]]]]. subst I. cbv beta.
      unfold besideCircles, seeded, squareLeft, squareRight, squareTop,
        squareBottom in *.
      destruct e, e'.
      cbn -[Nat.mul] in *. injection Hb; intros; subst.
      split; [reflexivity|]. split; [rewrite length_app; cbn; lia|].
      eexists. split; [rewrite <- app_assoc; reflexivity|]. split.
      + rewrite !length_app, Hl. reflexivity.
      + apply Forall_app. split; [exact Hf|]. constructor; [|constructor].
        split; [reflexivity|]. split; [reflexivity|].
        split; [eexists; reflexivity|]. split; [eexists; reflexivity|].
        eexists. split; reflexivity. }
  destruct H as [Hb [Hr [cs [Hp [Hl Hf]]]]].
  rewrite length_seq in Hr, Hl.
  split; [exact Hb|]. split; [exact Hr|]. exists cs. auto.
Qed.

Lemma initializeCircles_engine (e : GameEngine) :
  let e' := snd (initializeCircles e) in
  besideCircles e e'
  /\ random_calls e' = (900 + random_calls e)%nat
  /\ exists bs rs gs,
       circles e' = bs ++ rs ++ gs
       /\ (List.length bs = 100 /\ List.length rs = 100
           /\ List.length gs = 100)%nat
       /\ Forall (seeded blue e) bs /\ Forall (seeded red e) rs
       /\ Forall (seeded green e) gs.
Proof.
  unfold initializeCircles, bind, update, read. cbn [fst snd].
  set (e0 := set_circles [] e).
  assert (besideCircles e e0) as B0 by (unfold besideCircles; now destruct e).
  match goal with
  | |- context [createCircleGroup blue ?c e0] =>
      pose proof (createCircleGroup_engine blue c e0) as Hb;
      cbv zeta in Hb; revert Hb;
      generalize (createCircleGroup blue c e0)
  end.
  intros [[] e1] [B1 [R1 [bs [C1 [L1 F1]]]]]. cbn [fst snd] in *.
  match goal with
  | |- context [createCircleGroup red ?c e1] =>
      pose proof (createCircleGroup_engine red c e1) as Hr;
      cbv zeta in Hr; revert Hr;
      generalize (createCircleGroup red c e1)
  end.
  intros [[] e2] [B2 [R2 [rs [C2 [L2 F2]]]]]. cbn [fst snd] in *.
  match goal with
  | |- context [createCircleGroup green ?c e2] =>
      pose proof (createCircleGroup_engine green c e2) as Hg;
      cbv zeta in Hg; revert Hg;
      generalize (createCircleGroup green c e2)
  end.
  intros [[] e3] [B3 [R3 [gs [C3 [L3 F3]]]]]. cbn [fst snd] in *.
  pose proof (besideCircles_trans _ _ _ B0 B1) as B01.
  pose proof (besideCircles_trans _ _ _ B01 B2) as B02.
  split; [exact (besideCircles_trans _ _ _ B02 B3)|].
  split; [rewrite R3, R2, R1; subst e0; cbn; lia|].
  exists bs, rs, gs.
  split; [rewrite C3, C2, C1; subst e0; cbn; now rewrite app_assoc|].
  split; [auto|].
  split; [|split].
  - eapply Forall_impl; [|exact F1]. intros c. now apply seeded_beside.
  - eapply Forall_impl; [|exact F2]. intros c. now apply seeded_beside.
  - eapply Forall_impl; [|exact F3]. intros c. now apply seeded_beside.
Qed.

Lemma seeded_colors (k : GameColor) (e : GameEngine) (cs : list Circle) :
  Forall (seeded k e) cs -> map color cs = repeat k (List.length cs).
Proof.
  induction 1 as [|c cs Hc _ IH]; cbn; [reflexivity|].
  now rewrite IH, (proj1 Hc).
Qed.

Lemma initializeCircles_length (e : GameEngine) :
  List.length (circles (snd (initializeCircles e))) = 300%nat.
Proof.
  destruct (initializeCircles_engine e)
    as [_ [_ [bs [rs [gs [C [[L1 [L2 L3]] _]]]]]]].
  rewrite C, !length_app. lia.
Qed.

(** X7.  [initializeCircles] drops the circles there were and makes
    300 new ones: 100 blue, then 100 red, then 100 green, each of the
    standard size; so the score is 100 for each colour.  It uses 900
    values of [Math.random()] and changes nothing else of the engine. *)
Theorem initializeCircles_seeds (e : GameEngine) :
  let e' := snd (initializeCircles e) in
  besideCircles e e'
  /\ random_calls e' = (900 + random_calls e)%nat
  /\ map color (circles e')
     = repeat blue 100 ++ repeat red 100 ++ repeat green 100
  /\ Forall (fun c => size c = CIRCLE_SIZE) (circles e')
  /\ List.length (circles e') = 300%nat
  /\ getColorCounts e' = [(blue, 100); (red, 100); (green, 100)]%nat.
Proof.
  intros e'.
  destruct (initializeCircles_engine e)
    as [B [R [bs [rs [gs [C [[L1 [L2 L3]] [F1 [F2 F3]]]]]]]]].
  fold e' in B, R, C.
  assert (map color (circles e')
          = repeat blue 100 ++ repeat red 100 ++ repeat green 100) as Hc.
  { rewrite C, !map_app.
    rewrite (seeded_colors _ _ _ F1), (seeded_colors _ _ _ F2),
      (seeded_colors _ _ _ F3), L1, L2, L3. reflexivity. }
  split; [exact B|]. split; [exact R|]. split; [exact Hc|].
  split.
  { rewrite C. repeat (apply Forall_app; split);
      (eapply Forall_impl; [|eassumption]); intros c Hs; apply Hs. }
  split; [apply initializeCircles_length|].
  rewrite getColorCounts_liveCount, !liveCount_colors, Hc. reflexivity.
Qed.

End Seeding.

(* ================================================================= *)
(** * The positions after the bounce, in real arithmetic *)

Section RealSeparation.
#[local] Existing Instance Real.number.
Import Real RealLaws.
Local Open Scope R_scope.

Lemma isColliding_distance (c1 c2 : @Circle Real.number) :
  isColliding c1 c2 = true
  <-> distanceBetween c1 c2 < (size c1 + size c2) / 2.
Proof.
  unfold isColliding, distanceBetween. cbn -[sqrt Rltb].
  replace ((x c1 - x c2) * (x c1 - x c2) + (y c1 - y c2) * (y c1 - y c2))
    with ((x c2 - x c1) * (x c2 - x c1) + (y c2 - y c1) * (y c2 - y c1))
    by ring.
  apply Rltb_true.
Qed.

(** The positions after [applyBounce] of two circles that overlap and
    whose centres do not coincide. *)
Lemma applyBounce_position (c1 c2 : @Circle Real.number) :
  0 < distanceBetween c1 c2 ->
  distanceBetween c1 c2 < (size c1 + size c2) / 2 ->
  let nx := fst (directionTo c1 c2) in
  let ny := snd (directionTo c1 c2) in
  let overlap := (size c1 + size c2) / 2 - distanceBetween c1 c2 in
  x (fst (applyBounce c1 c2)) = x c1 - nx * overlap * (5 / 10)
  /\ y (fst (applyBounce c1 c2)) = y c1 - ny * overlap * (5 / 10)
  /\ x (snd (applyBounce c1 c2)) = x c2 + nx * overlap * (5 / 10)
  /\ y (snd (applyBounce c1 c2)) = y c2 + ny * overlap * (5 / 10).
Proof.
  intros Hd Hc. unfold applyBounce, directionTo, distanceBetween in *.
  cbn -[sqrt Rltb Reqb] in *.
  set (d := sqrt ((x c2 - x c1) * (x c2 - x c1)
                  + (y c2 - y c1) * (y c2 - y c1))) in *.
  destruct (Reqb d 0) eqn:E; [apply Reqb_true in E; lra|].
  assert (Rltb 0 ((size c1 + size c2) / 2 - d) = true) as Ho
    by (apply Rltb_true; lra).
  rewrite Ho.
  repeat match goal with
         | |- context [if Rltb 0 (sqrt ?a) then _ else _] =>
             destruct (Rltb 0 (sqrt a))
         end; cbn; repeat split.
Qed.

End RealSeparation.

(* ================================================================= *)
(** * The arenas that are not square *)

Section RoundArena.
Context {NUM : Number}.
Local Open Scope num_scope.



End RoundArena.

(* ================================================================= *)
(** * The life of the particles *)

Section Particles.
Context {NUM : Number}.
Local Open Scope num_scope.

Lemma filter_map_comm {A B : Type} (f : B -> bool) (g : A -> B)
    (l : list A) :
  filter f (map g l) = map g (filter (fun a => f (g a)) l).
Proof.
  induction l as [|a l IH]; cbn; [reflexivity|].
  destruct (f (g a)); cbn; now rewrite IH.
Qed.

Lemma filter_filter {A : Type} (f g : A -> bool) (l : list A) :
  filter g (filter f l) = filter (fun a => f a && g a) l.
Proof.
  induction l as [|a l IH]; cbn; [reflexivity|].
  destruct (f a); cbn; [destruct (g a)|]; now rewrite IH.
Qed.

(** A particle after [k] updates: 1/60 has been taken off its life
    [k] times, and what identifies it is as it was. *)
Lemma updateParticle_iter (k : nat) (p : Particle) :
  let q := Nat.iter k updateParticle p in
  life q = fadeAfter k (life p)
  /\ p_id q = p_id p /\ p_color q = p_color p /\ p_size q = p_size p
  /\ maxLife q = maxLife p /\ type q = type p.
Proof.
  cbv zeta. unfold fadeAfter.
  induction k as [|k IH]; [repeat split|].
  rewrite !Nat.iter_succ. destruct IH as [I1 [I2 [I3 [I4 [I5 I6]]]]].
  rewrite <- I1, <- I2, <- I3, <- I4, <- I5, <- I6. repeat split.
Qed.

Lemma updateParticles_particles (e : GameEngine) :
  particles (updateParticles e)
  = filter (fun p => life p >? of_Z 0) (map updateParticle (particles e)).
Proof. reflexivity. Qed.

Lemma lasts_succ (n : nat) (p : Particle) :
  lasts (S n) p
  = lasts n p && (life (Nat.iter (S n) updateParticle p) >? of_Z 0).
Proof.
  unfold lasts. rewrite seq_S, forallb_app. cbn [forallb Nat.add].
  rewrite andb_true_r.
  now rewrite (proj1 (updateParticle_iter (S n) p)).
Qed.

Lemma updateParticles_iter (n : nat) (e : GameEngine) :
  particles (Nat.iter n updateParticles e)
  = map (Nat.iter n updateParticle) (filter (lasts n) (particles e))
  /\ set_particles (particles e) (Nat.iter n updateParticles e) = e.
Proof.
  induction n as [|n [IH1 IH2]].
  - split; [|now destruct e]. cbn [Nat.iter nat_rect].
    induction (particles e) as [|p ps IH]; [reflexivity|].
    cbn. now rewrite <- IH.
  - rewrite Nat.iter_succ. split.
    + rewrite updateParticles_particles, IH1, map_map, filter_map_comm,
        filter_filter.
      rewrite (map_ext _ (Nat.iter (S n) updateParticle))
        by (intros p; now rewrite Nat.iter_succ).
      f_equal. apply filter_ext. intros p.
      now rewrite lasts_succ, Nat.iter_succ.
    + transitivity (set_particles (particles e)
                      (Nat.iter n updateParticles e)); [|exact IH2].
      now destruct (Nat.iter n updateParticles e).
Qed.

(** X11.  In every number implementation, the particles fade one by
    one, each on its own.  After [n] calls of [updateParticles] the
    particles are those that each of the [n] calls has kept, in their
    order, each updated [n] times; a call keeps a particle when its
    life, 1/60 taken off once more, is above zero, so a particle is
    dropped by the first call that finds its life not above zero.  A
    particle that is kept has its id, colour, size, [maxLife] and
    type; after a call every particle has a life above zero; the
    number of particles never grows, and nothing but the particles
    changes. *)
Theorem particles_fade (n : nat) (e : GameEngine) :
  let e' := Nat.iter n updateParticles e in
  particles e'
  = map (Nat.iter n updateParticle) (filter (lasts n) (particles e))
  /\ (forall p : Particle,
        let q := Nat.iter n updateParticle p in
        life q = fadeAfter n (life p)
        /\ p_id q = p_id p /\ p_color q = p_color p /\ p_size q = p_size p
        /\ maxLife q = maxLife p /\ type q = type p)
  /\ Forall (fun p => (life p >? of_Z 0) = true)
            (particles (updateParticles e'))
  /\ (List.length (particles e') <= List.length (particles e))%nat
  /\ set_particles (particles e) e' = e.
Proof.
  intros e'. destruct (updateParticles_iter n e) as [H1 H2].
  fold e' in H1, H2.
  split; [exact H1|]. split; [exact (updateParticle_iter n)|].
  split.
  { rewrite updateParticles_particles. apply Forall_forall.
    intros p Hp. apply filter_In in Hp. tauto. }
  split; [|exact H2].
  rewrite H1, length_map. apply filter_length_le.
Qed.

End Particles.

(* ================================================================= *)
(** * The arenas in real arithmetic *)

Section RealSeeding.
#[local] Existing Instance Real.number.
Import Real RealLaws.
Local Open Scope R_scope.

Lemma setArena_width (s : ArenaShape) (z : ArenaSize) (e : GameEngine) :
  PLAYFIELD_WIDTH (setArena s z e)
  = (Rmin (canvas_width e) (canvas_height e) - 20)
    * match z with small => 7 / 10 | medium => 85 / 100 | large => 1 end
  /\ PLAYFIELD_HEIGHT (setArena s z e)
     = PLAYFIELD_WIDTH (setArena s z e)
       * match s with
         | square | circle => 1
         | hexagon | triangle => 866 / 1000
         end.
Proof.
  unfold setArena, createArenaConfig, baseSizeOf, decimal.
  destruct s, z; cbn; split; try reflexivity; lra.
Qed.

(** X14.  In real arithmetic, the arena [setArena] makes is as wide as
    the smaller extent of the canvas less 20, times 0.7, 0.85 or 1 by
    the size class, and the playfield extents are those of the arena.
    When the smaller extent is at least 20 + 250/7 (about 55.7), every
    arena is at least as wide as a circle: in a square arena the bounds
    of a circle are in order, left <= right and top <= bottom, and in
    the other arenas the radius for a circle is not negative.  Below
    that extent the small arena is narrower than a circle. *)
Theorem arenas_fit_circles (s : ArenaShape) (z : ArenaSize) (e : GameEngine) :
  let e' := setArena s z e in
  let extent := Rmin (canvas_width e) (canvas_height e) in
  (shape (currentArena e') = s /\ a_size (currentArena e') = z
   /\ PLAYFIELD_WIDTH e' = width (currentArena e')
   /\ PLAYFIELD_HEIGHT e' = height (currentArena e')
   /\ canvas_width e' = canvas_width e /\ canvas_height e' = canvas_height e)
  /\ PLAYFIELD_WIDTH e'
     = (extent - 20)
       * match z with small => 7 / 10 | medium => 85 / 100 | large => 1 end
  /\ (20 + 250 / 7 <= extent ->
      25 <= PLAYFIELD_WIDTH e'
      /\ forall c : @Circle Real.number, size c = 25 ->
           (s = square ->
              squareLeft e' c <= squareRight e' c
              /\ squareTop e' c <= squareBottom e' c)
           /\ 0 <= arenaRadius e' c)
  /\ (extent < 20 + 250 / 7 -> z = small -> PLAYFIELD_WIDTH e' < 25).
Proof.
  intros e' extent.
  destruct (setArena_width s z e) as [Hw Hh]. fold e' extent in Hw, Hh.
  split.
  { subst e'. unfold setArena, createArenaConfig.
    destruct s, z; cbn; repeat split. }
  split; [exact Hw|].
  split.
  - intros Hext.
    assert (25 <= PLAYFIELD_WIDTH e') as H25
      by (rewrite Hw; destruct z; nra).
    split; [exact H25|]. intros c Hc. split.
    + intros Hsq. unfold squareLeft, squareRight, squareTop, squareBottom.
      rewrite Hh, Hc, Hsq. revert H25.
      generalize (PLAYFIELD_WIDTH e') (canvas_width e') (canvas_height e').
      intros W cw ch H25. cbn. lra.
    + unfold arenaRadius. rewrite Hc. revert H25.
      generalize (PLAYFIELD_WIDTH e'). intros W H25. cbn. lra.
  - intros Hext ->. rewrite Hw. nra.
Qed.

End RealSeeding.

(* ================================================================= *)
(** * Starting a game *)

Section Starting.
Context {NUM : Number} {RT : Runtime}.

Lemma besideCircles_host {B : Type} (f : GameEngine -> B) (e e' : GameEngine) :
  host_side f -> besideCircles e e' -> f e' = f e.
Proof.
  intros [Hc [_ Hr]] H. rewrite H. now rewrite Hr, Hc.
Qed.

Lemma getRandomArena_engine (e : GameEngine) :
  snd (getRandomArena e) = set_random_calls (2 + random_calls e) e
  /\ forall arena, fst (getRandomArena e) = Some arena ->
       exists s z, arena = createArenaConfig s z (baseSizeOf e).
Proof.
  unfold getRandomArena, bind, random, read, ret. cbn [fst snd].
  split; [now destruct e|].
  intros arena.
  destruct (atFloor _ _) as [s|]; [|discriminate].
  destruct (atFloor _ _) as [z|]; [|discriminate].
  intros [= <-]. exists s, z. now destruct e.
Qed.

(** What a call of [gameLoop] on a running engine leaves of the arena
    and of the frame requests. *)
Lemma gameLoop_schedules (e : GameEngine) :
  isRunning e = true ->
  let e' := snd (gameLoop e) in
  (currentArena e' = currentArena e
   /\ PLAYFIELD_WIDTH e' = PLAYFIELD_WIDTH e
   /\ PLAYFIELD_HEIGHT e' = PLAYFIELD_HEIGHT e)
  /\ frame_requests e' = frame_requests e ++ [S (frame_handles e)]
  /\ frame_handles e' = S (frame_handles e)
  /\ animationId e' = Some (S (frame_handles e)).
Proof.
  intros H e'. subst e'. rewrite (gameLoop_running e H). cbv zeta.
  assert (host_side currentArena) as H1 by (repeat split).
  assert (host_side PLAYFIELD_WIDTH) as H2 by (repeat split).
  assert (host_side PLAYFIELD_HEIGHT) as H3 by (repeat split).
  rewrite <- (beforeWinCheck_host e H1), <- (beforeWinCheck_host e H2),
    <- (beforeWinCheck_host e H3),
    <- (beforeWinCheck_host e host_side_frame_requests),
    <- (beforeWinCheck_host e host_side_frame_handles).
  destruct (checkWinCondition_cases (beforeWinCheck e))
    as [[k [_ ->]] | [_ ->]]; cbn; repeat split.
Qed.

(** [startGame], when it gets an arena. *)
Lemma startGame_engine (e e' : GameEngine) :
  startGame e = Some e' ->
  (exists s z,
      currentArena e' = createArenaConfig s z (baseSizeOf e)
      /\ PLAYFIELD_WIDTH e' = width (currentArena e')
      /\ PLAYFIELD_HEIGHT e' = height (currentArena e'))
  /\ (frame_requests e' = frame_requests e ++ [S (frame_handles e)]
      /\ animationId e' = Some (S (frame_handles e)))
  /\ (List.length (circles e') <= 300)%nat
  /\ ((isRunning e' = true /\ onGameEnd_calls e' = onGameEnd_calls e)
      \/ (isRunning e' = false
          /\ exists k, onGameEnd_calls e' = onGameEnd_calls e ++ [k])).
Proof.
  unfold startGame.
  destruct (getRandomArena_engine e) as [G1 G2]. revert G1 G2.
  generalize (getRandomArena e). intros [[arena|] e1]; [|discriminate].
  cbn [fst snd]. intros -> G2. destruct (G2 arena eq_refl) as [s [z Ha]].
  unfold bind, update. cbn [fst snd].
  set (e2 := set_isRunning true
               (set_arena arena (set_random_calls (2 + random_calls e) e))).
  pose proof (proj1 (initializeCircles_engine e2)) as B.
  pose proof (initializeCircles_length e2) as L. cbv zeta in B.
  revert B L. generalize (initializeCircles e2). intros [[] e3].
  cbn [fst snd]. intros B L [= <-].
  assert (isRunning e3 = true) as Hrun
    by (rewrite (besideCircles_host isRunning e2 e3 host_side_isRunning B);
        reflexivity).
  destruct (gameLoop_schedules e3 Hrun) as [[A1 [A2 A3]] [F1 [F2 F3]]].
  assert (host_side currentArena) as H1 by (repeat split).
  assert (host_side PLAYFIELD_WIDTH) as H2 by (repeat split).
  assert (host_side PLAYFIELD_HEIGHT) as H3 by (repeat split).
  rewrite (besideCircles_host currentArena e2 e3 H1 B) in A1.
  rewrite (besideCircles_host PLAYFIELD_WIDTH e2 e3 H2 B) in A2.
  rewrite (besideCircles_host PLAYFIELD_HEIGHT e2 e3 H3 B) in A3.
  rewrite (besideCircles_host frame_requests e2 e3
             host_side_frame_requests B) in F1.
  rewrite (besideCircles_host frame_handles e2 e3
             host_side_frame_handles B) in F1, F3.
  split.
  { exists s, z. rewrite A1, A2, A3. subst e2. cbn. now rewrite Ha. }
  split; [split; [exact F1 | exact F3]|].
  split.
  { rewrite <- L.
    rewrite (proj1 (gameLoop_lists e3 Hrun)).
    apply beforeWinCheck_length_le. }
  destruct (gameLoop_notifies e3) as [N | [N1 [k N2]]].
  - left. split.
    + rewrite (gameLoop_running e3 Hrun). cbv zeta.
      destruct (checkWinCondition_cases (beforeWinCheck e3))
        as [[k [_ Hk]] | [_ Hk]].
      * exfalso. rewrite (gameLoop_running e3 Hrun) in N. cbv zeta in N.
        rewrite Hk in N. cbn in N.
        rewrite (beforeWinCheck_host e3 host_side_onGameEnd_calls) in N.
        apply (f_equal (@List.length GameColor)) in N.
        rewrite length_app in N. cbn in N. lia.
      * rewrite Hk. cbn.
        now rewrite (beforeWinCheck_host e3 host_side_isRunning).
    + rewrite N.
      now rewrite (besideCircles_host onGameEnd_calls e2 e3
                     host_side_onGameEnd_calls B).
  - right. split; [exact N1|]. exists k. rewrite N2.
    now rewrite (besideCircles_host onGameEnd_calls e2 e3
                   host_side_onGameEnd_calls B).
Qed.

End Starting.

Section RealStarting.
#[local] Existing Instance Real.number.
Import Real RealLaws.
Local Open Scope R_scope.

Lemma floor_exists (n : nat) (v : R) :
  0 <= v < INR n -> exists i, (i < n)%nat /\ INR i <= v < INR (S i).
Proof.
  induction n as [|n IH]; intros [H0 Hn].
  - cbn in Hn. lra.
  - destruct (Rlt_le_dec v (INR n)) as [Hlt | Hge].
    + destruct (IH (conj H0 Hlt)) as [i [Hi Hv]]. exists i. split; [lia|auto].
    + exists n. split; [lia|]. split; assumption.
Qed.

(** [l[Math.floor(v)]] is an element of [l] when [0 <= v < l.length]. *)
Lemma atFloor_defined {A : Type} (l : list A) (v : R) :
  0 <= v < INR (List.length l) -> exists a, atFloor l v = Some a.
Proof.
  intros Hv. destruct (floor_exists _ v Hv) as [i [Hi [H1 H2]]].
  unfold atFloor.
  destruct (find _ (seq 0 (List.length l))) as [j|] eqn:F.
  - apply find_some in F. destruct F as [Hj _].
    apply in_seq in Hj.
    destruct (nth_error l j) as [a|] eqn:E; [now exists a|].
    apply nth_error_None in E. lia.
  - exfalso.
    assert (In i (seq 0 (List.length l))) as Hin by (apply in_seq; lia).
    pose proof (find_none _ _ F i Hin) as Hn. cbv beta in Hn.
    cbn [of_Z nleb nltb Real.number] in Hn.
    rewrite <- !INR_IZR_INZ in Hn.
    assert (Rleb (INR i) v = true) as E1 by (now apply Rleb_true).
    assert (Rltb v (INR (S i)) = true) as E2 by (now apply Rltb_true).
    rewrite E1, E2 in Hn. discriminate.
Qed.

(** X15.  In real arithmetic, with the values of [Math.random()] in
    [0, 1), [startGame] always gets an arena, one of the twelve that
    [createArenaConfig] makes for the canvas, and the playfield extents
    are those of the arena.  It asks for exactly one frame and cancels
    none: the requests pending before are still pending.  At most 300
    circles are left by its first call of [gameLoop], and at most one
    call of [onGameEnd] is made, after which the engine is not
    running. *)
Theorem startGame_starts (RT : Runtime) (e : GameEngine) :
  (forall n : nat, 0 <= Math_random n < 1) ->
  exists e',
    startGame e = Some e'
    /\ (exists s z,
          currentArena e' = createArenaConfig s z (baseSizeOf e)
          /\ PLAYFIELD_WIDTH e' = width (currentArena e')
          /\ PLAYFIELD_HEIGHT e' = height (currentArena e'))
    /\ (frame_requests e' = frame_requests e ++ [S (frame_handles e)]
        /\ animationId e' = Some (S (frame_handles e)))
    /\ (List.length (circles e') <= 300)%nat
    /\ ((isRunning e' = true /\ onGameEnd_calls e' = onGameEnd_calls e)
        \/ (isRunning e' = false
            /\ exists k, onGameEnd_calls e' = onGameEnd_calls e ++ [k])).
Proof.
  intros Hrand.
  assert (exists e', startGame e = Some e') as [e' He'].
  { unfold startGame, getRandomArena, bind, random, read, ret.
    cbn [fst snd].
    destruct (atFloor_defined [square; circle; hexagon; triangle]
                (@Math_random Real.number RT (random_calls e) * 4))
      as [s Hs].
    { cbn. specialize (Hrand (random_calls e)). lra. }
    destruct (atFloor_defined [small; medium; large]
                (@Math_random Real.number RT
                   (random_calls (set_random_calls (S (random_calls e)) e))
                 * 3)) as [z Hz].
    { cbn. match goal with |- context [Math_random ?n] =>
             specialize (Hrand n) end. lra. }
    cbn [List.length Z.of_nat of_Z nmul Real.number] in *.
    change (IZR (Z.pos (Pos.of_succ_nat 3))) with 4.
    change (IZR (Z.pos (Pos.of_succ_nat 2))) with 3.
    rewrite Hs, Hz. eexists. reflexivity. }
  exists e'. split; [exact He'|].
  now apply startGame_engine.
Qed.

End RealStarting.

(* ================================================================= *)
(** * The bank of the player *)

Section RealBank.
#[local] Existing Instance Real.number.
Import Real RealLaws.
Local Open Scope R_scope.

Lemma handleGameEnd_settles (w : GameColor) (s : @SimulationGame Real.number) :
  soundGame s -> gamePhase s = playing ->
  let s' := handleGameEnd w s in
  (predictedWinner (bettingState s) = Some w ->
     bank (bettingState s')
     = bank (bettingState s) + wager (bettingState s)
     /\ gamePhase s' = ended)
  /\ (predictedWinner (bettingState s) <> Some w ->
     bank (bettingState s')
     = bank (bettingState s) - wager (bettingState s)
     /\ (gamePhase s' = broke
         <-> wager (bettingState s) = bank (bettingState s))
     /\ (gamePhase s' = ended
         <-> wager (bettingState s) < bank (bettingState s)))
  /\ game_winner s' = Some w
  /\ soundGame s'.
Proof.
  intros [Hb [Hbr [Hpl Hen]]] Hp s'.
  destruct (Hpl Hp) as [[Hw1 Hw2] [color Hc]].
  subst s'. unfold handleGameEnd, soundGame. rewrite Hc.
  cbn -[Rleb].
  destruct (GameColor_eqb color w) eqn:E.
  - apply GameColor_eqb_eq in E. subst color.
    assert (Rleb (bank (bettingState s) + wager (bettingState s)) 0 = false)
      as -> by (apply Rleb_false; lra).
    cbn. split; [auto|]. split; [congruence|]. split; [reflexivity|].
    split; [lra|]. split; [split; [discriminate | lra]|].
    split; [discriminate | eauto].
  - apply GameColor_eqb_neq in E.
    destruct (Rleb (bank (bettingState s) - wager (bettingState s)) 0)
      eqn:L; cbn.
    + apply Rleb_true in L.
      split; [intros [= ->]; congruence|].
      split; [intros _; split; [reflexivity|]; split;
              [split; [lra | reflexivity]
              |split; [discriminate | lra]]|].
      split; [reflexivity|].
      split; [lra|]. split; [split; [lra | reflexivity]|].
      split; discriminate.
    + apply Rleb_false in L.
      split; [intros [= ->]; congruence|].
      split; [intros _; split; [reflexivity|]; split;
              [split; [discriminate | lra]
              |split; [lra | reflexivity]]|].
      split; [reflexivity|].
      split; [lra|]. split; [split; [discriminate | lra]|].
      split; [discriminate | eauto].
Qed.

Lemma dispatch_sound (ev : GameEvent) (b : BettingInterface)
    (s : @SimulationGame Real.number) :
  soundGame s -> soundGame (snd (dispatch ev (b, s))).
Proof.
  intros Hs.
  assert (soundGame (handleQuit s)) as Hq.
  { unfold handleQuit, soundGame. cbn.
    split; [lra|]. split; [split; [discriminate | lra]|].
    split; discriminate. }
  pose proof Hs as [Hb [Hbr [Hpl Hen]]].
  unfold dispatch.
  destruct (gamePhase s) eqn:Hp; destruct ev; cbn [snd]; try exact Hs.
  - (* ready, PressPlay *)
    unfold handleStartBetting, soundGame. cbn.
    split; [exact Hb|].
    split; [split; [discriminate|]; intros H0; apply Hbr in H0; congruence|].
    split; discriminate.
  - (* betting, PressPlaceBet *)
    unfold handleBetSubmit. destruct (selectedColor b) as [color|];
      [|exact Hs].
    destruct (nleb (wagerAmount b) (of_Z 0)) eqn:L1; [exact Hs|].
    destruct (nltb (bank (bettingState s)) (wagerAmount b)) eqn:L2;
      [exact Hs|].
    apply Rleb_false in L1. apply Rltb_false in L2. cbn in L1.
    cbn [snd]. unfold handlePlaceBet, soundGame. cbn.
    split; [exact Hb|].
    split; [split; [discriminate|]; intros H0; apply Hbr in H0; congruence|].
    split; [intros _; split; [lra | eauto]|]. discriminate.
  - (* betting, PressCancel *)
    unfold soundGame. cbn.
    split; [exact Hb|].
    split; [split; [discriminate|]; intros H0; apply Hbr in H0; congruence|].
    split; discriminate.
  - (* playing, GameEnds *)
    apply (handleGameEnd_settles winningColor s Hs Hp).
  - (* ended, PressPlayAgain *)
    destruct (game_winner s); [|exact Hs]. cbn [snd].
    unfold handleRestart, soundGame. cbn.
    split; [exact Hb|].
    split; [split; [discriminate|]; intros H0; apply Hbr in H0; congruence|].
    split; discriminate.
  - (* ended, PressQuit *)
    destruct (game_winner s); [exact Hq | exact Hs].
  - (* broke, PressQuit *)
    exact Hq.
Qed.

(** X16.  In real arithmetic, whatever the player does and however
    the games end, the bank is never negative, and it is zero exactly
    in the phase [broke]; a bet is placed only on a chosen colour, for
    a wager above zero that the bank covers; when a game ends the
    wager is added to the bank if the predicted colour has won and
    taken off it otherwise, and the player is broke exactly when the
    lost wager was the whole bank. *)
Theorem bank_never_negative :
  (forall events : list GameEvent, soundGame (snd (play events)))
  /\ (forall (b : BettingInterface) (s : @SimulationGame Real.number),
        snd (handleBetSubmit b s) = s
        \/ (exists color,
              selectedColor b = Some color
              /\ 0 < wagerAmount b <= bank (bettingState s)
              /\ snd (handleBetSubmit b s)
                 = handlePlaceBet (wagerAmount b) color s
              /\ errorMessage (fst (handleBetSubmit b s)) = EmptyString))
  /\ (forall (w : GameColor) (s : @SimulationGame Real.number),
        soundGame s -> gamePhase s = playing ->
        let s' := handleGameEnd w s in
        (predictedWinner (bettingState s) = Some w ->
           bank (bettingState s')
           = bank (bettingState s) + wager (bettingState s)
           /\ gamePhase s' = ended)
        /\ (predictedWinner (bettingState s) <> Some w ->
           bank (bettingState s')
           = bank (bettingState s) - wager (bettingState s)
           /\ (gamePhase s' = broke
               <-> wager (bettingState s) = bank (bettingState s))
           /\ (gamePhase s' = ended
               <-> wager (bettingState s) < bank (bettingState s)))
        /\ game_winner s' = Some w).
Proof.
  split; [|split].
  - intros events. unfold play.
    assert (soundGame (snd (initialBettingInterface, @initialGame Real.number)))
      as H0.
    { unfold soundGame, initialGame. cbn.
      split; [lra|]. split; [split; [discriminate | lra]|].
      split; discriminate. }
    revert H0.
    generalize (initialBettingInterface, @initialGame Real.number).
    induction events as [|ev events IH]; intros ui H0; [exact H0|].
    cbn [fold_left]. apply IH. destruct ui as [b s].
    now apply dispatch_sound.
  - intros b s. unfold handleBetSubmit.
    destruct (selectedColor b) as [color|]; [|now left].
    destruct (nleb (wagerAmount b) (of_Z 0)) eqn:L1; [now left|].
    destruct (nltb (bank (bettingState s)) (wagerAmount b)) eqn:L2;
      [now left|].
    apply Rleb_false in L1. apply Rltb_false in L2. cbn in L1.
    right. exists color. cbn. repeat split; auto; lra.
  - intros w s Hs Hp s'.
    destruct (handleGameEnd_settles w s Hs Hp) as [H1 [H2 [H3 _]]].
    auto.
Qed.

End RealBank.

(* ================================================================= *)
(** * NaN in a round arena narrower than a circle (binary64) *)

Module Float64Edge.
Import Float64 Float64Spec Float64Laws.
#[local] Existing Instance Float64.number.

Lemma is_nan_spec (a : float) :
  PrimFloat.is_nan a = true <-> Prim2SF a = S754_nan.
Proof.
  split.
  - intros H. destruct (Prim2SF a) eqn:E; try reflexivity;
      assert (is_number a) as Hn
        by (apply is_number_spec; rewrite E; discriminate);
      unfold is_number in Hn; congruence.
  - intros H. destruct (PrimFloat.is_nan a) eqn:E; [reflexivity|].
    apply is_number_spec in E. contradiction.
Qed.

Lemma nan_mul (a b : float) :
  PrimFloat.is_nan a = true \/ PrimFloat.is_nan b = true ->
  PrimFloat.is_nan (PrimFloat.mul a b) = true.
Proof.
  rewrite !is_nan_spec, mul_spec. intros [-> | ->]; [reflexivity|].
  now destruct (Prim2SF a).
Qed.

Lemma nan_add (a b : float) :
  PrimFloat.is_nan a = true \/ PrimFloat.is_nan b = true ->
  PrimFloat.is_nan (PrimFloat.add a b) = true.
Proof.
  rewrite !is_nan_spec, add_spec. intros [-> | ->]; [reflexivity|].
  now destruct (Prim2SF a).
Qed.

Lemma nan_sub (a b : float) :
  PrimFloat.is_nan a = true \/ PrimFloat.is_nan b = true ->
  PrimFloat.is_nan (PrimFloat.sub a b) = true.
Proof.
  rewrite !is_nan_spec, sub_spec. intros [-> | ->]; [reflexivity|].
  now destruct (Prim2SF a).
Qed.

(** X17.  In binary64, in a circle, hexagon or triangle arena narrower
    than a circle, so that the radius for its centre is negative, the
    boundary handling divides zero by zero for a circle whose centre is
    the centre of the canvas: the position and the velocity it leaves
    are NaN. *)
Theorem narrow_round_arena_gives_nan (e : GameEngine) (c : Circle) :
  shape (currentArena e) <> square ->
  is_finite (x c) -> is_finite (y c) ->
  x c = (canvas_width e / of_Z 2)%num ->
  y c = (canvas_height e / of_Z 2)%num ->
  (arenaRadius e c <? of_Z 0)%num = true ->
  let c' := handleArenaBoundaries e c in
  PrimFloat.is_nan (x c') = true /\ PrimFloat.is_nan (y c') = true
  /\ PrimFloat.is_nan (vx c') = true /\ PrimFloat.is_nan (vy c') = true.
Proof.
  intros Hs Fx Fy Hx Hy Hr c'.
  assert (c' = handleCircleBoundaries e c (canvas_width e / of_Z 2)%num
                 (canvas_height e / of_Z 2)%num) as ->.
  { subst c'. unfold handleArenaBoundaries, handleHexagonBoundaries,
      handleTriangleBoundaries. cbv zeta.
    destruct (shape (currentArena e)); [congruence | | |]; reflexivity. }
  unfold handleCircleBoundaries. cbv zeta.
  rewrite <- Hx, <- Hy.
  cbn [nsub nadd nmul ndiv nsqrt nltb of_Z Float64.number].
  rewrite (float_sub_diag _ Fx), (float_sub_diag _ Fy).
  change (PrimFloat.sqrt
            (PrimFloat.add (PrimFloat.mul PrimFloat.zero PrimFloat.zero)
                           (PrimFloat.mul PrimFloat.zero PrimFloat.zero)))
    with PrimFloat.zero.
  unfold arenaRadius in Hr.
  cbn [nsub nadd nmul ndiv nsqrt nltb of_Z Float64.number] in Hr.
  change (float_of_Z 0) with PrimFloat.zero in Hr.
  rewrite Hr.
  change (PrimFloat.div PrimFloat.zero PrimFloat.zero) with PrimFloat.nan.
  cbn [x y vx vy].
  assert (PrimFloat.is_nan PrimFloat.nan = true) as Hn by reflexivity.
  repeat split.
  - apply nan_add. right. apply nan_mul. now left.
  - apply nan_add. right. apply nan_mul. now left.
  - apply nan_sub. right. apply nan_mul. now right.
  - apply nan_sub. right. apply nan_mul. now right.
Qed.

End Float64Edge.

(* ================================================================= *)
(** * The first circles in binary64 *)

Module Float64Seeding.
Import Float64 Float64Spec.
#[local] Existing Instance Float64.number.
#[local] Existing Instance Float64Laws.laws.

(** [Math.max] and [Math.min] give NaN when an argument is NaN: a
    clamped value that is a number comes from a number. *)
Lemma clamped_number (lo hi a : float) :
  PrimFloat.is_nan (float_max lo (float_min hi a)) = false ->
  is_number a.
Proof.
  unfold float_max, float_min, is_number.
  destruct (PrimFloat.is_nan hi) eqn:Eh;
    destruct (PrimFloat.is_nan a) eqn:Ea; cbn [orb];
    try reflexivity;
    destruct (PrimFloat.is_nan lo) eqn:El; cbn [orb];
    try (intros H; vm_compute in H; discriminate H).
Qed.

(** X13.  In binary64, when the bounds that [handleSquareBoundaries]
    keeps for a circle of the standard size are in order (left <=
    right and top <= bottom: the arena is at least as wide and as high
    as a circle), every circle that [initializeCircles] makes has each
    coordinate of its centre within these bounds, those of the square
    whatever the shape of the arena, unless the coordinate is NaN. *)
Theorem initial_circles_placed (RT : Runtime) (e : GameEngine) :
  (forall c : Circle, size c = CIRCLE_SIZE ->
      PrimFloat.leb (squareLeft e c) (squareRight e c) = true
      /\ PrimFloat.leb (squareTop e c) (squareBottom e c) = true) ->
  Forall (fun c : Circle =>
            (PrimFloat.is_nan (x c) = false ->
               PrimFloat.leb (squareLeft e c) (x c) = true
               /\ PrimFloat.leb (x c) (squareRight e c) = true)
            /\ (PrimFloat.is_nan (y c) = false ->
                  PrimFloat.leb (squareTop e c) (y c) = true
                  /\ PrimFloat.leb (y c) (squareBottom e c) = true))
         (circles (snd (initializeCircles e))).
Proof.
  intros Hbounds.
  assert (forall k c, seeded k e c ->
            (PrimFloat.is_nan (x c) = false ->
               PrimFloat.leb (squareLeft e c) (x c) = true
               /\ PrimFloat.leb (x c) (squareRight e c) = true)
            /\ (PrimFloat.is_nan (y c) = false ->
                  PrimFloat.leb (squareTop e c) (y c) = true
                  /\ PrimFloat.leb (y c) (squareBottom e c) = true)) as Hc.
  { intros k c [_ [Hs [[px Hx] [[py Hy] _]]]].
    destruct (Hbounds c Hs) as [Hlr Htb].
    split; intros Hn.
    - rewrite Hx in Hn |- *.
      exact (clamp_within (squareLeft e c) (squareRight e c) px
               (clamped_number _ _ _ Hn) Hlr).
    - rewrite Hy in Hn |- *.
      exact (clamp_within (squareTop e c) (squareBottom e c) py
               (clamped_number _ _ _ Hn) Htb). }
  destruct (initializeCircles_engine e)
    as [_ [_ [bs [rs [gs [C [_ [F1 [F2 F3]]]]]]]]].
  rewrite C.
  repeat (apply Forall_app; split);
    (eapply Forall_impl; [|eassumption]); intros c Hsd;
    eapply Hc; exact Hsd.
Qed.

End Float64Seeding.

(* ================================================================= *)
(** * The order of two circles *)

Section RealSymmetry.
#[local] Existing Instance Real.number.
Import Real RealLaws.
Local Open Scope R_scope.

Local Ltac real_ring :=
  match goal with |- ?a = ?b => change (@eq R a b) end; ring.

Lemma circle_eq (c d : @Circle Real.number) :
  id c = id d -> x c = x d -> y c = y d -> vx c = vx d -> vy c = vy d ->
  color c = color d -> size c = size d -> c = d.
Proof. destruct c, d. cbn. intros; subst; reflexivity. Qed.

Lemma distanceBetween_sym (c1 c2 : @Circle Real.number) :
  distanceBetween c2 c1 = distanceBetween c1 c2.
Proof.
  unfold distanceBetween. cbn -[sqrt]. f_equal.
  match goal with |- ?a = ?b => change (@eq R a b) end. ring.
Qed.

Lemma directionTo_sym (c1 c2 : @Circle Real.number) :
  fst (directionTo c2 c1) = - fst (directionTo c1 c2)
  /\ snd (directionTo c2 c1) = - snd (directionTo c1 c2).
Proof.
  unfold directionTo. cbn [fst snd]. rewrite distanceBetween_sym.
  cbn -[distanceBetween]. unfold Rdiv. split; ring.
Qed.

(** The velocities after [applyBounce] of two circles whose centres do
    not coincide. *)
Lemma applyBounce_reflects (c1 c2 : @Circle Real.number) :
  x c1 <> x c2 \/ y c1 <> y c2 ->
  let nx := fst (directionTo c1 c2) in
  let ny := snd (directionTo c1 c2) in
  vx (fst (applyBounce c1 c2)) = vx c1 - 2 * (vx c1 * nx + vy c1 * ny) * nx
  /\ vy (fst (applyBounce c1 c2)) = vy c1 - 2 * (vx c1 * nx + vy c1 * ny) * ny
  /\ vx (snd (applyBounce c1 c2)) = vx c2 - 2 * (vx c2 * nx + vy c2 * ny) * nx
  /\ vy (snd (applyBounce c1 c2))
     = vy c2 - 2 * (vx c2 * nx + vy c2 * ny) * ny.
Proof.
  intros H nx ny.
  destruct (distance_positive c1 c2 H) as [_ [Hz Hunit]].
  destruct (applyBounce_velocity c1 c2 Hz) as [V1 V2]. cbv zeta in V1, V2.
  fold nx ny in Hunit, V1, V2.
  rewrite (bounceVelocity_reflects _ _ nx ny Hunit) in V1.
  rewrite (bounceVelocity_reflects _ _ nx ny Hunit) in V2.
  inversion V1 as [[V1x V1y]]. inversion V2 as [[V2x V2y]].
  repeat split; reflexivity.
Qed.

(** X18.  In real arithmetic, a collision does not depend on which of
    the two circles comes first: [isColliding] gives the same answer
    for the two orders, and for two circles in collision whose centres
    do not coincide [applyBounce] leaves each circle the same whichever
    is passed first; the winner of the battle is the same circle. *)
Theorem collision_is_symmetric (c1 c2 : @Circle Real.number) :
  isColliding c2 c1 = isColliding c1 c2
  /\ (x c1 <> x c2 \/ y c1 <> y c2 ->
      isColliding c1 c2 = true ->
      applyBounce c2 c1 = (snd (applyBounce c1 c2), fst (applyBounce c1 c2)))
  /\ (color c1 <> color c2 ->
      fst (battleOf c2 c1) = fst (battleOf c1 c2)
      /\ snd (battleOf c2 c1) = snd (battleOf c1 c2)).
Proof.
  assert (isColliding c2 c1 = isColliding c1 c2) as Hsym.
  { destruct (isColliding c1 c2) eqn:E1.
    - apply isColliding_distance in E1. apply isColliding_distance.
      rewrite distanceBetween_sym. lra.
    - destruct (isColliding c2 c1) eqn:E2; [|reflexivity].
      apply isColliding_distance in E2. rewrite distanceBetween_sym in E2.
      assert (isColliding c1 c2 = true) as E3
        by (apply isColliding_distance; lra).
      congruence. }
  split; [exact Hsym|]. split.
  - intros H Hcol.
    assert (x c2 <> x c1 \/ y c2 <> y c1) as H'
      by (destruct H; [left | right]; auto).
    pose proof Hcol as Hcol'. rewrite <- Hsym in Hcol'.
    destruct (distance_positive c1 c2 H) as [Hpos _].
    destruct (distance_positive c2 c1 H') as [Hpos' _].
    apply isColliding_distance in Hcol, Hcol'.
    destruct (applyBounce_position c1 c2 Hpos Hcol) as [X1 [Y1 [X2 Y2]]].
    destruct (applyBounce_position c2 c1 Hpos' Hcol') as [X1' [Y1' [X2' Y2']]].
    destruct (applyBounce_reflects c1 c2 H) as [V1 [W1 [V2 W2]]].
    destruct (applyBounce_reflects c2 c1 H') as [V1' [W1' [V2' W2']]].
    destruct (applyBounce_keeps c1 c2) as [K1 [K2 [K3 [K4 [K5 K6]]]]].
    destruct (applyBounce_keeps c2 c1) as [K1' [K2' [K3' [K4' [K5' K6']]]]].
    destruct (directionTo_sym c1 c2) as [D1 D2].
    cbv zeta in *. rewrite distanceBetween_sym in X1', Y1', X2', Y2'.
    rewrite D1, D2 in *.
    apply injective_projections; cbn [fst snd]; apply circle_eq;
      try congruence.
    + rewrite X1', X2. replace (size c2 + size c1) with (size c1 + size c2)
        by apply Rplus_comm. real_ring.
    + rewrite Y1', Y2. replace (size c2 + size c1) with (size c1 + size c2)
        by apply Rplus_comm. real_ring.
    + rewrite V1', V2. real_ring.
    + rewrite W1', W2. real_ring.
    + rewrite X2', X1. replace (size c2 + size c1) with (size c1 + size c2)
        by apply Rplus_comm. real_ring.
    + rewrite Y2', Y1. replace (size c2 + size c1) with (size c1 + size c2)
        by apply Rplus_comm. real_ring.
    + rewrite V2', V1. real_ring.
    + rewrite W2', W1. real_ring.
  - intros Hne. unfold battleOf.
    destruct (color c1), (color c2); cbn; try congruence; auto.
Qed.

End RealSymmetry.

(* ================================================================= *)
(** * Examples in binary64 *)

Module Examples.
Import Float64 Fixtures.
#[local] Existing Instance Float64.number.
#[local] Set Warnings "-inexact-float".
Local Open Scope float_scope.

(** The decimal literals of the engine, as JavaScript reads them. *)
Example decimal_literals :
  (decimal 15 100 : float) = 0.15 /\ (decimal 2 10 : float) = 0.2
  /\ (decimal 18 10 : float) = 1.8 /\ (decimal 25 10 : float) = 2.5
  /\ (decimal 98 100 : float) = 0.98 /\ (decimal 1 10 : float) = 0.1
  /\ (decimal 5 10 : float) = 0.5 /\ (decimal 7 10 : float) = 0.7
  /\ (decimal 8 10 : float) = 0.8
  /\ (decimal 85 100 : float) = 0.85 /\ (decimal 866 1000 : float) = 0.866
  /\ (SPEED * decimal 18 10)%num = 4.5.
Proof. repeat split. Qed.

(** The arenas the engine makes for the two canvases. *)
Example arenas_made :
  currentArena duel = mkArenaConfig square medium 493 493
  /\ (PLAYFIELD_WIDTH duel = 493 /\ PLAYFIELD_HEIGHT duel = 493)
  /\ currentArena narrow = mkArenaConfig square small 7 7
  /\ (PLAYFIELD_WIDTH narrow = 7 /\ PLAYFIELD_HEIGHT narrow = 7).
Proof. repeat split. Qed.


(** The blue circle wins the battle of [duel]; in the scan it has
    been bounced: its velocity is reversed and it is pushed back. *)
Example duel_checkCollisions (RT : Runtime) :
  map (fun c => (x c, vx c, color c)) (circles (snd (checkCollisions duel)))
  = [(292.5, -2.5, blue); (292.5 + Math_cos (Math_random 70 * Math_PI * 2) * 10,
                            -2.5 + (Math_random 72 - 0.5) * 1, blue)].
Proof. vm_compute. reflexivity. Qed.



(** C3, an instance: in the frame of [duel] the red circle is removed
    and [onGameEnd] is called with blue; blue is then the only colour
    with live circles, and three more frames make no other call. *)
Lemma duel_reports_blue :
  isRunning duel = true
  /\ forall RT : Runtime,
       onGameEnd_calls (snd (gameLoop duel)) = [blue]
       /\ soleSurvivor blue (beforeWinCheck duel)
       /\ exists calls,
            onGameEnd_calls (Nat.iter 3 runFrame (snd (gameLoop duel)))
            = onGameEnd_calls duel ++ calls
            /\ (List.length calls <= 1)%nat.
Proof.
  split; [reflexivity|]. intros RT.
  assert (onGameEnd_calls (snd (gameLoop duel)) = [blue]) as Hcall
    by (vm_compute; reflexivity).
  destruct (win_reported_once duel) as (_ & Hframe & _ & _ & _ & Honce).
  split; [exact Hcall|].
  split; [exact (proj1 (Hframe eq_refl blue) Hcall) | exact (Honce 3%nat)].
Defined.

(** C6, an instance: a second blue circle on the very centre of
    [blue0] changes neither the force on [blue0] nor anything in the
    collision check of the two. *)
Lemma same_color_example :
  color blue0 = color (mkCircle "blue-1-1700000000000" 300 300 1 1 blue 25)
  /\ forall (RT : Runtime) (others : list Circle),
       let twin := mkCircle "blue-1-1700000000000" 300 300 1 1 blue 25 in
       applyMagneticForces (red0 :: twin :: others) blue0
       = applyMagneticForces (red0 :: others) blue0
       /\ checkPair 0 1 ([], []) (engineOf [blue0; twin])
          = (([], []), engineOf [blue0; twin]).
Proof.
  split; [reflexivity|]. intros RT others twin.
  destruct (@same_color_never_interacts Float64.number RT) as (_ & Hf & Hp).
  split.
  - exact (Hf blue0 twin [red0] others eq_refl).
  - exact (Hp (engineOf [blue0; twin]) 0%nat 1%nat ([], []) blue0 twin
              eq_refl eq_refl eq_refl).
Defined.

(** The bounce of [duel] in binary64: both velocities are turned round
    and both speeds are the 2.5 they were. *)
Example duel_bounce :
  applyBounce blue0 red0
  = (mkCircle "blue-0-1700000000000" 292.5 300 (-2.5) 0 blue 25,
     mkCircle "red-0-1700000000000" 317.5 300 2.5 0 red 25).
Proof. reflexivity. Qed.

(** C4, the claim refuted.  In [duel], [blue0] wins the battle and is
    in the list after [checkCollisions], but not as it was: the bounce
    has put it at x = 292.5 with the velocity -2.5.  In [trio],
    [blue0] wins the battle of the first pair of the scan, against
    [red0]; in the second pair, bounced, it meets [green_left] and
    loses; its id is marked, and no circle with its id is in the list
    after the call: the winner of a battle is not retained. *)
Lemma winner_bounced_or_removed :
  (nth_error (circles duel) 0 = Some blue0
   /\ beats (color blue0) (color red0) = true
   /\ (forall RT : Runtime,
         nth_error (circles (snd (checkCollisions duel))) 0
         = Some (mkCircle "blue-0-1700000000000" 292.5 300 (-2.5) 0 blue 25))
   /\ PrimFloat.eqb 292.5 (x blue0) = false
   /\ PrimFloat.eqb (-2.5) (vx blue0) = false)
  /\ (beats (color green_left) (color blue0) = true
      /\ forall RT : Runtime,
           battleAt trio 0 0 1 blue0 red0
           /\ battleAt trio 1 0 2 (fst (applyBounce blue0 red0)) green_left
           /\ fst (fst (scanPairs 3 trio)) = [id red0; id blue0]
           /\ existsb (fun c => String.eqb (id c) (id blue0))
                      (circles (snd (checkCollisions trio))) = false
           /\ map color (circles (snd (checkCollisions trio)))
              = [green; blue; green]).
Proof.
  split.
  - split; [reflexivity|]. split; [reflexivity|].
    split; [intros RT; vm_compute; reflexivity|].
    split; reflexivity.
  - split; [reflexivity|]. intros RT.
    split; [repeat split; discriminate|].
    split; [repeat split; discriminate|].
    vm_compute. repeat split.
Qed.

(** C4 as amended, an instance: the battle of [duel], the only pair
    of its scan. *)
Lemma duel_battle :
  (nth_error (circles duel) 0 = Some blue0
   /\ nth_error (circles duel) 1 = Some red0
   /\ isColliding blue0 red0 = true
   /\ color blue0 <> color red0)
  /\ forall RT : Runtime,
       battleAt duel 0 0 1 blue0 red0
       /\ exists new : Circle,
            color new = blue
            /\ In new (circles (snd (checkCollisions duel)))
            /\ (forall c,
                  In c (filter (fun c => negb (has (fst (fst (scanPairs 2 duel)))
                                                  (id c)))
                               (circles (snd (scanPairs 2 duel)))) ->
                  id c <> id red0)
            /\ nth_error (circles (snd (checkPair 0 1 ([], []) duel))) 0
               = Some (fst (applyBounce blue0 red0)).
Proof.
  assert (color blue0 <> color red0) as Hne by discriminate.
  split; [repeat split; exact Hne|]. intros RT.
  assert (battleAt duel 0 0 1 blue0 red0) as Hb by (repeat split; exact Hne).
  split; [exact Hb|].
  destruct (battle_keeps_bounced_winner duel 0 0 1 blue0 red0 Hb)
    as (iw & il & w0 & l0 & w & l & new & Hwl & B & (_ & _ & _ & Hc & _)
        & (Hw & _) & _ & (_ & Hgone) & (_ & Hin) & _).
  destruct Hwl as [[-> [-> [-> [-> [-> ->]]]]] | [_ [_ [-> [-> _]]]]];
    [|discriminate B].
  exists new. split; [exact Hc|]. split; [exact Hin|].
  split; [exact Hgone | exact Hw].
Defined.

(** C5, the claim refuted: on [duel], [updateCircles] and the update
    in phases give the red circle different velocities and positions.
    The blue circle moves first, and the force on the red circle is
    computed from the distance 7.37 to the moved blue circle, not from
    the distance 10 at which the frame found them. *)
Lemma duel_update_not_phased :
  circles (updateCircles duel)
  = [mkCircle "blue-0-1700000000000" 302.63 300 2.6299999999999999 0 blue 25;
     mkCircle "red-0-1700000000000" 307.68034666666665 300
              (-2.3196533333333331) 0 red 25]
  /\ circles (updateCircles_phased duel)
     = [mkCircle "blue-0-1700000000000" 302.63 300 2.6299999999999999 0 blue 25;
        mkCircle "red-0-1700000000000" 307.67333333333335 300
                 (-2.3266666666666667) 0 red 25]
  /\ PrimFloat.eqb (-2.3196533333333331) (-2.3266666666666667) = false
  /\ PrimFloat.eqb 307.68034666666665 307.67333333333335 = false.
Proof. repeat split. Qed.

(** C5 as amended, an instance: the frame of [duel] runs the steps in
    their order and asks for the next frame; and in [updateCircles] the
    force on the red circle, the second of the list, reads the blue
    circle as already moved. *)
Lemma duel_frame_in_order :
  (isRunning duel = true /\ nth_error (circles duel) 1 = Some red0)
  /\ forall RT : Runtime,
       snd (gameLoop duel)
       = (let e1 := updateCircles duel in
          let e2 := updateParticles e1 in
          let e3 := snd (checkCollisions e2) in
          let e4 := snd (checkWinCondition e3) in
          let h := S (frame_handles e4) in
          set_animationId (Some h)
            (set_frames h (frame_requests e4 ++ [h]) e4))
       /\ nth_error (circles (updateCircles duel)) 1
          = Some (moveCircle duel
                    (firstn 1 (circles (updateCircles duel))
                     ++ skipn 1 (circles duel))
                    red0).
Proof.
  split; [split; reflexivity|]. intros RT.
  destruct (@frame_steps_in_order Float64.number RT duel) as (Hf & _ & Hp).
  split; [exact (Hf eq_refl) | exact (Hp 1%nat red0 eq_refl)].
Defined.

(** C7, the claim refuted: [narrow] has the square arena the engine
    makes for a canvas of 30 by 30, of 7 by 7; there the bounds of a
    circle are left = 24 and right = 6, and the centre ends at
    x = 24 = y, beyond right and bottom. *)
Lemma narrow_arena_not_contained :
  currentArena narrow = mkArenaConfig square small 7 7
  /\ squareLeft narrow centred = 24 /\ squareRight narrow centred = 6
  /\ squareTop narrow centred = 24 /\ squareBottom narrow centred = 6
  /\ x (handleSquareBoundaries narrow centred) = 24
  /\ y (handleSquareBoundaries narrow centred) = 24
  /\ PrimFloat.leb (x (handleSquareBoundaries narrow centred))
                   (squareRight narrow centred) = false
  /\ PrimFloat.leb (y (handleSquareBoundaries narrow centred))
                   (squareBottom narrow centred) = false.
Proof. repeat split. Qed.

(** C7 as amended, an instance: [outside] is brought back to the left
    bound 66 of the arena of [duel], its horizontal velocity
    negated. *)
Lemma outside_contained :
  (squareLeft duel outside = 66 /\ squareRight duel outside = 534)
  /\ (PrimFloat.leb (squareLeft duel outside)
                    (x (handleSquareBoundaries duel outside)) = true
      /\ PrimFloat.leb (x (handleSquareBoundaries duel outside))
                       (squareRight duel outside) = true)
  /\ PrimFloat.eqb (x (handleSquareBoundaries duel outside)) 66 = true
  /\ vx (handleSquareBoundaries duel outside) = 2.
Proof.
  split; [split; reflexivity|].
  destruct (@square_boundaries_contain Float64.number Float64Laws.laws
              duel outside eq_refl eq_refl eq_refl eq_refl)
    as [[H1 [H2 _]] [H3 _]].
  split; [split; [exact H1 | exact H2]|].
  destruct (H3 eq_refl) as [H4 H5]. split; [exact H4 | exact H5].
Defined.

(** At distance zero: [red_same] is prey of [blue0], of another colour
    and within the radius, at distance zero; it adds no force on
    [blue0]. *)
Example no_force_at_distance_zero :
  String.eqb (id blue0) (id red_same) = false
  /\ getColorRelationship (color blue0) (color red_same) = attraction
  /\ distanceBetween blue0 red_same = 0
  /\ PrimFloat.leb (distanceBetween blue0 red_same) MAGNETIC_RANGE = true
  /\ magneticForce blue0 (0, 0) red_same = (0, 0)
  /\ (ATTRACTION_FORCE * (1 - distanceBetween blue0 red_same / MAGNETIC_RANGE))%num
     = 0.15.
Proof. repeat split. Qed.



(** C10, an instance: the bounce and the force of [red_same] leave
    [blue0] as it is; and the direction from [blue0] to [red0], at
    distance 10, is made of numbers. *)
Lemma coinciding_example :
  (applyBounce blue0 red_same = (blue0, red_same)
   /\ magneticForce blue0 (0, 0) red_same = (0, 0))
  /\ (distanceBetween blue0 red0 = 10
      /\ PrimFloat.is_nan (fst (directionTo blue0 red0)) = false
      /\ PrimFloat.is_nan (snd (directionTo blue0 red0)) = false).
Proof.
  pose proof (@coinciding_centres_skipped Float64.number Float64Laws.laws)
    as (_ & _ & Hsame & Hdir).
  destruct (Hsame blue0 red_same eq_refl eq_refl eq_refl eq_refl)
    as (_ & Hm & Hb & _).
  split; [split; [exact Hb | exact (proj1 (Hm (0, 0)))]|].
  destruct (Hdir blue0 red0 eq_refl eq_refl eq_refl eq_refl)
    as (_ & Hr & _).
  split; [reflexivity|]. exact (Hr eq_refl eq_refl eq_refl).
Defined.


(** X17, an instance: in the round arena of [narrow_round] the circle
    [at_centre] gets a position and a velocity that are not numbers. *)
Lemma narrow_round_example :
  (shape (currentArena RoundFixtures.narrow_round) <> square
   /\ (arenaRadius RoundFixtures.narrow_round RoundFixtures.at_centre
       <? of_Z 0)%num = true)
  /\ PrimFloat.is_nan
       (x (handleArenaBoundaries RoundFixtures.narrow_round
             RoundFixtures.at_centre)) = true.
Proof.
  assert (shape (currentArena RoundFixtures.narrow_round) <> square) as Hs
    by (vm_compute; discriminate).
  assert ((arenaRadius RoundFixtures.narrow_round RoundFixtures.at_centre
           <? of_Z 0)%num = true) as Hr by (vm_compute; reflexivity).
  split; [split; assumption|].
  destruct (Float64Edge.narrow_round_arena_gives_nan
              RoundFixtures.narrow_round RoundFixtures.at_centre Hs
              eq_refl eq_refl eq_refl eq_refl Hr) as [Hx _].
  exact Hx.
Defined.


(** The circle arena puts [wanderer], which was 284.9 from the centre
    of the canvas, at the distance 234.00000000000003: a rounding
    beyond the radius 234. *)
Example wanderer_put_back :
  arenaRadius RoundFixtures.disc_arena RoundFixtures.wanderer = 234
  /\ centreDistance RoundFixtures.disc_arena RoundFixtures.wanderer
     = 284.92907889508217
  /\ centreDistance RoundFixtures.disc_arena
       (handleArenaBoundaries RoundFixtures.disc_arena RoundFixtures.wanderer)
     = 234.00000000000003
  /\ PrimFloat.ltb 234 234.00000000000003 = true.
Proof. repeat split. Qed.

(** X11, an instance: [spark], with a life of 0.5, is kept by 30 calls
    of [updateParticles], with a life of about 1e-16 left, and dropped
    by the next. *)
Lemma spark_example :
  particles (Nat.iter 30 updateParticles
               (set_particles [RoundFixtures.spark] duel))
  = [Nat.iter 30 updateParticle RoundFixtures.spark]
  /\ life (Nat.iter 30 updateParticle RoundFixtures.spark)
     = 1.0408340855860843e-16
  /\ particles (Nat.iter 31 updateParticles
                  (set_particles [RoundFixtures.spark] duel))
     = [].
Proof.
  destruct (particles_fade 30 (set_particles [RoundFixtures.spark] duel))
    as [H30 _].
  destruct (particles_fade 31 (set_particles [RoundFixtures.spark] duel))
    as [H31 _].
  split; [exact H30|]. split; [reflexivity | exact H31].
Defined.

(** X13, an instance: in the arena of 493 by 493 the bounds are in
    order, and whatever the runtime the 300 circles are within them,
    unless a coordinate is NaN. *)
Lemma placed_example :
  (forall c : Circle, size c = CIRCLE_SIZE ->
      PrimFloat.leb (squareLeft (engineOf []) c) (squareRight (engineOf []) c)
      = true
      /\ PrimFloat.leb (squareTop (engineOf []) c)
                       (squareBottom (engineOf []) c) = true)
  /\ forall RT : Runtime,
       Forall (fun c : Circle =>
                 (PrimFloat.is_nan (x c) = false ->
                    PrimFloat.leb (squareLeft (engineOf []) c) (x c) = true
                    /\ PrimFloat.leb (x c) (squareRight (engineOf []) c)
                       = true)
                 /\ (PrimFloat.is_nan (y c) = false ->
                       PrimFloat.leb (squareTop (engineOf []) c) (y c) = true
                       /\ PrimFloat.leb (y c) (squareBottom (engineOf []) c)
                          = true))
              (circles (snd (initializeCircles (engineOf [])))).
Proof.
  assert (forall c : Circle, size c = CIRCLE_SIZE ->
      PrimFloat.leb (squareLeft (engineOf []) c) (squareRight (engineOf []) c)
      = true
      /\ PrimFloat.leb (squareTop (engineOf []) c)
                       (squareBottom (engineOf []) c) = true) as H.
  { intros c Hs. unfold squareLeft, squareRight, squareTop, squareBottom.
    rewrite Hs. split; reflexivity. }
  split; [exact H|]. intros RT.
  exact (Float64Seeding.initial_circles_placed RT (engineOf []) H).
Defined.

(** With the runtime [stuck], whose [Math.random()] gives 0, every
    group starts on its centre: the 300 circles have coordinates that
    are numbers, within the bounds. *)
Example stuck_seeds_placed :
  forall cos sin : float -> float,
    let made :=
      circles (snd (@initializeCircles _ (stuck cos sin) (engineOf []))) in
    List.length made = 300%nat
    /\ forallb (fun c : Circle =>
                  PrimFloat.leb (squareLeft (engineOf []) c) (x c)
                  && PrimFloat.leb (x c) (squareRight (engineOf []) c)
                  && PrimFloat.leb (squareTop (engineOf []) c) (y c)
                  && PrimFloat.leb (y c) (squareBottom (engineOf []) c))
               made = true.
Proof. intros cos sin. vm_compute. split; reflexivity. Qed.

End Examples.

(* ================================================================= *)
(** * Examples in real arithmetic *)

Module RealExamples.
Import Real RealLaws RealFixtures.
#[local] Existing Instance Real.number.
Local Open Scope R_scope.

Lemma distance_blue1_red1 : distanceBetween blue1 red1 = 1.
Proof.
  unfold distanceBetween. cbn -[sqrt].
  replace ((1 - 0) * (1 - 0) + (0 - 0) * (0 - 0)) with 1 by ring.
  apply sqrt_1.
Qed.




Import RealEngines.

Lemma colliding_blue1_red1 : isColliding blue1 red1 = true.
Proof.
  apply isColliding_distance. rewrite distance_blue1_red1. cbn. lra.
Qed.

Lemma halves_in_range (n : nat) : 0 <= @Math_random Real.number halves n < 1.
Proof. cbn. lra. Qed.

(** X15, an instance: with the runtime [halves], [startGame] on [fresh]
    gives an engine, with the first frame requested. *)
Lemma start_example :
  (forall n : nat, 0 <= @Math_random Real.number halves n < 1)
  /\ exists e' : GameEngine,
       @startGame Real.number halves fresh = Some e'
       /\ frame_requests e' = [1%nat] /\ (List.length (circles e') <= 300)%nat.
Proof.
  split; [exact halves_in_range|].
  destruct (startGame_starts halves fresh halves_in_range)
    as [e' [Hs [_ [[Hf _] [Hl _]]]]].
  exists e'. split; [exact Hs|]. split; [exact Hf | exact Hl].
Defined.

(** X18, an instance: the bounce of [red1] and [blue1] is the bounce
    of [blue1] and [red1], and blue wins in both orders. *)
Lemma symmetry_example :
  applyBounce red1 blue1
  = (snd (applyBounce blue1 red1), fst (applyBounce blue1 red1))
  /\ fst (battleOf red1 blue1) = fst (battleOf blue1 red1).
Proof.
  destruct (collision_is_symmetric blue1 red1) as [_ [Hb Hw]].
  split.
  - apply Hb; [left; cbn; lra | exact colliding_blue1_red1].
  - apply Hw. discriminate.
Defined.

End RealExamples.
